(** * Verification of the LRU cache of go-concurrency (package caches) and
    of the index-based access of its companion ConcurrentLinkedList
    (package collections).

    The Go code manipulates pointer-linked nodes.  The embedding models
    the Go heap explicitly: a node pointer is a location [loc], the heap is
    a finite map from locations to node records, and a dereference of a
    pointer that is [nil] or not allocated is a run-time panic, modelled by
    [None].  Every method is a function in a small state-and-panic monad.
    The sequential part runs the methods one after another.  Section
    [LRUConc] then embeds the methods with their mutex operations
    ([lru.mu.Lock()], [Unlock], [RLock], [RUnlock]) as goroutines: each
    method becomes a thread whose steps are single heap accesses and lock
    operations, and a run is any interleaving of the threads' steps. *)

From Stdlib Require Import ZArith Lia.
From stdpp Require Import base gmap list.



Abbreviation loc := nat.

(** ** Pointer-linked segments

    A doubly-linked segment of nodes, generic in the node type, so that
    both [lruEntity] (caches) and [listItem] (collections) use it.
    [seg h p ls n]: the locations [ls] are allocated in [h], each node's
    [prev] is the location before it ([p] for the first one) and each
    node's [next] is the location after it ([n] for the last one). *)

Section Links.
Context {N : Type} (nprev nnext : N -> option loc).

Definition first_or (ls : list loc) (n : option loc) : option loc :=
  match ls with [] => n | x :: _ => Some x end.

Definition last_or (ls : list loc) (p : option loc) : option loc :=
  match last ls with Some x => Some x | None => p end.

Fixpoint seg (h : gmap loc N) (p : option loc) (ls : list loc)
    (n : option loc) : Prop :=
  match ls with
  | [] => True
  | l :: r => exists e, h !! l = Some e /\ nprev e = p /\
                nnext e = first_or r n /\ seg h (Some l) r n
  end.

(** Go's traversal [for item := first; item != nil; item = item.next],
    collecting the visited locations; [fuel] bounds the number of
    steps, running out of it is reported as [None]. *)
Fixpoint walk (h : gmap loc N) (o : option loc) (fuel : nat)
    : option (list loc) :=
  match o with
  | None => Some []
  | Some l =>
      match fuel with
      | O => None
      | S f =>
          match h !! l with
          | None => None
          | Some e =>
              match walk h (nnext e) f with
              | Some r => Some (l :: r)
              | None => None
              end
          end
      end
  end.

(** [h'] keeps the links of the node at [l] of [h]. *)
Definition links_agree (h h' : gmap loc N) (l : loc) : Prop :=
  forall e, h !! l = Some e ->
    exists e', h' !! l = Some e' /\ nprev e' = nprev e /\ nnext e' = nnext e.
End Links.

(** ** The LRU cache (package caches) *)

Section LRU.
Context {K : Type} `{Countable K} {V : Type}.
(** Go's zero value of the value type [V] ([var res V]). *)
Context (zero : V).

(** [type lruEntity[K, V] struct { key K; value V; prev, next *lruEntity }] *)
Record lruEntity := mkEntity {
  key : K;
  value : V;
  prev : option loc;
  next : option loc
}.

(** The state: the fields of [LRU] ([mp], [limit]) and of its
    [entityList] ([head], [tail]), together with the Go heap holding the
    entities ([mem]) and the next fresh location ([next_loc]). *)
Record LRU := mkLRU {
  mem : gmap loc lruEntity;
  next_loc : loc;
  mp : gmap K loc;
  entities_head : option loc;
  entities_tail : option loc;
  limit : Z
}.

(** The state-and-panic monad. *)
Definition M (A : Type) : Type := LRU -> option (A * LRU).

Definition ret {A} (a : A) : M A := fun s => Some (a, s).
Definition bind {A B} (m : M A) (f : A -> M B) : M B :=
  fun s => match m s with Some (a, s') => f a s' | None => None end.
Definition panic {A} : M A := fun _ => None.

Local Notation "'let*' x := m 'in' k" := (bind m (fun x => k))
  (at level 200, x name, m at level 100, k at level 200).

Definition get_mp : M (gmap K loc) := fun s => Some (mp s, s).
Definition set_mp (m : gmap K loc) : M unit := fun s =>
  Some (tt, mkLRU (mem s) (next_loc s) m (entities_head s) (entities_tail s) (limit s)).
Definition get_limit : M Z := fun s => Some (limit s, s).
Definition get_head : M (option loc) := fun s => Some (entities_head s, s).
Definition set_head (o : option loc) : M unit := fun s =>
  Some (tt, mkLRU (mem s) (next_loc s) (mp s) o (entities_tail s) (limit s)).
Definition get_tail : M (option loc) := fun s => Some (entities_tail s, s).
Definition set_tail (o : option loc) : M unit := fun s =>
  Some (tt, mkLRU (mem s) (next_loc s) (mp s) (entities_head s) o (limit s)).

(** Dereference of a pointer: a panic when nothing is allocated there. *)
Definition load (l : loc) : M lruEntity := fun s =>
  match mem s !! l with Some e => Some (e, s) | None => None end.
Definition store (l : loc) (e : lruEntity) : M unit := fun s =>
  match mem s !! l with
  | Some _ => Some (tt, mkLRU (<[l := e]> (mem s)) (next_loc s) (mp s)
                            (entities_head s) (entities_tail s) (limit s))
  | None => None
  end.
(** [&lruEntity[K, V]{...}]: allocation of a fresh entity. *)
Definition alloc (e : lruEntity) : M loc := fun s =>
  Some (next_loc s, mkLRU (<[next_loc s := e]> (mem s)) (S (next_loc s)) (mp s)
                          (entities_head s) (entities_tail s) (limit s)).

Definition get_prev (l : loc) : M (option loc) :=
  let* e := load l in ret (prev e).
Definition get_next (l : loc) : M (option loc) :=
  let* e := load l in ret (next e).
Definition set_prev (l : loc) (p : option loc) : M unit :=
  let* e := load l in store l (mkEntity (key e) (value e) p (next e)).
Definition set_next (l : loc) (n : option loc) : M unit :=
  let* e := load l in store l (mkEntity (key e) (value e) (prev e) n).
Definition set_value (l : loc) (v : V) : M unit :=
  let* e := load l in store l (mkEntity (key e) v (prev e) (next e)).

(** [func (e *lruEntity[K, V]) insertBefore(entity *lruEntity[K, V])] *)
Definition insertBefore (e entity : loc) : M unit :=
  let* ep := get_prev e in
  let* _ := set_prev entity ep in
  let* _ := set_next entity (Some e) in
  let* _ := set_prev e (Some entity) in
  let* p := get_prev entity in
  match p with
  | Some q => set_next q (Some entity)
  | None => ret tt
  end.

(** [func (e *lruEntity[K, V]) insertAfter(entity *lruEntity[K, V])];
    no method of the cache calls it. *)
Definition insertAfter (e entity : loc) : M unit :=
  let* en := get_next e in
  let* _ := set_next entity en in
  let* _ := set_prev entity (Some e) in
  let* _ := set_next e (Some entity) in
  let* n := get_next entity in
  match n with
  | Some m => set_prev m (Some entity)
  | None => ret tt
  end.

(** [func (e *lruEntity[K, V]) removeYourself()] *)
Definition removeYourself (e : loc) : M unit :=
  let* p := get_prev e in
  let* _ := match p with
            | Some q => let* n := get_next e in set_next q n
            | None => ret tt
            end in
  let* n := get_next e in
  match n with
  | Some m => let* p := get_prev e in set_prev m p
  | None => ret tt
  end.

(** [func (el *entityList[K, V]) setHead(entity *lruEntity[K, V])] *)
Definition setHead (entity : loc) : M unit :=
  let* _ := set_prev entity None in
  let* h := get_head in
  let* _ := match h with
            | Some hd => insertBefore hd entity
            | None => set_tail (Some entity)
            end in
  set_head (Some entity).

(** [func (el *entityList[K, V]) removeEntity(entity *lruEntity[K, V])] *)
Definition removeEntity (entity : loc) : M unit :=
  let* _ := removeYourself entity in
  let* h := get_head in
  let* _ := if decide (h = Some entity)
            then let* n := get_next entity in set_head n
            else ret tt in
  let* t := get_tail in
  if decide (t = Some entity)
  then let* p := get_prev entity in set_tail p
  else ret tt.

(** [func (el *entityList[K, V]) moveToHead(entity *lruEntity[K, V])] *)
Definition moveToHead (entity : loc) : M unit :=
  let* h := get_head in
  if decide (h = Some entity) then ret tt
  else let* _ := removeEntity entity in setHead entity.

(** [func (el *entityList[K, V]) clear()] *)
Definition clear : M unit :=
  let* _ := set_head None in set_tail None.

(** [func (lru *LRU[K, V]) evictEntity(entity *lruEntity[K, V])] *)
Definition evictEntity (entity : loc) : M unit :=
  let* _ := removeEntity entity in
  let* _ := set_prev entity None in
  let* _ := set_next entity None in
  let* e := load entity in
  let* m := get_mp in
  set_mp (delete (key e) m).

(** [func (lru *LRU[K, V]) putEntity(entity *lruEntity[K, V])];
    [lru.evictEntity(lru.entities.tail)] panics on a [nil] tail. *)
Definition putEntity (entity : loc) : M unit :=
  let* e := load entity in
  let* m := get_mp in
  let* _ := set_mp (<[key e := entity]> m) in
  let* _ := setHead entity in
  let* m := get_mp in
  let* lim := get_limit in
  if (Z.of_nat (size m) >? lim)%Z then
    let* t := get_tail in
    match t with
    | Some l => evictEntity l
    | None => panic
    end
  else ret tt.

(** [func (lru *LRU[K, V]) Put(key K, value V)] *)
Definition Put (k : K) (v : V) : M unit :=
  let* m := get_mp in
  match m !! k with
  | None =>
      let* entity := alloc (mkEntity k v None None) in
      putEntity entity
  | Some entity =>
      let* _ := set_value entity v in
      moveToHead entity
  end.

(** [func (lru *LRU[K, V]) PutIfAbsent(key K, value V) (bool, V)] *)
Definition PutIfAbsent (k : K) (v : V) : M (bool * V) :=
  let* m := get_mp in
  let* r := match m !! k with
            | None =>
                let* entity := alloc (mkEntity k v None None) in
                let* _ := putEntity entity in
                ret (entity, false)
            | Some entity => ret (entity, true)
            end in
  let* e := load (fst r) in
  ret (negb (snd r), value e).

(** [func (lru *LRU[K, V]) Get(key K) (bool, V)] *)
Definition Get (k : K) : M (bool * V) :=
  let* m := get_mp in
  match m !! k with
  | Some entity =>
      let* e := load entity in
      let* _ := moveToHead entity in
      ret (true, value e)
  | None => ret (false, zero)
  end.

(** [func (lru *LRU[K, V]) Evict(key K) (bool, V)] *)
Definition Evict (k : K) : M (bool * V) :=
  let* m := get_mp in
  match m !! k with
  | Some entity =>
      let* e := load entity in
      let* _ := evictEntity entity in
      ret (true, value e)
  | None => ret (false, zero)
  end.

(** [func (lru *LRU[K, V]) Clear()]: a fresh empty map, then
    [lru.entities.clear()]. *)
Definition Clear : M unit :=
  let* _ := set_mp ∅ in clear.

(** [func (lru *LRU[K, V]) Size() int] *)
Definition Size : M Z :=
  let* m := get_mp in ret (Z.of_nat (size m)).

(** The loop of [Copy], [for k, e := range lru.mp { result[k] = e.value }],
    over the entries of the index in the order of [map_to_list] (Go
    leaves the order open). *)
Fixpoint copy_loop (kes : list (K * loc)) (result : gmap K V) : M (gmap K V) :=
  match kes with
  | [] => ret result
  | (k, e) :: r => let* ent := load e in copy_loop r (<[k := value ent]> result)
  end.

(** [func (lru *LRU[K, V]) Copy() map[K]V] *)
Definition Copy : M (gmap K V) :=
  let* m := get_mp in copy_loop (map_to_list m) ∅.

(** [func NewLRU[K, V](limit int) *LRU[K, V]]: an empty cache with an
    empty [entityList].  A negative capacity hint of [make] is ignored
    by the Go runtime for maps, so every [limit] is accepted. *)
Definition NewLRU (lim : Z) : LRU :=
  mkLRU ∅ O ∅ None None lim.

(** The representation invariant of a cache state: [ls] lists the
    entities of the order list from head to tail. *)
Record Inv (s : LRU) (ls : list loc) : Prop := {
  inv_nodup : NoDup ls;
  inv_seg : seg prev next (mem s) None ls None;
  inv_head : entities_head s = head ls;
  inv_tail : entities_tail s = last ls;
  inv_mp : forall k l, mp s !! k = Some l <-> l ∈ ls /\ key <$> mem s !! l = Some k;
  inv_size : size (mp s) = length ls;
  inv_fresh : forall l, is_Some (mem s !! l) -> l < next_loc s
}.

(** The key/value pairs of the entities [ls], in order. *)
Definition view (s : LRU) (ls : list loc) : list (K * V) :=
  omap (fun l => (fun e => (key e, value e)) <$> mem s !! l) ls.

(** A sequence of calls on one cache.  [Size] is included: it leaves
    the cache as it is. *)
Inductive op : Type :=
| OPut (k : K) (v : V)
| OPutIfAbsent (k : K) (v : V)
| OGet (k : K)
| OEvict (k : K)
| OClear
| OSize.

Definition run_op (o : op) : M unit :=
  match o with
  | OPut k v => Put k v
  | OPutIfAbsent k v => let* _ := PutIfAbsent k v in ret tt
  | OGet k => let* _ := Get k in ret tt
  | OEvict k => let* _ := Evict k in ret tt
  | OClear => Clear
  | OSize => let* _ := Size in ret tt
  end.

Fixpoint run_ops (os : list op) : M unit :=
  match os with
  | [] => ret tt
  | o :: os => let* _ := run_op o in run_ops os
  end.
End LRU.

(** ** The cache as the specification describes it

    A reference model following the specification's wording: the cache
    is the list of its (key, value) pairs ordered from the most recently
    used to the least recently used one; the head is the most recent,
    the tail the one evicted. *)

Module LRUSpec.
Section Model.
Context {K : Type} `{EqDecision K} {V : Type} (zero : V).

Fixpoint lookup_key (k : K) (L : list (K * V)) : option V :=
  match L with
  | [] => None
  | (k', v) :: L => if decide (k = k') then Some v else lookup_key k L
  end.

Definition remove_key (k : K) (L : list (K * V)) : list (K * V) :=
  filter (fun p => p.1 <> k) L.

(** Absent key: a new entry at the head, and if the size then exceeds
    the limit, the tail is evicted.  Present key: the value is
    overwritten and the entry moves to the head. *)
Definition put (lim : Z) (k : K) (v : V) (L : list (K * V)) : list (K * V) :=
  match lookup_key k L with
  | Some _ => (k, v) :: remove_key k L
  | None =>
      if (Z.of_nat (S (length L)) >? lim)%Z then removelast ((k, v) :: L)
      else (k, v) :: L
  end.

Definition put_if_absent (lim : Z) (k : K) (v : V) (L : list (K * V))
    : (bool * V) * list (K * V) :=
  match lookup_key k L with
  | Some v0 => ((false, v0), L)
  | None => ((true, v), put lim k v L)
  end.

Definition get (k : K) (L : list (K * V)) : (bool * V) * list (K * V) :=
  match lookup_key k L with
  | Some v0 => ((true, v0), (k, v0) :: remove_key k L)
  | None => ((false, zero), L)
  end.

Definition evict (k : K) (L : list (K * V)) : (bool * V) * list (K * V) :=
  match lookup_key k L with
  | Some v0 => ((true, v0), remove_key k L)
  | None => ((false, zero), L)
  end.

(** The cache after one call, and after a sequence of calls. *)
Definition step (lim : Z) (o : op (K:=K) (V:=V)) (L : list (K * V)) : list (K * V) :=
  match o with
  | OPut k v => put lim k v L
  | OPutIfAbsent k v => (put_if_absent lim k v L).2
  | OGet k => (get k L).2
  | OEvict k => (evict k L).2
  | OClear => []
  | OSize => L
  end.

Definition run (lim : Z) (os : list op) (L : list (K * V)) : list (K * V) :=
  fold_left (fun L o => step lim o L) os L.
End Model.
End LRUSpec.

(** ** The companion list of package collections

    [ConcurrentLinkedList[T]] with its [listItem[T]] nodes, as far as
    index-based access goes: [getByIndex], [Get], [removeYourself],
    [removeItem] and [Remove].  The fields [first] and [last] keep their
    names inside this module. *)

Module Collections.

Definition list_last {A} (l : list A) : option A := last l.

Inductive error : Type := ErrIndexOutOfRange.

Section ConcurrentLinkedList.
Context {T : Type} (zero : T).

(** [type listItem[T any] struct] *)
Record listItem : Type := mkItem {
  prev : option loc;
  next : option loc;
  value : T
}.

(** [type ConcurrentLinkedList[T any] struct]; the heap of nodes is
    explicit, the mutex is left out. *)
Record ConcurrentLinkedList : Type := mkList {
  items : gmap loc listItem;
  first : option loc;
  last : option loc;
  size : Z
}.

Definition M (A : Type) : Type := ConcurrentLinkedList -> option (A * ConcurrentLinkedList).

Definition ret {A} (a : A) : M A := fun c => Some (a, c).
Definition bind {A B} (m : M A) (f : A -> M B) : M B :=
  fun c => match m c with Some (a, c') => f a c' | None => None end.
Definition panic {A} : M A := fun _ => None.

Local Notation "'let*' x := m 'in' k" := (bind m (fun x => k))
  (at level 200, x name, m at level 100, k at level 200).

Definition load (l : loc) : M listItem := fun c =>
  match items c !! l with Some it => Some (it, c) | None => None end.
Definition store (l : loc) (it : listItem) : M unit := fun c =>
  match items c !! l with
  | Some _ => Some (tt, mkList (<[l := it]> (items c)) (first c) (last c) (size c))
  | None => None
  end.
Definition set_prev (l : loc) (p : option loc) : M unit :=
  let* it := load l in store l (mkItem p (next it) (value it)).
Definition set_next (l : loc) (n : option loc) : M unit :=
  let* it := load l in store l (mkItem (prev it) n (value it)).

Definition get_first : M (option loc) := fun c => Some (first c, c).
Definition set_first (f : option loc) : M unit := fun c =>
  Some (tt, mkList (items c) f (last c) (size c)).
Definition get_last : M (option loc) := fun c => Some (last c, c).
Definition set_last (f : option loc) : M unit := fun c =>
  Some (tt, mkList (items c) (first c) f (size c)).
Definition get_size : M Z := fun c => Some (size c, c).
Definition set_size (n : Z) : M unit := fun c =>
  Some (tt, mkList (items c) (first c) (last c) n).

(** [func (li *listItem[T]) removeYourself()] *)
Definition removeYourself (li : loc) : M unit :=
  let* it := load li in
  let* _ := match prev it with
            | Some p => let* it := load li in set_next p (next it)
            | None => ret tt
            end in
  let* it := load li in
  match next it with
  | Some n => let* it := load li in set_prev n (prev it)
  | None => ret tt
  end.

(** [func (clist *ConcurrentLinkedList[T]) removeItem(item *listItem[T]) T] *)
Definition removeItem (item : loc) : M T :=
  let* it := load item in
  let res := value it in
  let* _ := removeYourself item in
  let* f := get_first in
  let* _ := if decide (f = Some item) then
              let* it := load item in set_first (next it)
            else ret tt in
  let* l := get_last in
  let* _ := if decide (l = Some item) then
              let* it := load item in set_last (prev it)
            else ret tt in
  let* n := get_size in
  let* _ := set_size (n - 1) in
  ret res.

(** The loop of [getByIndex]: [for i, item := 0, clist.first; item != nil;
    i, item = i+1, item.next { if i == index { return item, nil } }],
    with [n] the number of steps left until [i == index]. *)
Fixpoint seek (n : nat) (item : option loc) : M (option loc) :=
  match item with
  | None => ret None
  | Some l =>
      match n with
      | O => ret (Some l)
      | S n' => let* it := load l in seek n' (next it)
      end
  end.

(** [func (clist *ConcurrentLinkedList[T]) getByIndex(index int) ( *listItem[T], error)] *)
Definition getByIndex (index : Z) : M (option loc * option error) :=
  let* sz := get_size in
  if ((0 <=? index) && (index <? sz))%Z then
    let* f := get_first in
    let* r := seek (Z.to_nat index) f in
    match r with
    | Some item => ret (Some item, None)
    | None => ret (None, Some ErrIndexOutOfRange)
    end
  else ret (None, Some ErrIndexOutOfRange).

(** [func (clist *ConcurrentLinkedList[T]) Get(index int) (T, error)] *)
Definition Get (index : Z) : M (T * option error) :=
  let* r := getByIndex index in
  match r with
  | (_, Some err) => ret (zero, Some err)
  | (Some item, None) => let* it := load item in ret (value it, None)
  | (None, None) => panic
  end.

(** [func (clist *ConcurrentLinkedList[T]) Remove(index int) (T, error)] *)
Definition Remove (index : Z) : M (T * option error) :=
  let* r := getByIndex index in
  match r with
  | (_, Some err) => ret (zero, Some err)
  | (Some item, None) => let* res := removeItem item in ret (res, None)
  | (None, None) => panic
  end.

(** [&listItem[T]{value: value}]: allocation of a node at a location not
    in use. *)
Definition alloc (it : listItem) : M loc := fun c =>
  let l := fresh (dom (items c)) in
  Some (l, mkList (<[l := it]> (items c)) (first c) (last c) (size c)).

(** [func (li *listItem[T]) insert(item *listItem[T])] *)
Definition insert (li item : loc) : M unit :=
  let* it := load li in
  let* _ := set_prev item (prev it) in
  let* _ := set_next item (Some li) in
  set_prev li (Some item).

(** [func (li *listItem[T]) append(item *listItem[T])] *)
Definition append (li item : loc) : M unit :=
  let* _ := set_prev item (Some li) in
  let* it := load li in
  let* _ := set_next item (next it) in
  set_next li (Some item).

(** [li.value = v] *)
Definition set_value (l : loc) (v : T) : M unit :=
  let* it := load l in store l (mkItem (prev it) (next it) v).

(** [func swapListItems[T any](item1, item2 *listItem[T])]: the tuple
    assignment reads both values before it writes either. *)
Definition swapListItems (item1 item2 : loc) : M unit :=
  let* i1 := load item1 in
  let* i2 := load item2 in
  let* _ := set_value item1 (value i2) in
  set_value item2 (value i1).

(** [func (clist *ConcurrentLinkedList[T]) AddFirst(value T)] *)
Definition AddFirst (v : T) : M unit :=
  let* item := alloc (mkItem None None v) in
  let* f := get_first in
  let* _ := match f with
            | Some fl => insert fl item
            | None => set_last (Some item)
            end in
  let* _ := set_first (Some item) in
  let* n := get_size in
  set_size (n + 1).

(** [func (clist *ConcurrentLinkedList[T]) addLastInner(item *listItem[T])] *)
Definition addLastInner (item : loc) : M unit :=
  let* la := get_last in
  let* _ := match la with
            | Some ll => append ll item
            | None => set_first (Some item)
            end in
  let* _ := set_last (Some item) in
  let* n := get_size in
  set_size (n + 1).

(** [func (clist *ConcurrentLinkedList[T]) AddLast(value T)] *)
Definition AddLast (v : T) : M unit :=
  let* item := alloc (mkItem None None v) in
  addLastInner item.

(** [func (clist *ConcurrentLinkedList[T]) GetFirst() (T, bool)] *)
Definition GetFirst : M (T * bool) :=
  let* f := get_first in
  match f with
  | Some l => let* it := load l in ret (value it, true)
  | None => ret (zero, false)
  end.

(** [func (clist *ConcurrentLinkedList[T]) GetLast() (T, bool)] *)
Definition GetLast : M (T * bool) :=
  let* la := get_last in
  match la with
  | Some l => let* it := load l in ret (value it, true)
  | None => ret (zero, false)
  end.

(** [func (clist *ConcurrentLinkedList[T]) RemoveFirst() (T, bool)] *)
Definition RemoveFirst : M (T * bool) :=
  let* f := get_first in
  match f with
  | Some l => let* res := removeItem l in ret (res, true)
  | None => ret (zero, false)
  end.

(** [func (clist *ConcurrentLinkedList[T]) RemoveLast() (T, bool)] *)
Definition RemoveLast : M (T * bool) :=
  let* la := get_last in
  match la with
  | Some l => let* res := removeItem l in ret (res, true)
  | None => ret (zero, false)
  end.

(** The loops below run [for item != nil]; [fuel] bounds the number of
    rounds, and running out of it is reported as [None], as a run that
    does not end.  The methods start them with one round more than
    there are nodes in the heap. *)
Definition loop_fuel : M nat := fun c => Some (S (map_size (items c)), c).

(** The loop of [RemoveFirstOccurrence]. *)
Fixpoint removeFirstOcc_loop (fuel : nat) (needToRemove : T -> bool)
    (item : option loc) (index : Z) : M (T * Z) :=
  match item with
  | None => ret (zero, (-1)%Z)
  | Some l =>
      match fuel with
      | O => panic
      | S f =>
          let index := (index + 1)%Z in
          let* it := load l in
          if needToRemove (value it) then
            let* r := removeItem l in ret (r, index)
          else
            let* it := load l in
            removeFirstOcc_loop f needToRemove (next it) index
      end
  end.

(** [func (clist *ConcurrentLinkedList[T]) RemoveFirstOccurrence(needToRemove func(value T) bool) (T, int)] *)
Definition RemoveFirstOccurrence (needToRemove : T -> bool) : M (T * Z) :=
  let* f := get_first in
  let* fuel := loop_fuel in
  removeFirstOcc_loop fuel needToRemove f (-1)%Z.

(** The loop of [RemoveLastOccurrence], from the last node along [prev]. *)
Fixpoint removeLastOcc_loop (fuel : nat) (needToRemove : T -> bool)
    (item : option loc) (index : Z) : M (T * Z) :=
  match item with
  | None => ret (zero, (-1)%Z)
  | Some l =>
      match fuel with
      | O => panic
      | S f =>
          let index := (index - 1)%Z in
          let* it := load l in
          if needToRemove (value it) then
            let* r := removeItem l in ret (r, index)
          else
            let* it := load l in
            removeLastOcc_loop f needToRemove (prev it) index
      end
  end.

(** [func (clist *ConcurrentLinkedList[T]) RemoveLastOccurrence(needToRemove func(value T) bool) (T, int)] *)
Definition RemoveLastOccurrence (needToRemove : T -> bool) : M (T * Z) :=
  let* sz := get_size in
  let* la := get_last in
  let* fuel := loop_fuel in
  removeLastOcc_loop fuel needToRemove la sz.

(** The loop of [RemoveAll]: [item = item.next] is read after the node
    is unlinked. *)
Fixpoint removeAll_loop (fuel : nat) (needRemove : T -> bool)
    (item : option loc) (result : Z) : M Z :=
  match item with
  | None => ret result
  | Some l =>
      match fuel with
      | O => panic
      | S f =>
          let* it := load l in
          if needRemove (value it) then
            let* _ := removeItem l in
            let* it := load l in
            removeAll_loop f needRemove (next it) (result + 1)
          else
            let* it := load l in
            removeAll_loop f needRemove (next it) result
      end
  end.

(** [func (clist *ConcurrentLinkedList[T]) RemoveAll(needRemove func(value T) bool) int] *)
Definition RemoveAll (needRemove : T -> bool) : M Z :=
  let* f := get_first in
  let* fuel := loop_fuel in
  removeAll_loop fuel needRemove f 0.

(** The loop of [ToArray]: [result[i] = item.value], a panic when [i]
    is out of the slice's range. *)
Fixpoint toArray_loop (fuel : nat) (i : nat) (item : option loc) (result : list T)
    : M (list T) :=
  match item with
  | None => ret result
  | Some l =>
      match fuel with
      | O => panic
      | S f =>
          let* it := load l in
          if decide (i < length result) then
            toArray_loop f (S i) (next it) (<[i := value it]> result)
          else panic
      end
  end.

(** [func (clist *ConcurrentLinkedList[T]) ToArray() []T]; [make] panics
    on a negative length. *)
Definition ToArray : M (list T) :=
  let* sz := get_size in
  if (sz <? 0)%Z then panic
  else
    let* f := get_first in
    let* fuel := loop_fuel in
    toArray_loop fuel 0 f (replicate (Z.to_nat sz) zero).

(** [func (clist *ConcurrentLinkedList[T]) Clear()] *)
Definition Clear : M unit :=
  let* _ := set_first None in
  let* _ := set_last None in
  set_size 0.

(** [func (clist *ConcurrentLinkedList[T]) Size() int] *)
Definition Size : M Z := get_size.

(** [func NewConcurrentLinkedList[T any]() *ConcurrentLinkedList[T]] *)
Definition NewConcurrentLinkedList : ConcurrentLinkedList := mkList ∅ None None 0.

(** The loop of [NewConcurrentLinkedListItems]. *)
Fixpoint addAll (vs : list T) : M unit :=
  match vs with
  | [] => ret tt
  | v :: vs => let* item := alloc (mkItem None None v) in
               let* _ := addLastInner item in
               addAll vs
  end.

(** [func NewConcurrentLinkedListItems[T any](values ...T) *ConcurrentLinkedList[T]] *)
Definition NewConcurrentLinkedListItems (vs : list T) : option ConcurrentLinkedList :=
  match addAll vs NewConcurrentLinkedList with
  | Some (_, c) => Some c
  | None => None
  end.

(** The representation invariant: [ls] lists the nodes from [first] to
    [last], and [size] counts them. *)
Record ListInv (c : ConcurrentLinkedList) (ls : list loc) : Prop := {
  linv_nodup : NoDup ls;
  linv_seg : seg prev next (items c) None ls None;
  linv_first : first c = head ls;
  linv_last : last c = list_last ls;
  linv_size : size c = Z.of_nat (length ls)
}.

(** The values of the nodes [ls], in order. *)
Definition values (c : ConcurrentLinkedList) (ls : list loc) : list T :=
  omap (fun l => value <$> items c !! l) ls.
End ConcurrentLinkedList.

End Collections.

(** ** Concurrent calls on one cache

    Every exported method of [LRU] brackets its accesses to the cache
    with [lru.mu.Lock()] / [lru.mu.Unlock()] or [lru.mu.RLock()] /
    [lru.mu.RUnlock()] of the [sync.RWMutex] field [mu].  A call is
    embedded as a [thread]: a tree of its single accesses to the shared
    state (a read or write of a field of the cache or of its
    [entityList], a dereference of or a store to an entity) and of its
    operations on [mu], in the order of the Go code.  The calls of
    several goroutines run interleaved, one access at a time, and [mu]
    follows the rules of [sync.RWMutex]. *)

Section LRUConc.
Context {K : Type} `{Countable K} {V : Type} (zero : V).
Local Abbreviation LRU := (@LRU K _ _ V).
Local Abbreviation M A := (@M K _ _ V A).
Local Notation "'let*' x := m 'in' k" := (bind m (fun x => k))
  (at level 200, x name, m at level 100, k at level 200).

(** The results of the methods.  [String] formats [limit] and
    [len(lru.mp)] with [fmt.Sprintf] after [RUnlock]; its result is
    the pair it formats. *)
Inductive res : Type :=
| RUnit
| RBoolV (r : bool * V)
| RInt (n : Z)
| RMap (m : gmap K V)
| RLimitSize (lmt sz : Z).

(** A goroutine running one call: [TPrim m k] performs the single access
    [m] and continues with [k] applied to what it read. *)
Inductive thread : Type :=
| TDone (r : res)
| TPrim {X : Type} (m : M X) (k : X -> thread)
| TLock (k : thread)
| TUnlock (k : thread)
| TRLock (k : thread)
| TRUnlock (k : thread).

(** Method bodies in continuation-passing style. *)
Definition P (A : Type) : Type := (A -> thread) -> thread.
Definition pret {A} (a : A) : P A := fun k => k a.
Definition pbind {A B} (p : P A) (f : A -> P B) : P B := fun k => p (fun a => f a k).
Definition act {A} (m : M A) : P A := fun k => TPrim m k.
Definition plock : P unit := fun k => TLock (k tt).
Definition punlock : P unit := fun k => TUnlock (k tt).
Definition prlock : P unit := fun k => TRLock (k tt).
Definition prunlock : P unit := fun k => TRUnlock (k tt).

Local Notation "'let+' x := p 'in' k" := (pbind p (fun x => k))
  (at level 200, x name, p at level 100, k at level 200).

(** The entity and list helpers, access by access (see [get_prev],
    ..., [putEntity] above). *)
Definition get_prev_p (l : loc) : P (option loc) :=
  let+ e := act (load l) in pret (prev e).
Definition get_next_p (l : loc) : P (option loc) :=
  let+ e := act (load l) in pret (next e).
Definition set_prev_p (l : loc) (p : option loc) : P unit :=
  let+ e := act (load l) in act (store l (mkEntity (key e) (value e) p (next e))).
Definition set_next_p (l : loc) (n : option loc) : P unit :=
  let+ e := act (load l) in act (store l (mkEntity (key e) (value e) (prev e) n)).
Definition set_value_p (l : loc) (v : V) : P unit :=
  let+ e := act (load l) in act (store l (mkEntity (key e) v (prev e) (next e))).

Definition insertBefore_p (e entity : loc) : P unit :=
  let+ ep := get_prev_p e in
  let+ _ := set_prev_p entity ep in
  let+ _ := set_next_p entity (Some e) in
  let+ _ := set_prev_p e (Some entity) in
  let+ p := get_prev_p entity in
  match p with
  | Some q => set_next_p q (Some entity)
  | None => pret tt
  end.

Definition removeYourself_p (e : loc) : P unit :=
  let+ p := get_prev_p e in
  let+ _ := match p with
            | Some q => let+ n := get_next_p e in set_next_p q n
            | None => pret tt
            end in
  let+ n := get_next_p e in
  match n with
  | Some m => let+ p := get_prev_p e in set_prev_p m p
  | None => pret tt
  end.

Definition setHead_p (entity : loc) : P unit :=
  let+ _ := set_prev_p entity None in
  let+ h := act get_head in
  let+ _ := match h with
            | Some hd => insertBefore_p hd entity
            | None => act (set_tail (Some entity))
            end in
  act (set_head (Some entity)).

Definition removeEntity_p (entity : loc) : P unit :=
  let+ _ := removeYourself_p entity in
  let+ h := act get_head in
  let+ _ := if decide (h = Some entity)
            then let+ n := get_next_p entity in act (set_head n)
            else pret tt in
  let+ t := act get_tail in
  if decide (t = Some entity)
  then let+ p := get_prev_p entity in act (set_tail p)
  else pret tt.

Definition moveToHead_p (entity : loc) : P unit :=
  let+ h := act get_head in
  if decide (h = Some entity) then pret tt
  else let+ _ := removeEntity_p entity in setHead_p entity.

Definition clear_p : P unit :=
  let+ _ := act (set_head None) in act (set_tail None).

Definition evictEntity_p (entity : loc) : P unit :=
  let+ _ := removeEntity_p entity in
  let+ _ := set_prev_p entity None in
  let+ _ := set_next_p entity None in
  let+ e := act (load entity) in
  let+ m := act get_mp in
  act (set_mp (delete (key e) m)).

Definition putEntity_p (entity : loc) : P unit :=
  let+ e := act (load entity) in
  let+ m := act get_mp in
  let+ _ := act (set_mp (<[key e := entity]> m)) in
  let+ _ := setHead_p entity in
  let+ m := act get_mp in
  let+ lim := act get_limit in
  if (Z.of_nat (size m) >? lim)%Z then
    let+ t := act get_tail in
    match t with
    | Some l => evictEntity_p l
    | None => act panic
    end
  else pret tt.

(** The code of each method between its lock and its unlock. *)
Definition Put_body (k : K) (v : V) : P unit :=
  let+ m := act get_mp in
  match m !! k with
  | None =>
      let+ entity := act (alloc (mkEntity k v None None)) in
      putEntity_p entity
  | Some entity =>
      let+ _ := set_value_p entity v in
      moveToHead_p entity
  end.

Definition PutIfAbsent_body (k : K) (v : V) : P (loc * bool) :=
  let+ m := act get_mp in
  match m !! k with
  | None =>
      let+ entity := act (alloc (mkEntity k v None None)) in
      let+ _ := putEntity_p entity in
      pret (entity, false)
  | Some entity => pret (entity, true)
  end.

Definition Get_body (k : K) : P (bool * V) :=
  let+ m := act get_mp in
  match m !! k with
  | Some entity =>
      let+ e := act (load entity) in
      let+ _ := moveToHead_p entity in
      pret (true, value e)
  | None => pret (false, zero)
  end.

Definition Evict_body (k : K) : P (bool * V) :=
  let+ m := act get_mp in
  match m !! k with
  | Some entity =>
      let+ e := act (load entity) in
      let+ _ := evictEntity_p entity in
      pret (true, value e)
  | None => pret (false, zero)
  end.

Definition Clear_body : P unit :=
  let+ _ := act (set_mp ∅) in clear_p.

Definition Size_body : P Z :=
  let+ m := act get_mp in pret (Z.of_nat (size m)).

Fixpoint copy_loop_p (kes : list (K * loc)) (result : gmap K V) : P (gmap K V) :=
  match kes with
  | [] => pret result
  | (k, e) :: r => let+ ent := act (load e) in copy_loop_p r (<[k := value ent]> result)
  end.

Definition Copy_body : P (gmap K V) :=
  let+ m := act get_mp in copy_loop_p (map_to_list m) ∅.

Definition String_body : P (Z * Z) :=
  let+ lmt := act get_limit in
  let+ m := act get_mp in
  pret (lmt, Z.of_nat (size m)).

(** The methods with their operations on [mu].  [PutIfAbsent] reads
    [entity.value] after [lru.mu.Unlock()]; [Size] releases the read
    lock by [defer] after computing [len(lru.mp)]. *)
Definition Put_p (k : K) (v : V) : P unit :=
  let+ _ := plock in
  let+ _ := Put_body k v in
  punlock.

Definition PutIfAbsent_p (k : K) (v : V) : P (bool * V) :=
  let+ _ := plock in
  let+ r := PutIfAbsent_body k v in
  let+ _ := punlock in
  let+ e := act (load (fst r)) in
  pret (negb (snd r), value e).

Definition Get_p (k : K) : P (bool * V) :=
  let+ _ := plock in
  let+ r := Get_body k in
  let+ _ := punlock in
  pret r.

Definition Evict_p (k : K) : P (bool * V) :=
  let+ _ := plock in
  let+ r := Evict_body k in
  let+ _ := punlock in
  pret r.

Definition Clear_p : P unit :=
  let+ _ := plock in
  let+ _ := Clear_body in
  punlock.

Definition Size_p : P Z :=
  let+ _ := prlock in
  let+ n := Size_body in
  let+ _ := prunlock in
  pret n.

Definition Copy_p : P (gmap K V) :=
  let+ _ := prlock in
  let+ result := Copy_body in
  let+ _ := prunlock in
  pret result.

Definition String_p : P (Z * Z) :=
  let+ _ := prlock in
  let+ p := String_body in
  let+ _ := prunlock in
  pret p.

(** The critical section of [func (lru *LRU[K, V]) String() string] as
    one step of the sequential embedding. *)
Definition String_fields : M (Z * Z) :=
  let* lmt := get_limit in
  let* m := get_mp in
  ret (lmt, Z.of_nat (size m)).

(** The calls, their goroutines and their sequential meaning. *)
Inductive call : Type :=
| CPut (k : K) (v : V)
| CPutIfAbsent (k : K) (v : V)
| CGet (k : K)
| CEvict (k : K)
| CClear
| CSize
| CCopy
| CString.

Definition call_thread (c : call) : thread :=
  match c with
  | CPut k v => Put_p k v (fun _ => TDone RUnit)
  | CPutIfAbsent k v => PutIfAbsent_p k v (fun r => TDone (RBoolV r))
  | CGet k => Get_p k (fun r => TDone (RBoolV r))
  | CEvict k => Evict_p k (fun r => TDone (RBoolV r))
  | CClear => Clear_p (fun _ => TDone RUnit)
  | CSize => Size_p (fun n => TDone (RInt n))
  | CCopy => Copy_p (fun m => TDone (RMap m))
  | CString => String_p (fun p => TDone (RLimitSize p.1 p.2))
  end.

Definition call_M (c : call) : M res :=
  match c with
  | CPut k v => let* _ := Put k v in ret RUnit
  | CPutIfAbsent k v => let* r := PutIfAbsent k v in ret (RBoolV r)
  | CGet k => let* r := Get zero k in ret (RBoolV r)
  | CEvict k => let* r := Evict zero k in ret (RBoolV r)
  | CClear => let* _ := Clear in ret RUnit
  | CSize => let* n := Size in ret (RInt n)
  | CCopy => let* m := Copy in ret (RMap m)
  | CString => let* p := String_fields in ret (RLimitSize p.1 p.2)
  end.

(** The calls one after another. *)
Fixpoint run_calls (l : list call) : M (list res) :=
  match l with
  | [] => ret []
  | c :: l => let* r := call_M c in let* rs := run_calls l in ret (r :: rs)
  end.

(** The methods that take the read lock. *)
Definition is_reader (c : call) : bool :=
  match c with CSize | CCopy | CString => true | _ => false end.

Definition is_pia (c : call) : bool :=
  match c with CPutIfAbsent _ _ => true | _ => false end.

(** A thread run alone, ignoring [mu]. *)
Fixpoint exec (t : thread) (s : LRU) : option (res * LRU) :=
  match t with
  | TDone r => Some (r, s)
  | TPrim m k => match m s with Some (x, s') => exec (k x) s' | None => None end
  | TLock k | TUnlock k | TRLock k | TRUnlock k => exec k s
  end.

(** [sync.RWMutex]: held for writing or by a number of readers. *)
Record lockst := mkLock { writer : bool; readers : nat }.

Record conf := mkConf { cst : LRU; lk : lockst; ths : list thread }.

(** One step of one goroutine.  [Lock] waits until [mu] is free,
    [RLock] until no writer holds it; an access that panics, like an
    [Unlock] of a [mu] not held, is no step. *)
Definition tnext (s : LRU) (l : lockst) (t : thread) : option (LRU * lockst * thread) :=
  match t with
  | TDone _ => None
  | TPrim m k => match m s with Some (x, s') => Some (s', l, k x) | None => None end
  | TLock k => if negb (writer l) && (readers l =? 0) then Some (s, mkLock true 0, k) else None
  | TUnlock k => if writer l then Some (s, mkLock false (readers l), k) else None
  | TRLock k => if writer l then None else Some (s, mkLock false (S (readers l)), k)
  | TRUnlock k => match readers l with S n => Some (s, mkLock (writer l) n, k) | O => None end
  end.

Inductive step : conf -> conf -> Prop :=
| step_at (C : conf) (i : nat) t s' l' t' :
    ths C !! i = Some t -> tnext (cst C) (lk C) t = Some (s', l', t') ->
    step C (mkConf s' l' (<[i := t']> (ths C))).

(** The goroutines of the calls [cs], started on the cache [s0]. *)
Definition init (s0 : LRU) (cs : list call) : conf :=
  mkConf s0 (mkLock false 0) (map call_thread cs).

(** A run following a schedule: the goroutine that takes each step. *)
Definition step_fn (i : nat) (C : conf) : option conf :=
  match ths C !! i with
  | Some t =>
      match tnext (cst C) (lk C) t with
      | Some (s', l', t') => Some (mkConf s' l' (<[i := t']> (ths C)))
      | None => None
      end
  | None => None
  end.

Fixpoint run_sched (sch : list nat) (C : conf) : option conf :=
  match sch with
  | [] => Some C
  | i :: sch => match step_fn i C with Some C' => run_sched sch C' | None => None end
  end.

(** The accesses of a critical section: [ro] requires them to leave
    the cache as it is; none of them frees an entity. *)
Definition prim_ok (ro : bool) {X} (m : M X) : Prop :=
  forall s x s', m s = Some (x, s') ->
    (ro = true -> s' = s) /\ (forall l, is_Some (mem s !! l) -> is_Some (mem s' !! l)).

(** [seg_t ro E t]: the thread [t] performs accesses satisfying
    [prim_ok ro], and no operation on [mu], until it reaches a
    continuation satisfying [E]. *)
Fixpoint seg_t (ro : bool) (E : thread -> Prop) (t : thread) : Prop :=
  E t \/ match t with
         | TPrim m k => prim_ok ro m /\ forall x, seg_t ro E (k x)
         | _ => False
         end.

(** Where a critical section ends: with [Unlock] and the return, or
    for [PutIfAbsent] with [Unlock] and the read of [entity.value];
    with [RUnlock] and the return for the readers. *)
Definition wend (c : call) (t : thread) : Prop :=
  match c with
  | CPutIfAbsent _ _ =>
      exists l b, t = TUnlock (TPrim (load l) (fun e => TDone (RBoolV (b, value e))))
  | _ => exists r, t = TUnlock (TDone r)
  end.

Definition rend (t : thread) : Prop := exists r, t = TRUnlock (TDone r).

Definition is_done (t : thread) : bool :=
  match t with TDone _ => true | _ => false end.
End LRUConc.


(** * Proofs *)

(** ** Segments *)

Section LinkLemmas.
Context {N : Type} (nprev nnext : N -> option loc).
Local Abbreviation seg := (seg nprev nnext).
Local Abbreviation links_agree := (links_agree nprev nnext).

Lemma last_or_cons (x : loc) a p : last_or (x :: a) p = last_or a (Some x).
Proof.
  unfold last_or. destruct a as [|y a]; [reflexivity|].
  change (last (x :: y :: a)) with (last (y :: a)).
  destruct (last (y :: a)) eqn:E; [reflexivity|].
  apply last_None in E. discriminate.
Qed.

Lemma first_or_app a b (n : option loc) :
  first_or (a ++ b) n = first_or a (first_or b n).
Proof. destruct a; reflexivity. Qed.

Lemma seg_app h p a b n :
  seg h p (a ++ b) n <-> seg h p a (first_or b n) /\ seg h (last_or a p) b n.
Proof.
  revert p. induction a as [|x a IH]; intros p; simpl.
  - unfold last_or. simpl. tauto.
  - rewrite last_or_cons, first_or_app. split.
    + intros (e & He & Hp & Hn & Hs). apply IH in Hs as [Hs1 Hs2].
      split; [exists e; auto | exact Hs2].
    + intros [(e & He & Hp & Hn & Hs) Hs2].
      exists e. split; [exact He|]. split; [exact Hp|]. split; [exact Hn|].
      apply IH. auto.
Qed.

Lemma seg_frame h h' p ls n :
  seg h p ls n -> (forall l, l ∈ ls -> links_agree h h' l) -> seg h' p ls n.
Proof.
  revert p. induction ls as [|x r IH]; intros p Hs Ha; simpl in *; [exact I|].
  destruct Hs as (e & He & Hp & Hn & Hs).
  destruct (Ha x ltac:(left)) with (e := e) as (e' & He' & Hp' & Hn'); [exact He|].
  exists e'. split; [exact He'|]. split; [congruence|]. split; [congruence|].
  apply IH; [exact Hs|]. intros l Hl. apply Ha. right. exact Hl.
Qed.

Lemma seg_lookup h p ls n l : seg h p ls n -> l ∈ ls -> is_Some (h !! l).
Proof.
  revert p. induction ls as [|x r IH]; intros p Hs Hl; simpl in *.
  - apply not_elem_of_nil in Hl. contradiction.
  - destruct Hs as (e & He & _ & _ & Hs).
    apply elem_of_cons in Hl as [->|Hl]; [eauto|]. eapply IH; eauto.
Qed.

Lemma walk_seg h p ls f :
  seg h p ls None -> length ls <= f ->
  walk nnext h (first_or ls None) f = Some ls.
Proof.
  revert p f. induction ls as [|x r IH]; intros p f Hs Hf; simpl in *;
    [destruct f; reflexivity|].
  destruct Hs as (e & He & _ & Hn & Hs). destruct f as [|f]; [lia|].
  simpl. rewrite He, Hn. rewrite (IH (Some x) f Hs ltac:(lia)). reflexivity.
Qed.

Lemma length_le_size (h : gmap loc N) (ls : list loc) :
  NoDup ls -> (forall l, l ∈ ls -> is_Some (h !! l)) -> length ls <= size h.
Proof.
  intros Hnd Hin.
  rewrite <- (size_list_to_set (C:=gset loc) ls Hnd), <- (size_dom (D:=gset loc) h).
  apply subseteq_size. intros l Hl.
  apply elem_of_list_to_set in Hl. apply elem_of_dom. auto.
Qed.

Lemma links_agree_insert_ne h l e x :
  x <> l -> links_agree h (<[l := e]> h) x.
Proof.
  intros Hne e0 He0. exists e0. rewrite lookup_insert_ne by congruence. auto.
Qed.

Lemma links_agree_refl h x : links_agree h h x.
Proof. intros e He. eauto. Qed.
End LinkLemmas.

(** ** Primitive operations of the LRU embedding *)

Section LRUProofs.
Context {K : Type} `{Countable K} {V : Type} (zero : V).
Local Abbreviation LRU := (@LRU K _ _ V).
Local Abbreviation M A := (@M K _ _ V A).
Local Abbreviation seg := (seg (@prev K V) (@next K V)).

Arguments bind : simpl never.
Arguments load : simpl never.
Arguments store : simpl never.
Arguments get_prev : simpl never.
Arguments get_next : simpl never.
Arguments set_prev : simpl never.
Arguments set_next : simpl never.
Arguments set_value : simpl never.
Arguments get_mp : simpl never.
Arguments set_mp : simpl never.
Arguments get_head : simpl never.
Arguments set_head : simpl never.
Arguments get_tail : simpl never.
Arguments set_tail : simpl never.
Arguments get_limit : simpl never.
Arguments alloc : simpl never.
Arguments ret : simpl never.

Definition upd_mem (s : LRU) (h : gmap loc (lruEntity (K:=K) (V:=V))) : LRU :=
  mkLRU h (next_loc s) (mp s) (entities_head s) (entities_tail s) (limit s).
Arguments upd_mem : simpl never.

Lemma upd_mem_id (s : LRU) : upd_mem s (mem s) = s.
Proof. destruct s. reflexivity. Qed.

Lemma bind_ok {A B} (m : M A) (f : A -> M B) s a s' :
  m s = Some (a, s') -> bind m f s = f a s'.
Proof. intros E. unfold bind. rewrite E. reflexivity. Qed.

Lemma bind_assoc {A B C} (m : M A) (g : A -> M B) (f : B -> M C) s :
  bind (bind m g) f s = bind m (fun a => bind (g a) f) s.
Proof. unfold bind. destruct (m s) as [[a s']|]; reflexivity. Qed.

Lemma ret_ok {A} (a : A) (s : LRU) : ret a s = Some (a, s).
Proof. reflexivity. Qed.

Lemma load_ok (s : LRU) l e : mem s !! l = Some e -> load l s = Some (e, s).
Proof. intros E. unfold load. rewrite E. reflexivity. Qed.

Lemma get_prev_ok (s : LRU) l e :
  mem s !! l = Some e -> get_prev l s = Some (prev e, s).
Proof. intros E. unfold get_prev. rewrite (bind_ok _ _ _ _ _ (load_ok s l e E)). reflexivity. Qed.

Lemma get_next_ok (s : LRU) l e :
  mem s !! l = Some e -> get_next l s = Some (next e, s).
Proof. intros E. unfold get_next. rewrite (bind_ok _ _ _ _ _ (load_ok s l e E)). reflexivity. Qed.

Lemma store_ok (s : LRU) l e e0 :
  mem s !! l = Some e0 -> store l e s = Some (tt, upd_mem s (<[l := e]> (mem s))).
Proof. intros E. unfold store. rewrite E. reflexivity. Qed.

Lemma set_prev_ok (s : LRU) l p e :
  mem s !! l = Some e ->
  set_prev l p s = Some (tt, upd_mem s (<[l := mkEntity (key e) (value e) p (next e)]> (mem s))).
Proof. intros E. unfold set_prev. rewrite (bind_ok _ _ _ _ _ (load_ok s l e E)). exact (store_ok _ _ _ _ E). Qed.

Lemma set_next_ok (s : LRU) l n e :
  mem s !! l = Some e ->
  set_next l n s = Some (tt, upd_mem s (<[l := mkEntity (key e) (value e) (prev e) n]> (mem s))).
Proof. intros E. unfold set_next. rewrite (bind_ok _ _ _ _ _ (load_ok s l e E)). exact (store_ok _ _ _ _ E). Qed.

Lemma set_value_ok (s : LRU) l v e :
  mem s !! l = Some e ->
  set_value l v s = Some (tt, upd_mem s (<[l := mkEntity (key e) v (prev e) (next e)]> (mem s))).
Proof. intros E. unfold set_value. rewrite (bind_ok _ _ _ _ _ (load_ok s l e E)). exact (store_ok _ _ _ _ E). Qed.

Ltac map_simpl :=
  repeat first
    [ rewrite lookup_insert_eq
    | rewrite lookup_insert_ne by congruence
    | progress simpl ].

Lemma seg_insert_notin (h : gmap loc (lruEntity (K:=K) (V:=V))) p ls n l e :
  l ∉ ls -> seg h p ls n -> seg (<[l := e]> h) p ls n.
Proof.
  intros Hl Hs. eapply seg_frame; [exact Hs|].
  intros x Hx. apply links_agree_insert_ne. intros ->. contradiction.
Qed.

Lemma fmap_insert_same {T} (f : lruEntity (K:=K) (V:=V) -> T)
    (h : gmap loc (lruEntity (K:=K) (V:=V))) (l : loc) e e' (x : loc) :
  h !! l = Some e -> f e' = f e -> f <$> <[l := e']> h !! x = f <$> h !! x.
Proof.
  intros He Hf. destruct (decide (x = l)) as [->|Hne].
  - rewrite lookup_insert_eq, He. simpl. congruence.
  - rewrite lookup_insert_ne by congruence. reflexivity.
Qed.

Ltac lookup_ok := unfold upd_mem; map_simpl; first [eassumption | reflexivity].

Ltac prim_ok :=
  lazymatch goal with
  | |- load _ _ = _ => eapply load_ok; lookup_ok
  | |- get_prev _ _ = _ => eapply get_prev_ok; lookup_ok
  | |- get_next _ _ = _ => eapply get_next_ok; lookup_ok
  | |- set_prev _ _ _ = _ => eapply set_prev_ok; lookup_ok
  | |- set_next _ _ _ = _ => eapply set_next_ok; lookup_ok
  | |- set_value _ _ _ = _ => eapply set_value_ok; lookup_ok
  | |- get_head _ = _ => reflexivity
  | |- set_head _ _ = _ => reflexivity
  | |- get_tail _ = _ => reflexivity
  | |- set_tail _ _ = _ => reflexivity
  | |- get_mp _ = _ => reflexivity
  | |- set_mp _ _ = _ => reflexivity
  | |- get_limit _ = _ => reflexivity
  | |- alloc _ _ = _ => reflexivity
  | |- ret _ _ = _ => reflexivity
  end.

(** One step of symbolic execution. *)
Ltac step :=
  repeat rewrite bind_assoc; cbv beta;
  lazymatch goal with
  | |- bind ?m ?f ?s = _ =>
      erewrite (bind_ok m f s) by prim_ok; cbv beta
  | |- _ => etransitivity; [prim_ok|]
  end; simpl.

Ltac data_tac :=
  let x := fresh "x" in
  intros x; unfold upd_mem; simpl;
  repeat (erewrite fmap_insert_same; [ | lookup_ok | simpl; congruence ]);
  first [reflexivity | auto].

Lemma removeYourself_spec (s : LRU) a l b :
  NoDup (a ++ l :: b) -> seg (mem s) None (a ++ l :: b) None ->
  exists h', removeYourself l s = Some (tt, upd_mem s h') /\
    seg h' None (a ++ b) None /\ h' !! l = mem s !! l /\
    (forall x, x ∉ a ++ b -> h' !! x = mem s !! x) /\
    (forall x, key <$> h' !! x = key <$> mem s !! x) /\
    (forall x, value <$> h' !! x = value <$> mem s !! x).
Proof.
  intros Hnd Hs. apply seg_app in Hs as [Ha Hlb].
  destruct Hlb as (e & He & Hp & Hn & Hb).
  apply NoDup_app in Hnd as (Hnda & Hdisj & Hndb).
  apply NoDup_cons in Hndb as [Hlb Hndb].
  assert (Hla : l ∉ a) by (intros Hl; exact (Hdisj l Hl ltac:(left))).
  destruct (last a) as [q|] eqn:Hlast.
  - (* [l] has a predecessor [q] *)
    destruct (exists_last (l := a)) as [a' [q' ->]];
      [intros ->; discriminate|].
    rewrite last_snoc in Hlast. injection Hlast as ->.
    apply seg_app in Ha as [Ha' Hq]. simpl in Hq.
    destruct Hq as (eq & Heq & Hqp & Hqn & _).
    unfold last_or in Hp. rewrite last_snoc in Hp. simpl in Hp.
    assert (q <> l) by (intros ->; apply Hla, elem_of_app; right; left).
    assert (Hqa' : q ∉ a') by (apply NoDup_app in Hnda as (_ & Hd & _);
      intros Hq; exact (Hd q Hq ltac:(left))).
    assert (Hqb : q ∉ b) by (intros Hq; apply (Hdisj q); [set_solver | right; exact Hq]).
    destruct b as [|m b'].
    + (* [l] is the last entity *)
      eexists. split.
      { unfold removeYourself. step. rewrite Hp. repeat step. rewrite Hn. simpl.
        reflexivity. }
      split; [|split; [|split; [|split]]].
      * unfold upd_mem; simpl. rewrite !app_nil_r. apply seg_app. split.
        { apply seg_insert_notin; [assumption|]. exact Ha'. }
        simpl. eexists. split; [map_simpl; reflexivity|]. simpl. auto.
      * unfold upd_mem; simpl. map_simpl. reflexivity.
      * intros x Hx. unfold upd_mem; simpl.
        rewrite !lookup_insert_ne by (intros ->; apply Hx; set_solver). reflexivity.
      * data_tac.
      * data_tac.
    + simpl in Hb. destruct Hb as (em & Hem & Hmp & Hmn & Hb').
      assert (m <> l) by (intros ->; apply Hlb; left).
      assert (m <> q) by (intros ->; apply Hqb; left).
      eexists. split.
      { unfold removeYourself. step. rewrite Hp. repeat step. rewrite Hn. simpl.
        repeat step. rewrite Hp. repeat step. reflexivity. }
      split; [|split; [|split; [|split]]].
      * unfold upd_mem; simpl.
        assert (m ∉ a') by (intros Hm; apply (Hdisj m); [set_solver | right; left]).
        rewrite <- app_assoc. simpl. apply seg_app. split.
        { do 2 (apply seg_insert_notin; [assumption|]). exact Ha'. }
        simpl. eexists. split; [map_simpl; reflexivity|]. simpl.
        split; [exact Hqp|]. split; [reflexivity|].
        eexists. split; [map_simpl; reflexivity|]. simpl.
        split; [reflexivity|]. split; [exact Hmn|].
        assert (m ∉ b') by (apply NoDup_cons in Hndb; tauto).
        do 2 (apply seg_insert_notin; [set_solver|]). exact Hb'.
      * unfold upd_mem; simpl. map_simpl. reflexivity.
      * intros x Hx. unfold upd_mem; simpl.
        rewrite !lookup_insert_ne by (intros ->; apply Hx; set_solver). reflexivity.
      * data_tac.
      * data_tac.
  - (* [l] is the first entity *)
    apply last_None in Hlast as ->. simpl in *. unfold last_or in Hp. simpl in Hp.
    destruct b as [|m b'].
    + exists (mem s). split.
      { unfold removeYourself. step. rewrite Hp. repeat step. rewrite Hn.
        rewrite upd_mem_id. apply ret_ok. }
      split; [exact I|]. split; [reflexivity|]. split; [reflexivity|].
      split; reflexivity.
    + simpl in Hb. destruct Hb as (em & Hem & Hmp & Hmn & Hb').
      assert (m <> l) by (intros ->; apply Hlb; left).
      assert (m ∉ b') by (apply NoDup_cons in Hndb; tauto).
      eexists. split.
      { unfold removeYourself. step. rewrite Hp. repeat step. rewrite Hn. simpl.
        repeat step. rewrite Hp. repeat step. reflexivity. }
      split; [|split; [|split; [|split]]].
      * unfold upd_mem; simpl. eexists. split; [map_simpl; reflexivity|]. simpl.
        split; [reflexivity|]. split; [exact Hmn|].
        apply seg_insert_notin; [assumption|]. exact Hb'.
      * unfold upd_mem; simpl. map_simpl. reflexivity.
      * intros x Hx. unfold upd_mem; simpl.
        rewrite !lookup_insert_ne by (intros ->; apply Hx; set_solver). reflexivity.
      * data_tac.
      * data_tac.
Qed.
Ltac ustep := step; try unfold upd_mem; simpl.

Lemma first_or_None (b : list loc) : first_or b None = head b.
Proof. destruct b; reflexivity. Qed.

Lemma last_or_None (a : list loc) : last_or a None = last a.
Proof. unfold last_or. destruct (last a); reflexivity. Qed.

Lemma removeEntity_spec (s : LRU) a l b :
  NoDup (a ++ l :: b) -> seg (mem s) None (a ++ l :: b) None ->
  entities_head s = head (a ++ l :: b) -> entities_tail s = last (a ++ l :: b) ->
  exists h', removeEntity l s =
    Some (tt, mkLRU h' (next_loc s) (mp s) (head (a ++ b)) (last (a ++ b)) (limit s)) /\
    seg h' None (a ++ b) None /\ h' !! l = mem s !! l /\
    (forall x, x ∉ a ++ b -> h' !! x = mem s !! x) /\
    (forall x, key <$> h' !! x = key <$> mem s !! x) /\
    (forall x, value <$> h' !! x = value <$> mem s !! x).
Proof.
  intros Hnd Hs Hh Ht.
  destruct (removeYourself_spec s a l b Hnd Hs) as (h' & Hrm & Hseg & Hl & Hrest).
  pose proof Hs as Hs'. apply seg_app in Hs' as [_ (e & He & Hp & Hn & _)].
  rewrite last_or_None in Hp. rewrite first_or_None in Hn.
  assert (Hl' : h' !! l = Some e) by congruence.
  pose proof Hnd as Hnd'. apply NoDup_app in Hnd' as (_ & Hdisj & Hndb).
  apply NoDup_cons in Hndb as [Hlb _].
  assert (Hla : l ∉ a) by (intros Hx; exact (Hdisj l Hx ltac:(left))).
  exists h'. split; [|tauto].
  unfold removeEntity. rewrite (bind_ok _ _ _ _ _ Hrm). repeat ustep. rewrite Hh.
  assert (Hhead : head (a ++ l :: b) = Some l -> a = []).
  { destruct a as [|x a']; [reflexivity|]. simpl. intros [= ->].
    exfalso. apply Hla. left. }
  assert (Hlast : b <> [] -> last (a ++ l :: b) <> Some l).
  { intros Hb. destruct b as [|y b']; [contradiction|].
    rewrite last_app_cons, last_cons_cons.
    destruct (last_is_Some (y :: b')) as [_ Hs1].
    destruct Hs1 as [z Hz]; [discriminate|]. rewrite Hz. intros [= ->].
    apply Hlb. eapply last_Some_elem_of. exact Hz. }
  destruct (decide (head (a ++ l :: b) = Some l)) as [Heq|Hne].
  - pose proof (Hhead Heq) as ->. simpl. repeat ustep. rewrite Hn.
    repeat ustep. rewrite Ht.
    destruct b as [|y b'].
    + rewrite decide_True by reflexivity. repeat ustep. rewrite Hp. reflexivity.
    + rewrite decide_False by (apply (Hlast ltac:(discriminate))).
      repeat ustep. reflexivity.
  - repeat ustep. rewrite Ht.
    assert (Hhd : head (a ++ b) = head (a ++ l :: b)).
    { destruct a; [exfalso; apply Hne; reflexivity | reflexivity]. }
    rewrite Hhd.
    destruct b as [|y b'].
    + rewrite last_snoc. rewrite decide_True by reflexivity. repeat ustep.
      rewrite Hp, app_nil_r. reflexivity.
    + rewrite decide_False by (apply (Hlast ltac:(discriminate))).
      repeat ustep. rewrite !last_app_cons, last_cons_cons. reflexivity.
Qed.
Lemma setHead_spec (s : LRU) ls l e :
  NoDup ls -> seg (mem s) None ls None -> l ∉ ls -> mem s !! l = Some e ->
  (ls = [] -> next e = None) ->
  entities_head s = head ls -> entities_tail s = last ls ->
  exists h', setHead l s =
    Some (tt, mkLRU h' (next_loc s) (mp s) (Some l) (last (l :: ls)) (limit s)) /\
    seg h' None (l :: ls) None /\
    (forall x, x ∉ l :: ls -> h' !! x = mem s !! x) /\
    (forall x, key <$> h' !! x = key <$> mem s !! x) /\
    (forall x, value <$> h' !! x = value <$> mem s !! x).
Proof.
  intros Hnd Hs Hl He Hemp Hh Ht.
  destruct ls as [|hd r].
  - specialize (Hemp eq_refl).
    eexists. split.
    { unfold setHead. repeat ustep. rewrite Hh. repeat ustep. reflexivity. }
    split; [|split; [|split]].
    + simpl. eexists. split; [map_simpl; reflexivity|]. simpl. auto.
    + intros x Hx. simpl. rewrite lookup_insert_ne by set_solver. reflexivity.
    + data_tac.
    + data_tac.
  - pose proof Hs as (eh & Heh & Hhp & Hhn & Hr). simpl in Hhp.
    assert (hd <> l) by (intros ->; apply Hl; left).
    assert (l ∉ r) by set_solver.
    assert (hd ∉ r) by (apply NoDup_cons in Hnd; tauto).
    eexists. split.
    { unfold setHead. repeat ustep. rewrite Hh. simpl. unfold insertBefore.
      repeat ustep. rewrite Hhp. repeat ustep. rewrite Ht. reflexivity. }
    split; [|split; [|split]].
    + simpl. eexists. split; [map_simpl; reflexivity|]. simpl.
      split; [reflexivity|]. split; [reflexivity|].
      eexists. split; [map_simpl; reflexivity|]. simpl.
      split; [reflexivity|]. split; [exact Hhn|].
      repeat (apply seg_insert_notin; [assumption|]). exact Hr.
    + intros x Hx. simpl. rewrite !lookup_insert_ne by set_solver. reflexivity.
    + data_tac.
    + data_tac.
Qed.
Lemma moveToHead_spec (s : LRU) a l b :
  NoDup (a ++ l :: b) -> seg (mem s) None (a ++ l :: b) None ->
  entities_head s = head (a ++ l :: b) -> entities_tail s = last (a ++ l :: b) ->
  exists h', moveToHead l s =
    Some (tt, mkLRU h' (next_loc s) (mp s) (Some l) (last (l :: a ++ b)) (limit s)) /\
    seg h' None (l :: a ++ b) None /\
    (forall x, x ∉ a ++ l :: b -> h' !! x = mem s !! x) /\
    (forall x, key <$> h' !! x = key <$> mem s !! x) /\
    (forall x, value <$> h' !! x = value <$> mem s !! x).
Proof.
  intros Hnd Hs Hh Ht.
  pose proof Hnd as Hnd'. apply NoDup_app in Hnd' as (Hnda & Hdisj & Hndb).
  apply NoDup_cons in Hndb as [Hlb Hndb].
  assert (Hla : l ∉ a) by (intros Hx; exact (Hdisj l Hx ltac:(left))).
  destruct (decide (head (a ++ l :: b) = Some l)) as [Heq|Hne].
  - assert (a = []) as ->.
    { destruct a as [|x a']; [reflexivity|]. simpl in Heq. injection Heq as ->.
      exfalso. apply Hla. left. }
    simpl in *. exists (mem s). split.
    { unfold moveToHead. repeat ustep. rewrite Hh, decide_True by reflexivity.
      destruct s as [m0 n0 mp0 hd0 tl0 lim0]; simpl in *. subst. reflexivity. }
    split; [exact Hs|]. auto.
  - destruct (removeEntity_spec s a l b Hnd Hs Hh Ht)
      as (h1 & Hrm & Hseg1 & Hl1 & Hx1 & Hk1 & Hv1).
    pose proof Hs as Hs'. apply seg_app in Hs' as [_ (e & He & _ & _ & _)].
    assert (Hane : a <> []) by (intros ->; apply Hne; reflexivity).
    destruct (setHead_spec (mkLRU h1 (next_loc s) (mp s) (head (a ++ b)) (last (a ++ b)) (limit s))
                (a ++ b) l e) as (h2 & Hset & Hseg2 & Hx2 & Hk2 & Hv2).
    + apply NoDup_app. split; [exact Hnda|]. split; [|exact Hndb].
      intros x Hx Hxb. apply (Hdisj x Hx). right. exact Hxb.
    + exact Hseg1.
    + rewrite elem_of_app. tauto.
    + simpl. congruence.
    + intros Hab. apply app_eq_nil in Hab as [-> _]. contradiction.
    + reflexivity.
    + reflexivity.
    + exists h2. split.
      { unfold moveToHead. repeat ustep. rewrite Hh, decide_False by exact Hne.
        rewrite (bind_ok _ _ _ _ _ Hrm). exact Hset. }
      split; [exact Hseg2|]. simpl in *. split; [|split].
      * intros x Hx. rewrite Hx2 by set_solver. apply Hx1. set_solver.
      * intros x. rewrite Hk2. apply Hk1.
      * intros x. rewrite Hv2. apply Hv1.
Qed.
Lemma is_Some_key (h h' : gmap loc (lruEntity (K:=K) (V:=V))) x :
  key <$> h' !! x = key <$> h !! x -> is_Some (h' !! x) <-> is_Some (h !! x).
Proof.
  intros E. destruct (h' !! x), (h !! x); simpl in *; split; intros;
    try discriminate; eauto.
Qed.

Lemma Inv_lookup (s : LRU) ls l : Inv s ls -> l ∈ ls -> is_Some (mem s !! l).
Proof. intros HI Hl. eapply seg_lookup; [apply (inv_seg _ _ HI)|exact Hl]. Qed.

Lemma evictEntity_spec (s : LRU) a t b kt :
  Inv s (a ++ t :: b) -> key <$> mem s !! t = Some kt ->
  exists s', evictEntity t s = Some (tt, s') /\ Inv s' (a ++ b) /\
    mp s' = delete kt (mp s) /\ limit s' = limit s /\ next_loc s' = next_loc s /\
    (forall x, key <$> mem s' !! x = key <$> mem s !! x) /\
    (forall x, value <$> mem s' !! x = value <$> mem s !! x) /\
    (forall x, x ∉ a ++ t :: b -> mem s' !! x = mem s !! x).
Proof.
  intros HI Hkt.
  pose proof (inv_nodup _ _ HI) as Hnd.
  pose proof Hnd as Hnd'. apply NoDup_app in Hnd' as (Hnda & Hdisj & Hndb).
  apply NoDup_cons in Hndb as [Htb Hndb].
  assert (Hta : t ∉ a) by (intros Hx; exact (Hdisj t Hx ltac:(left))).
  destruct (removeEntity_spec s a t b Hnd (inv_seg _ _ HI) (inv_head _ _ HI) (inv_tail _ _ HI))
    as (h1 & Hrm & Hseg1 & Ht1 & Hx1 & Hk1 & Hv1).
  destruct (mem s !! t) as [et|] eqn:Het; [|discriminate]. injection Hkt as Hkt.
  eexists. split.
  { unfold evictEntity. rewrite (bind_ok _ _ _ _ _ Hrm). repeat ustep.
    rewrite Hkt. reflexivity. }
  simpl.
  match goal with |- Inv (mkLRU ?h _ _ _ _ _) _ /\ _ => set (h2 := h) end.
  assert (Htab : t ∉ a ++ b) by set_solver.
  assert (Ht1' : h1 !! t = Some et) by congruence.
  assert (Hk2 : forall x, key <$> h2 !! x = key <$> mem s !! x) by (subst h2; data_tac).
  assert (Hv2 : forall x, value <$> h2 !! x = value <$> mem s !! x) by (subst h2; data_tac).
  assert (Hmpt : mp s !! kt = Some t).
  { apply (inv_mp _ _ HI). split; [set_solver|]. rewrite Het. simpl. congruence. }
  split; [|split; [reflexivity|split; [reflexivity|split; [reflexivity|split; [exact Hk2|split; [exact Hv2|]]]]]].
  - split; simpl.
    + apply NoDup_app. split; [exact Hnda|]. split; [|exact Hndb].
      intros x Hx Hxb. apply (Hdisj x Hx). right. exact Hxb.
    + subst h2. do 2 (apply seg_insert_notin; [exact Htab|]). exact Hseg1.
    + reflexivity.
    + reflexivity.
    + intros k l. rewrite Hk2. destruct (decide (k = kt)) as [->|Hne].
      * rewrite lookup_delete_eq. split; [discriminate|].
        intros [Hl Hkl]. assert (mp s !! kt = Some l) as Hl'.
        { apply (inv_mp _ _ HI). split; [set_solver|exact Hkl]. }
        rewrite Hmpt in Hl'. injection Hl' as <-. contradiction.
      * rewrite lookup_delete_ne by congruence. rewrite (inv_mp _ _ HI).
        split; intros [Hl Hkl]; split; try exact Hkl.
        -- destruct (decide (l = t)) as [->|Hlt]; [|set_solver].
           exfalso. rewrite Het in Hkl. simpl in Hkl. congruence.
        -- set_solver.
    + rewrite map_size_delete_Some by eauto. rewrite (inv_size _ _ HI).
      rewrite !length_app. simpl. lia.
    + intros l Hl. apply (inv_fresh _ _ HI). apply (is_Some_key _ _ l (Hk2 l)). exact Hl.
  - intros x Hx. subst h2. rewrite !lookup_insert_ne by set_solver. apply Hx1. set_solver.
Qed.
Lemma Inv_fresh_notin (s : LRU) ls : Inv s ls -> next_loc s ∉ ls.
Proof.
  intros HI Hin. pose proof (inv_fresh _ _ HI _ (Inv_lookup _ _ _ HI Hin)). lia.
Qed.

(** The state after [alloc], [lru.mp[entity.key] = entity] and
    [lru.entities.setHead(entity)] satisfies the invariant. *)
Lemma insert_head_inv (s : LRU) ls k v h3 :
  Inv s ls -> mp s !! k = None ->
  seg h3 None (next_loc s :: ls) None ->
  (forall x, key <$> h3 !! x = key <$> <[next_loc s := mkEntity k v None None]> (mem s) !! x) ->
  Inv (mkLRU h3 (S (next_loc s)) (<[k := next_loc s]> (mp s)) (Some (next_loc s))
         (last (next_loc s :: ls)) (limit s)) (next_loc s :: ls).
Proof.
  intros HI Hk Hseg Hk3.
  pose proof (Inv_fresh_notin s ls HI) as Hl.
  split; simpl.
  - apply NoDup_cons. split; [exact Hl | apply (inv_nodup _ _ HI)].
  - exact Hseg.
  - reflexivity.
  - reflexivity.
  - intros k' l'. rewrite Hk3. destruct (decide (k' = k)) as [->|Hne].
    + rewrite lookup_insert_eq. split.
      * intros [= <-]. split; [left|]. rewrite lookup_insert_eq. reflexivity.
      * intros [Hin Hkey]. apply elem_of_cons in Hin as [->|Hin]; [reflexivity|].
        rewrite lookup_insert_ne in Hkey by (intros E; apply Hl; rewrite E; exact Hin).
        assert (mp s !! k = Some l') by (apply (inv_mp _ _ HI); auto). congruence.
    + rewrite lookup_insert_ne by congruence. rewrite (inv_mp _ _ HI). split.
      * intros [Hin Hkey]. split; [right; exact Hin|].
        rewrite lookup_insert_ne by (intros E; apply Hl; rewrite E; exact Hin). exact Hkey.
      * intros [Hin Hkey]. apply elem_of_cons in Hin as [->|Hin].
        -- rewrite lookup_insert_eq in Hkey. simpl in Hkey. congruence.
        -- rewrite lookup_insert_ne in Hkey by (intros E; apply Hl; rewrite E; exact Hin). auto.
  - rewrite map_size_insert_None by exact Hk. rewrite (inv_size _ _ HI). reflexivity.
  - intros x Hx. apply (is_Some_key _ _ x (Hk3 x)) in Hx.
    destruct (decide (x = next_loc s)) as [->|Hne]; [lia|].
    rewrite lookup_insert_ne in Hx by congruence.
    pose proof (inv_fresh _ _ HI x Hx). lia.
Qed.
(** [putEntity] of a freshly allocated entity, run from [Put] and
    [PutIfAbsent]. *)
Lemma alloc_putEntity_spec (s : LRU) ls k v :
  Inv s ls -> mp s !! k = None ->
  exists s', bind (alloc (mkEntity k v None None)) putEntity s = Some (tt, s') /\
    limit s' = limit s /\
    mem s' !! next_loc s <> None /\
    key <$> mem s' !! next_loc s = Some k /\ value <$> mem s' !! next_loc s = Some v /\
    (forall x, x <> next_loc s -> key <$> mem s' !! x = key <$> mem s !! x) /\
    (forall x, x <> next_loc s -> value <$> mem s' !! x = value <$> mem s !! x) /\
    ( ((Z.of_nat (S (length ls)) <= limit s)%Z /\ Inv s' (next_loc s :: ls) /\
         mp s' = <[k := next_loc s]> (mp s))
    \/ ((limit s < Z.of_nat (S (length ls)))%Z /\
         exists a t kt, next_loc s :: ls = a ++ [t] /\ key <$> mem s' !! t = Some kt /\
           Inv s' a /\ mp s' = delete kt (<[k := next_loc s]> (mp s))) ).
Proof.
  intros HI Hk.
  set (E := mkEntity k v None None).
  set (s2 := mkLRU (<[next_loc s := E]> (mem s)) (S (next_loc s))
               (<[k := next_loc s]> (mp s)) (entities_head s) (entities_tail s) (limit s)).
  pose proof (Inv_fresh_notin s ls HI) as Hl.
  destruct (setHead_spec s2 ls (next_loc s) E) as (h3 & Hset & Hseg3 & Hx3 & Hk3 & Hv3).
  - apply (inv_nodup _ _ HI).
  - simpl. apply seg_insert_notin; [exact Hl|]. apply (inv_seg _ _ HI).
  - exact Hl.
  - simpl. apply lookup_insert_eq.
  - reflexivity.
  - apply (inv_head _ _ HI).
  - apply (inv_tail _ _ HI).
  - simpl in Hk3, Hv3, Hx3.
    pose proof (insert_head_inv s ls k v h3 HI Hk Hseg3 Hk3) as HI3.
    set (s3 := mkLRU h3 (S (next_loc s)) (<[k := next_loc s]> (mp s)) (Some (next_loc s))
                 (last (next_loc s :: ls)) (limit s)) in *.
    assert (Hkl : key <$> h3 !! next_loc s = Some k) by (rewrite Hk3, lookup_insert_eq; reflexivity).
    assert (Hvl : value <$> h3 !! next_loc s = Some v) by (rewrite Hv3, lookup_insert_eq; reflexivity).
    assert (Hko : forall x, x <> next_loc s -> key <$> h3 !! x = key <$> mem s !! x).
    { intros x Hne. rewrite Hk3, lookup_insert_ne by congruence. reflexivity. }
    assert (Hvo : forall x, x <> next_loc s -> value <$> h3 !! x = value <$> mem s !! x).
    { intros x Hne. rewrite Hv3, lookup_insert_ne by congruence. reflexivity. }
    assert (Hpre : bind (alloc E) putEntity s =
                   if (Z.of_nat (S (length ls)) >? limit s)%Z then
                     match last (next_loc s :: ls) with
                     | Some l => evictEntity l s3
                     | None => None
                     end
                   else Some (tt, s3)).
    { unfold putEntity. repeat ustep. rewrite (bind_ok _ _ _ _ _ Hset).
      unfold s3. repeat ustep.
      rewrite map_size_insert_None by exact Hk. rewrite (inv_size _ _ HI).
      destruct (_ >? _)%Z; [|reflexivity].
      repeat ustep. destruct (last _); reflexivity. }
    destruct (Z.gtb_spec (Z.of_nat (S (length ls))) (limit s)) as [Hgt|Hle].
    + destruct (exists_last (l := next_loc s :: ls)) as [a [t Hat]]; [discriminate|].
      rewrite Hat in HI3, Hpre. rewrite last_snoc in Hpre.
      assert (Hkt : is_Some (key <$> h3 !! t)).
      { apply fmap_is_Some. eapply (Inv_lookup s3 _ t HI3). set_solver. }
      destruct Hkt as [kt Hkt].
      destruct (evictEntity_spec s3 a t [] kt HI3 Hkt)
        as (s4 & Hev & HI4 & Hmp4 & Hlim4 & Hnl4 & Hk4 & Hv4 & _).
      exists s4. split; [rewrite Hpre; exact Hev|].
      rewrite app_nil_r in HI4. simpl in *.
      split; [exact Hlim4|].
      split; [intros Hn; pose proof (Hk4 (next_loc s)) as E4; rewrite Hn, Hkl in E4; discriminate|].
      split; [rewrite Hk4; exact Hkl|]. split; [rewrite Hv4; exact Hvl|].
      split; [intros x Hx; rewrite Hk4; auto|]. split; [intros x Hx; rewrite Hv4; auto|].
      right. split; [lia|]. exists a, t, kt. rewrite Hk4. auto.
    + exists s3. split; [rewrite Hpre; reflexivity|]. simpl. split; [reflexivity|].
      split; [intros Hn; rewrite Hn in Hkl; discriminate|].
      split; [exact Hkl|]. split; [exact Hvl|]. split; [exact Hko|]. split; [exact Hvo|].
      left. split; [lia|]. auto.
Qed.
(** ** Invariant preservation for heap updates and [moveToHead] *)

Lemma Inv_upd_mem (s : LRU) ls h' :
  Inv s ls -> seg h' None ls None ->
  (forall x, key <$> h' !! x = key <$> mem s !! x) -> Inv (upd_mem s h') ls.
Proof.
  intros HI Hseg Hk. unfold upd_mem. constructor; simpl.
  - apply (inv_nodup _ _ HI).
  - exact Hseg.
  - apply (inv_head _ _ HI).
  - apply (inv_tail _ _ HI).
  - intros k l. rewrite Hk. apply (inv_mp _ _ HI).
  - apply (inv_size _ _ HI).
  - intros l Hl. apply (inv_fresh _ _ HI). apply (is_Some_key _ _ _ (Hk l)). exact Hl.
Qed.

Lemma moveToHead_inv (s : LRU) a l b :
  Inv s (a ++ l :: b) ->
  exists s', moveToHead l s = Some (tt, s') /\ Inv s' (l :: a ++ b) /\
    mp s' = mp s /\ limit s' = limit s /\ next_loc s' = next_loc s /\
    (forall x, key <$> mem s' !! x = key <$> mem s !! x) /\
    (forall x, value <$> mem s' !! x = value <$> mem s !! x).
Proof.
  intros HI.
  destruct (moveToHead_spec s a l b (inv_nodup _ _ HI) (inv_seg _ _ HI)
              (inv_head _ _ HI) (inv_tail _ _ HI)) as (h' & Hrun & Hseg & _ & Hk & Hv).
  eexists. split; [exact Hrun|]. simpl.
  assert (Hperm : forall x, x ∈ l :: a ++ b <-> x ∈ a ++ l :: b).
  { intros x. rewrite elem_of_cons, !elem_of_app, elem_of_cons. tauto. }
  split; [|repeat split; auto].
  constructor; simpl.
  - pose proof (inv_nodup _ _ HI) as Hnd.
    apply NoDup_app in Hnd as (Hna & Hdisj & Hnb). apply NoDup_cons in Hnb as [Hlb Hnb].
    apply NoDup_cons. split.
    + rewrite elem_of_app. intros [Hx|Hx]; [exact (Hdisj l Hx ltac:(left))|exact (Hlb Hx)].
    + apply NoDup_app. split; [exact Hna|]. split; [|exact Hnb].
      intros x Hx1 Hx2. apply (Hdisj x Hx1). right. exact Hx2.
  - exact Hseg.
  - reflexivity.
  - reflexivity.
  - intros k x. rewrite Hk, Hperm. apply (inv_mp _ _ HI).
  - rewrite (inv_size _ _ HI), !length_app. simpl. lia.
  - intros x Hx. apply (inv_fresh _ _ HI). apply (is_Some_key _ _ _ (Hk x)). exact Hx.
Qed.

(** ** The abstract view *)

Lemma view_app (s : LRU) a b : view s (a ++ b) = view s a ++ view s b.
Proof. unfold view. apply omap_app. Qed.

Lemma view_cons (s : LRU) l ls e :
  mem s !! l = Some e -> view s (l :: ls) = (key e, value e) :: view s ls.
Proof. intros E. unfold view. simpl. rewrite E. reflexivity. Qed.

Lemma view_cons_None (s : LRU) l ls :
  mem s !! l = None -> view s (l :: ls) = view s ls.
Proof. intros E. unfold view. simpl. rewrite E. reflexivity. Qed.

Lemma view_ext (s s' : LRU) ls :
  (forall x, x ∈ ls -> key <$> mem s' !! x = key <$> mem s !! x) ->
  (forall x, x ∈ ls -> value <$> mem s' !! x = value <$> mem s !! x) ->
  view s' ls = view s ls.
Proof.
  induction ls as [|l ls IH]; intros Hk Hv; [reflexivity|].
  assert (E : view s' ls = view s ls)
    by (apply IH; intros x Hx; [apply Hk|apply Hv]; right; exact Hx).
  specialize (Hk l ltac:(left)). specialize (Hv l ltac:(left)).
  destruct (mem s' !! l) eqn:E1, (mem s !! l) eqn:E2; simpl in Hk, Hv; try discriminate.
  - rewrite (view_cons _ _ _ _ E1), (view_cons _ _ _ _ E2), E.
    injection Hk as ->. injection Hv as ->. reflexivity.
  - rewrite (view_cons_None _ _ _ E1), (view_cons_None _ _ _ E2). exact E.
Qed.

Lemma view_length (s : LRU) ls :
  (forall x, x ∈ ls -> is_Some (mem s !! x)) -> length (view s ls) = length ls.
Proof.
  induction ls as [|l ls IH]; intros Hs; [reflexivity|].
  destruct (Hs l ltac:(left)) as [e He]. rewrite (view_cons _ _ _ _ He). simpl.
  rewrite IH; [reflexivity|]. intros x Hx. apply Hs. right. exact Hx.
Qed.

Lemma view_nokey (s : LRU) ls k :
  (forall x, x ∈ ls -> key <$> mem s !! x <> Some k) ->
  LRUSpec.lookup_key k (view s ls) = None /\
  LRUSpec.remove_key k (view s ls) = view s ls.
Proof.
  induction ls as [|l ls IH]; intros Hk; [split; reflexivity|].
  destruct IH as [IH1 IH2]; [intros x Hx; apply Hk; right; exact Hx|].
  specialize (Hk l ltac:(left)).
  destruct (mem s !! l) as [e|] eqn:E; simpl in Hk.
  - rewrite (view_cons _ _ _ _ E). unfold LRUSpec.remove_key in *. simpl.
    rewrite filter_cons_True by (simpl; congruence). rewrite IH2.
    destruct (decide (k = key e)) as [->|]; [congruence|]. split; [exact IH1|reflexivity].
  - rewrite (view_cons_None _ _ _ E). split; assumption.
Qed.

Lemma view_absent (s : LRU) ls k :
  Inv s ls -> mp s !! k = None -> LRUSpec.lookup_key k (view s ls) = None.
Proof.
  intros HI Hk. apply view_nokey. intros x Hx Hkx.
  assert (mp s !! k = Some x) by (apply (inv_mp _ _ HI); auto). congruence.
Qed.
Lemma lookup_key_app_None k (A B : list (K * V)) :
  LRUSpec.lookup_key k A = None ->
  LRUSpec.lookup_key k (A ++ B) = LRUSpec.lookup_key k B.
Proof.
  induction A as [|[k' v'] A IH]; intros Hn; [reflexivity|].
  simpl in *. destruct (decide (k = k')); [discriminate|]. auto.
Qed.

Lemma view_present (s : LRU) ls k l :
  Inv s ls -> mp s !! k = Some l ->
  exists a b e, ls = a ++ l :: b /\ mem s !! l = Some e /\ key e = k /\
    view s ls = view s a ++ (k, value e) :: view s b /\
    LRUSpec.lookup_key k (view s ls) = Some (value e) /\
    LRUSpec.remove_key k (view s ls) = view s a ++ view s b.
Proof.
  intros HI Hk.
  pose proof Hk as Hk'. apply (inv_mp _ _ HI) in Hk' as [Hl Hkl].
  apply list_elem_of_split in Hl as (a & b & ->).
  destruct (mem s !! l) as [e|] eqn:He; [|discriminate]. simpl in Hkl. injection Hkl as Hke.
  pose proof (inv_nodup _ _ HI) as Hnd.
  apply NoDup_app in Hnd as (_ & Hdisj & Hnb). apply NoDup_cons in Hnb as [Hlb _].
  assert (Hno : forall c : list loc, (forall x, x ∈ c -> x ∈ a ++ l :: b) -> l ∉ c ->
                forall x, x ∈ c -> key <$> mem s !! x <> Some k).
  { intros c Hc Hlc x Hx Hkx.
    assert (mp s !! k = Some x) by (apply (inv_mp _ _ HI); auto).
    assert (x = l) by congruence. subst. contradiction. }
  destruct (view_nokey s a k) as [Ha1 Ha2].
  { apply Hno; [intros x Hx; rewrite elem_of_app; auto|].
    intros Hla. exact (Hdisj l Hla ltac:(left)). }
  destruct (view_nokey s b k) as [_ Hb2].
  { apply Hno; [intros x Hx; rewrite elem_of_app, elem_of_cons; auto|exact Hlb]. }
  exists a, b, e. rewrite view_app, (view_cons _ _ _ _ He), Hke.
  split; [reflexivity|]. split; [first [exact He|reflexivity]|]. split; [first [exact Hke|reflexivity]|]. split; [reflexivity|].
  split.
  - rewrite lookup_key_app_None by exact Ha1. simpl. rewrite decide_True by reflexivity. reflexivity.
  - unfold LRUSpec.remove_key in *. rewrite filter_app, filter_cons_False by (simpl; auto).
    rewrite Ha2, Hb2. reflexivity.
Qed.

(** ** The public methods *)

Lemma Put_absent_run (s : LRU) k v :
  mp s !! k = None -> Put k v s = bind (alloc (mkEntity k v None None)) putEntity s.
Proof. intros Hk. unfold Put. ustep. rewrite Hk. reflexivity. Qed.

Lemma Put_present_spec (s : LRU) ls k v l :
  Inv s ls -> mp s !! k = Some l ->
  exists a b e s', ls = a ++ l :: b /\ mem s !! l = Some e /\ key e = k /\
    Put k v s = Some (tt, s') /\ Inv s' (l :: a ++ b) /\
    mp s' = mp s /\ limit s' = limit s /\ next_loc s' = next_loc s /\
    key <$> mem s' !! l = Some k /\ value <$> mem s' !! l = Some v /\
    (forall x, x <> l -> key <$> mem s' !! x = key <$> mem s !! x) /\
    (forall x, x <> l -> value <$> mem s' !! x = value <$> mem s !! x) /\
    view s' (l :: a ++ b) = (k, v) :: view s a ++ view s b.
Proof.
  intros HI Hk.
  destruct (view_present s ls k l HI Hk) as (a & b & e & -> & He & Hke & _).
  set (e1 := mkEntity (key e) v (prev e) (next e)).
  set (s1 := upd_mem s (<[l := e1]> (mem s))).
  assert (HI1 : Inv s1 (a ++ l :: b)).
  { apply Inv_upd_mem; [exact HI| |].
    - eapply seg_frame; [apply (inv_seg _ _ HI)|]. intros x _.
      destruct (decide (x = l)) as [->|Hne]; [|apply links_agree_insert_ne; exact Hne].
      intros e0 He0. rewrite He in He0. injection He0 as <-.
      exists e1. rewrite lookup_insert_eq. auto.
    - intros x. apply (fmap_insert_same _ _ l e); [exact He|reflexivity]. }
  destruct (moveToHead_inv s1 a l b HI1) as (s' & Hrun & HI' & Hmp & Hlim & Hnl & Hk' & Hv').
  assert (Hk1 : forall x, x <> l -> key <$> mem s' !! x = key <$> mem s !! x).
  { intros x Hx. rewrite Hk'. unfold s1, upd_mem. simpl. rewrite lookup_insert_ne by congruence. reflexivity. }
  assert (Hv1 : forall x, x <> l -> value <$> mem s' !! x = value <$> mem s !! x).
  { intros x Hx. rewrite Hv'. unfold s1, upd_mem. simpl. rewrite lookup_insert_ne by congruence. reflexivity. }
  assert (Hkl : key <$> mem s' !! l = Some k).
  { rewrite Hk'. unfold s1, upd_mem. simpl. rewrite lookup_insert_eq. simpl. congruence. }
  assert (Hvl : value <$> mem s' !! l = Some v).
  { rewrite Hv'. unfold s1, upd_mem. simpl. rewrite lookup_insert_eq. reflexivity. }
  exists a, b, e, s'. split; [reflexivity|]. split; [exact He|]. split; [exact Hke|].
  split.
  { unfold Put. ustep. rewrite Hk. ustep. exact Hrun. }
  split; [exact HI'|]. split; [exact Hmp|]. split; [exact Hlim|]. split; [exact Hnl|].
  split; [exact Hkl|]. split; [exact Hvl|]. split; [exact Hk1|]. split; [exact Hv1|].
  pose proof (inv_nodup _ _ HI) as Hnd.
  apply NoDup_app in Hnd as (_ & Hdisj & Hnb). apply NoDup_cons in Hnb as [Hlb _].
  destruct (mem s' !! l) as [e'|] eqn:E'; [|discriminate].
  simpl in Hkl, Hvl. injection Hkl as <-. injection Hvl as <-.
  rewrite (view_cons _ _ _ _ E'), !view_app. f_equal.
  f_equal; apply view_ext; intros x Hx; [apply Hk1|apply Hv1| apply Hk1|apply Hv1];
    intros ->; [exact (Hdisj l Hx ltac:(left))|exact (Hdisj l Hx ltac:(left))|exact (Hlb Hx)|exact (Hlb Hx)].
Qed.

Lemma view_new_head (s s' : LRU) ls n k v :
  n ∉ ls ->
  key <$> mem s' !! n = Some k -> value <$> mem s' !! n = Some v ->
  (forall x, x <> n -> key <$> mem s' !! x = key <$> mem s !! x) ->
  (forall x, x <> n -> value <$> mem s' !! x = value <$> mem s !! x) ->
  view s' (n :: ls) = (k, v) :: view s ls.
Proof.
  intros Hn Hk Hv Hko Hvo.
  destruct (mem s' !! n) as [e|] eqn:E; [|discriminate].
  simpl in Hk, Hv. injection Hk as <-. injection Hv as <-.
  rewrite (view_cons _ _ _ _ E). f_equal.
  apply view_ext; intros x Hx; [apply Hko|apply Hvo]; intros ->; contradiction.
Qed.

Lemma view_snoc_removelast (s : LRU) a t kt :
  key <$> mem s !! t = Some kt -> view s a = removelast (view s (a ++ [t])).
Proof.
  intros Ht. destruct (mem s !! t) as [e|] eqn:E; [|discriminate].
  rewrite view_app, (view_cons _ _ _ _ E). unfold view at 3. simpl.
  rewrite removelast_last. reflexivity.
Qed.

Lemma Inv_view_length (s : LRU) ls : Inv s ls -> length (view s ls) = length ls.
Proof. intros HI. apply view_length. intros x Hx. exact (Inv_lookup s ls x HI Hx). Qed.

Lemma Put_absent_spec (s : LRU) ls k v :
  Inv s ls -> mp s !! k = None ->
  exists s', Put k v s = Some (tt, s') /\ limit s' = limit s /\
    (fun e => (key e, value e)) <$> mem s' !! next_loc s = Some (k, v) /\
    ( ((Z.of_nat (S (length ls)) <= limit s)%Z /\ Inv s' (next_loc s :: ls) /\
         mp s' = <[k := next_loc s]> (mp s) /\
         view s' (next_loc s :: ls) = LRUSpec.put (limit s) k v (view s ls))
    \/ ((limit s < Z.of_nat (S (length ls)))%Z /\
         exists t kt, last (next_loc s :: ls) = Some t /\ key <$> mem s' !! t = Some kt /\
           Inv s' (removelast (next_loc s :: ls)) /\
           mp s' = delete kt (<[k := next_loc s]> (mp s)) /\
           view s' (removelast (next_loc s :: ls)) = LRUSpec.put (limit s) k v (view s ls)) ).
Proof.
  intros HI Hk. rewrite (Put_absent_run s k v Hk).
  destruct (alloc_putEntity_spec s ls k v HI Hk)
    as (s' & Hrun & Hlim & _ & Hkl & Hvl & Hko & Hvo & Hcase).
  pose proof (Inv_fresh_notin s ls HI) as Hn.
  pose proof (view_new_head s s' ls (next_loc s) k v Hn Hkl Hvl Hko Hvo) as Hview.
  assert (Hput : LRUSpec.put (limit s) k v (view s ls) =
                 if (Z.of_nat (S (length ls)) >? limit s)%Z
                 then removelast ((k, v) :: view s ls) else (k, v) :: view s ls).
  { unfold LRUSpec.put. rewrite (view_absent s ls k HI Hk), (Inv_view_length s ls HI).
    reflexivity. }
  exists s'. split; [exact Hrun|]. split; [exact Hlim|].
  split.
  { destruct (mem s' !! next_loc s) as [e|]; [|discriminate].
    simpl in *. congruence. }
  destruct Hcase as [(Hle & HI' & Hmp) | (Hgt & a & t & kt & Hat & Hkt & HI' & Hmp)].
  - left. split; [exact Hle|]. split; [exact HI'|]. split; [exact Hmp|].
    rewrite Hput, Hview. destruct (Z.gtb_spec (Z.of_nat (S (length ls))) (limit s)); [lia|].
    reflexivity.
  - right. split; [exact Hgt|]. exists t, kt.
    rewrite Hat, last_snoc, removelast_last. split; [reflexivity|].
    split; [exact Hkt|]. split; [exact HI'|]. split; [exact Hmp|].
    rewrite Hput. destruct (Z.gtb_spec (Z.of_nat (S (length ls))) (limit s)); [|lia].
    rewrite <- Hview, Hat. apply (view_snoc_removelast s' a t kt Hkt).
Qed.

Lemma PutIfAbsent_absent_spec (s : LRU) ls k v :
  Inv s ls -> mp s !! k = None ->
  exists s', Put k v s = Some (tt, s') /\ PutIfAbsent k v s = Some ((true, v), s').
Proof.
  intros HI Hk.
  destruct (alloc_putEntity_spec s ls k v HI Hk)
    as (s' & Hrun & _ & Hnn & _ & Hvl & _).
  exists s'. split; [rewrite (Put_absent_run s k v Hk); exact Hrun|].
  cbv [bind alloc] in Hrun.
  destruct (mem s' !! next_loc s) as [e|] eqn:E; [|congruence]. simpl in Hvl. injection Hvl as Hv.
  unfold PutIfAbsent. ustep. rewrite Hk. ustep.
  rewrite bind_assoc. rewrite (bind_ok _ _ _ _ _ Hrun). ustep. ustep. rewrite Hv. reflexivity.
Qed.

Lemma PutIfAbsent_present_spec (s : LRU) ls k v l :
  Inv s ls -> mp s !! k = Some l ->
  exists e, mem s !! l = Some e /\ PutIfAbsent k v s = Some ((false, value e), s).
Proof.
  intros HI Hk.
  destruct (view_present s ls k l HI Hk) as (a & b & e & _ & He & _).
  exists e. split; [exact He|].
  unfold PutIfAbsent. ustep. rewrite Hk. ustep. ustep. ustep. reflexivity.
Qed.

Lemma moveToHead_head (s : LRU) l :
  entities_head s = Some l -> moveToHead l s = Some (tt, s).
Proof. intros Hh. unfold moveToHead. ustep. rewrite Hh, decide_True by reflexivity. reflexivity. Qed.

Lemma Get_absent_spec (s : LRU) k :
  mp s !! k = None -> Get zero k s = Some ((false, zero), s).
Proof. intros Hk. unfold Get. ustep. rewrite Hk. reflexivity. Qed.

Lemma Get_present_spec (s : LRU) ls k l :
  Inv s ls -> mp s !! k = Some l ->
  exists a b e s', ls = a ++ l :: b /\ mem s !! l = Some e /\ key e = k /\
    Get zero k s = Some ((true, value e), s') /\ Inv s' (l :: a ++ b) /\
    (a = [] -> s' = s) /\
    mp s' = mp s /\ limit s' = limit s /\ next_loc s' = next_loc s /\
    (forall x, key <$> mem s' !! x = key <$> mem s !! x) /\
    (forall x, value <$> mem s' !! x = value <$> mem s !! x) /\
    view s' (l :: a ++ b) = (k, value e) :: view s a ++ view s b.
Proof.
  intros HI Hk.
  destruct (view_present s ls k l HI Hk) as (a & b & e & -> & He & Hke & Hview & _).
  destruct (moveToHead_inv s a l b HI) as (s' & Hrun & HI' & Hmp & Hlim & Hnl & Hk' & Hv').
  exists a, b, e, s'. split; [reflexivity|]. split; [exact He|]. split; [exact Hke|].
  split.
  { unfold Get. ustep. rewrite Hk. ustep. rewrite (bind_ok _ _ _ _ _ Hrun). reflexivity. }
  split; [exact HI'|].
  split.
  { intros ->. pose proof (inv_head _ _ HI) as Hh. simpl in Hh.
    rewrite (moveToHead_head s l Hh) in Hrun. congruence. }
  do 5 (split; [assumption|]).
  assert (Hperm : forall x, x ∈ l :: a ++ b -> x ∈ a ++ l :: b).
  { intros x. rewrite elem_of_cons, !elem_of_app, elem_of_cons. tauto. }
  rewrite (view_ext s s' (l :: a ++ b)) by (intros x _; auto).
  rewrite (view_cons _ _ _ _ He), view_app, Hke. reflexivity.
Qed.

Lemma Evict_absent_spec (s : LRU) k :
  mp s !! k = None -> Evict zero k s = Some ((false, zero), s).
Proof. intros Hk. unfold Evict. ustep. rewrite Hk. reflexivity. Qed.

Lemma Evict_present_spec (s : LRU) ls k l :
  Inv s ls -> mp s !! k = Some l ->
  exists a b e s', ls = a ++ l :: b /\ mem s !! l = Some e /\ key e = k /\
    Evict zero k s = Some ((true, value e), s') /\ Inv s' (a ++ b) /\
    mp s' = delete k (mp s) /\ limit s' = limit s /\ next_loc s' = next_loc s /\
    (forall x, key <$> mem s' !! x = key <$> mem s !! x) /\
    (forall x, value <$> mem s' !! x = value <$> mem s !! x) /\
    view s' (a ++ b) = view s a ++ view s b.
Proof.
  intros HI Hk.
  destruct (view_present s ls k l HI Hk) as (a & b & e & -> & He & Hke & Hview & _).
  assert (Hkl : key <$> mem s !! l = Some k) by (rewrite He; simpl; congruence).
  destruct (evictEntity_spec s a l b k HI Hkl)
    as (s' & Hrun & HI' & Hmp & Hlim & Hnl & Hk' & Hv' & _).
  exists a, b, e, s'. split; [reflexivity|]. split; [exact He|]. split; [exact Hke|].
  split.
  { unfold Evict. ustep. rewrite Hk. ustep. rewrite (bind_ok _ _ _ _ _ Hrun). reflexivity. }
  do 6 (split; [assumption|]).
  rewrite (view_ext s s' (a ++ b)) by (intros x _; auto). apply view_app.
Qed.

Lemma Clear_run (s : LRU) :
  Clear s = Some (tt, mkLRU (mem s) (next_loc s) ∅ None None (limit s)).
Proof. destruct s. reflexivity. Qed.

Lemma Size_run (s : LRU) : Size s = Some (Z.of_nat (size (mp s)), s).
Proof. reflexivity. Qed.

Lemma Clear_inv (s : LRU) ls :
  Inv s ls -> Inv (mkLRU (mem s) (next_loc s) ∅ None None (limit s)) [].
Proof.
  intros HI. constructor; simpl.
  - constructor.
  - exact I.
  - reflexivity.
  - reflexivity.
  - intros k' l. rewrite lookup_empty. split; [discriminate|]. intros [Hl _].
    apply not_elem_of_nil in Hl. contradiction.
  - apply map_size_empty.
  - apply (inv_fresh _ _ HI).
Qed.

Lemma length_removelast_cons {A} (x : A) l : length (removelast (x :: l)) = length l.
Proof.
  destruct (exists_last (l := x :: l)) as [a [t Hat]]; [discriminate|].
  rewrite Hat, removelast_last.
  apply (f_equal length) in Hat. rewrite length_app in Hat. simpl in Hat. lia.
Qed.

Lemma NoDup_split_eq {A} (a b a' b' : list A) x :
  a ++ x :: b = a' ++ x :: b' -> NoDup (a ++ x :: b) -> a = a' /\ b = b'.
Proof.
  revert a'. induction a as [|y a IH]; intros a' E Hnd; destruct a' as [|y' a']; simpl in *.
  - injection E as ->. auto.
  - injection E as -> ->. apply NoDup_cons in Hnd as [Hn _].
    exfalso. apply Hn. rewrite elem_of_app, elem_of_cons. auto.
  - injection E as -> <-. apply NoDup_cons in Hnd as [Hn _].
    exfalso. apply Hn. rewrite elem_of_app, elem_of_cons. auto.
  - injection E as -> E. apply NoDup_cons in Hnd as [_ Hnd].
    destruct (IH a' E Hnd) as [-> ->]. auto.
Qed.

(** ** Refinement of the reference model *)

Lemma Inv_key_present (s : LRU) ls k :
  Inv s ls -> is_Some (mp s !! k) <-> is_Some (LRUSpec.lookup_key k (view s ls)).
Proof.
  intros HI. destruct (mp s !! k) as [l|] eqn:Hk.
  - destruct (view_present s ls k l HI Hk) as (a & b & e & _ & _ & _ & _ & -> & _).
    split; eauto.
  - rewrite (view_absent s ls k HI Hk). split; intros [x Hx]; discriminate.
Qed.

Lemma Put_ref (s : LRU) ls k v :
  Inv s ls ->
  exists s' ls', Put k v s = Some (tt, s') /\ Inv s' ls' /\ limit s' = limit s /\
    (length ls' <= S (length ls))%nat /\
    (Z.of_nat (length ls') <= Z.max (Z.of_nat (length ls)) (limit s))%Z /\
    view s' ls' = LRUSpec.put (limit s) k v (view s ls).
Proof.
  intros HI. destruct (mp s !! k) as [l|] eqn:Hk.
  - destruct (Put_present_spec s ls k v l HI Hk)
      as (a & b & e & s' & -> & He & Hke & Hrun & HI' & _ & Hlim & _ & _ & _ & _ & _ & Hview).
    exists s', (l :: a ++ b). split; [exact Hrun|]. split; [exact HI'|]. split; [exact Hlim|].
    cbn [length]. rewrite !length_app. cbn [length]. split; [lia|]. split; [lia|].
    destruct (view_present s (a ++ l :: b) k l HI Hk)
      as (a' & b' & e' & Hab & He' & _ & _ & Hlk & Hrm).
    rewrite Hview. unfold LRUSpec.put. rewrite Hlk, Hrm.
    destruct (NoDup_split_eq a b a' b' l Hab (inv_nodup _ _ HI)) as [<- <-].
    reflexivity.
  - destruct (Put_absent_spec s ls k v HI Hk)
      as (s' & Hrun & Hlim & _ & [(Hle & HI' & _ & Hview)|(Hgt & t & kt & _ & _ & HI' & _ & Hview)]).
    + exists s', (next_loc s :: ls). cbn [length].
      split; [exact Hrun|]. split; [exact HI'|]. split; [exact Hlim|].
      split; [lia|]. split; [lia|exact Hview].
    + exists s', (removelast (next_loc s :: ls)). rewrite length_removelast_cons.
      split; [exact Hrun|]. split; [exact HI'|]. split; [exact Hlim|].
      split; [lia|]. split; [lia|exact Hview].
Qed.

Lemma view_present_eq (s : LRU) a b k l e :
  Inv s (a ++ l :: b) -> mp s !! k = Some l -> mem s !! l = Some e ->
  LRUSpec.lookup_key k (view s (a ++ l :: b)) = Some (value e) /\
  LRUSpec.remove_key k (view s (a ++ l :: b)) = view s a ++ view s b.
Proof.
  intros HI Hk He.
  destruct (view_present s (a ++ l :: b) k l HI Hk)
    as (a' & b' & e' & Hab & He' & _ & _ & Hlk & Hrm).
  destruct (NoDup_split_eq a b a' b' l Hab (inv_nodup _ _ HI)) as [<- <-].
  rewrite He in He'. injection He' as <-. auto.
Qed.

Lemma Get_ref (s : LRU) ls k :
  Inv s ls ->
  exists s' ls', Get zero k s = Some ((LRUSpec.get zero k (view s ls)).1, s') /\
    Inv s' ls' /\ limit s' = limit s /\ length ls' = length ls /\
    view s' ls' = (LRUSpec.get zero k (view s ls)).2.
Proof.
  intros HI. destruct (mp s !! k) as [l|] eqn:Hk.
  - destruct (Get_present_spec s ls k l HI Hk)
      as (a & b & e & s' & -> & He & Hke & Hrun & HI' & _ & _ & Hlim & _ & _ & _ & Hview).
    destruct (view_present_eq s a b k l e HI Hk He) as [Hlk Hrm].
    exists s', (l :: a ++ b). unfold LRUSpec.get. rewrite Hlk, Hrm.
    split; [exact Hrun|]. split; [exact HI'|]. split; [exact Hlim|].
    split; [|exact Hview]. cbn [length]. rewrite !length_app. cbn [length]. lia.
  - exists s, ls. unfold LRUSpec.get. rewrite (view_absent s ls k HI Hk).
    rewrite (Get_absent_spec s k Hk). auto.
Qed.

Lemma Evict_ref (s : LRU) ls k :
  Inv s ls ->
  exists s' ls', Evict zero k s = Some ((LRUSpec.evict zero k (view s ls)).1, s') /\
    Inv s' ls' /\ limit s' = limit s /\ (length ls' <= length ls)%nat /\
    view s' ls' = (LRUSpec.evict zero k (view s ls)).2.
Proof.
  intros HI. destruct (mp s !! k) as [l|] eqn:Hk.
  - destruct (Evict_present_spec s ls k l HI Hk)
      as (a & b & e & s' & -> & He & Hke & Hrun & HI' & _ & Hlim & _ & _ & _ & Hview).
    destruct (view_present_eq s a b k l e HI Hk He) as [Hlk Hrm].
    exists s', (a ++ b). unfold LRUSpec.evict. rewrite Hlk, Hrm.
    split; [exact Hrun|]. split; [exact HI'|]. split; [exact Hlim|].
    split; [|exact Hview]. rewrite !length_app. cbn [length]. lia.
  - exists s, ls. unfold LRUSpec.evict. rewrite (view_absent s ls k HI Hk).
    rewrite (Evict_absent_spec s k Hk). auto.
Qed.

Lemma PutIfAbsent_ref (s : LRU) ls k v :
  Inv s ls ->
  exists s' ls',
    PutIfAbsent k v s = Some ((LRUSpec.put_if_absent (limit s) k v (view s ls)).1, s') /\
    Inv s' ls' /\ limit s' = limit s /\
    (Z.of_nat (length ls') <= Z.max (Z.of_nat (length ls)) (limit s))%Z /\
    view s' ls' = (LRUSpec.put_if_absent (limit s) k v (view s ls)).2.
Proof.
  intros HI. destruct (mp s !! k) as [l|] eqn:Hk.
  - destruct (PutIfAbsent_present_spec s ls k v l HI Hk) as (e & He & Hrun).
    destruct (view_present s ls k l HI Hk) as (a & b & e' & -> & _ & _ & _ & _ & _).
    destruct (view_present_eq s a b k l e HI Hk He) as [Hlk _].
    exists s, (a ++ l :: b). unfold LRUSpec.put_if_absent. rewrite Hlk.
    split; [exact Hrun|]. split; [exact HI|]. split; [reflexivity|]. split; [lia|reflexivity].
  - destruct (PutIfAbsent_absent_spec s ls k v HI Hk) as (s' & HPut & Hrun).
    destruct (Put_ref s ls k v HI) as (s'' & ls' & HPut' & HI' & Hlim & _ & Hb & Hview).
    rewrite HPut in HPut'. injection HPut' as <-.
    exists s', ls'. unfold LRUSpec.put_if_absent. rewrite (view_absent s ls k HI Hk).
    auto.
Qed.

(** ** Every sequence of calls from [NewLRU] *)

Lemma NewLRU_inv lim : Inv (NewLRU (K:=K) (V:=V) lim) [].
Proof.
  constructor; simpl.
  - constructor.
  - exact I.
  - reflexivity.
  - reflexivity.
  - intros k l. rewrite lookup_empty. split; [discriminate|]. intros [Hl _].
    apply not_elem_of_nil in Hl. contradiction.
  - apply map_size_empty.
  - intros l [e He]. rewrite lookup_empty in He. discriminate.
Qed.

Lemma run_op_inv (s : LRU) ls o :
  Inv s ls ->
  exists s' ls', run_op zero o s = Some (tt, s') /\ Inv s' ls' /\ limit s' = limit s /\
    (Z.of_nat (length ls') <= Z.max (Z.of_nat (length ls)) (limit s))%Z.
Proof.
  intros HI. destruct o as [k v|k v|k|k| |]; simpl.
  - destruct (Put_ref s ls k v HI) as (s' & ls' & Hrun & HI' & Hlim & _ & Hb & _).
    exists s', ls'. auto.
  - destruct (PutIfAbsent_ref s ls k v HI) as (s' & ls' & Hrun & HI' & Hlim & Hb & _).
    exists s', ls'. rewrite (bind_ok _ _ _ _ _ Hrun). auto.
  - destruct (Get_ref s ls k HI) as (s' & ls' & Hrun & HI' & Hlim & Hl & _).
    exists s', ls'. rewrite (bind_ok _ _ _ _ _ Hrun), Hl. split; [reflexivity|]. split; [exact HI'|].
    split; [exact Hlim|lia].
  - destruct (Evict_ref s ls k HI) as (s' & ls' & Hrun & HI' & Hlim & Hl & _).
    exists s', ls'. rewrite (bind_ok _ _ _ _ _ Hrun). split; [reflexivity|]. split; [exact HI'|].
    split; [exact Hlim|lia].
  - exists (mkLRU (mem s) (next_loc s) ∅ None None (limit s)), [].
    rewrite Clear_run. split; [reflexivity|]. split; [exact (Clear_inv s ls HI)|].
    split; [reflexivity|]. cbn [length]. lia.
  - exists s, ls. rewrite (bind_ok _ _ _ _ _ (Size_run s)). split; [reflexivity|].
    split; [exact HI|]. split; [reflexivity|lia].
Qed.

Lemma run_ops_inv os (s : LRU) ls :
  Inv s ls -> (Z.of_nat (length ls) <= Z.max 0 (limit s))%Z ->
  exists s' ls', run_ops zero os s = Some (tt, s') /\ Inv s' ls' /\ limit s' = limit s /\
    (Z.of_nat (length ls') <= Z.max 0 (limit s))%Z.
Proof.
  revert s ls. induction os as [|o os IH]; intros s ls HI Hb.
  - exists s, ls. auto.
  - destruct (run_op_inv s ls o HI) as (s1 & ls1 & Hrun1 & HI1 & Hlim1 & Hb1).
    destruct (IH s1 ls1 HI1 ltac:(lia)) as (s2 & ls2 & Hrun2 & HI2 & Hlim2 & Hb2).
    exists s2, ls2. simpl. rewrite (bind_ok _ _ _ _ _ Hrun1). split; [exact Hrun2|].
    split; [exact HI2|]. split; lia.
Qed.

Lemma run_op_ref (s : LRU) ls o :
  Inv s ls ->
  exists s' ls', run_op zero o s = Some (tt, s') /\ Inv s' ls' /\ limit s' = limit s /\
    view s' ls' = LRUSpec.step zero (limit s) o (view s ls).
Proof.
  intros HI. destruct o as [k v|k v|k|k| |]; simpl.
  - destruct (Put_ref s ls k v HI) as (s' & ls' & Hrun & HI' & Hlim & _ & _ & Hv).
    exists s', ls'. auto.
  - destruct (PutIfAbsent_ref s ls k v HI) as (s' & ls' & Hrun & HI' & Hlim & _ & Hv).
    exists s', ls'. rewrite (bind_ok _ _ _ _ _ Hrun). auto.
  - destruct (Get_ref s ls k HI) as (s' & ls' & Hrun & HI' & Hlim & _ & Hv).
    exists s', ls'. rewrite (bind_ok _ _ _ _ _ Hrun). auto.
  - destruct (Evict_ref s ls k HI) as (s' & ls' & Hrun & HI' & Hlim & _ & Hv).
    exists s', ls'. rewrite (bind_ok _ _ _ _ _ Hrun). auto.
  - exists (mkLRU (mem s) (next_loc s) ∅ None None (limit s)), [].
    rewrite Clear_run. split; [reflexivity|]. split; [exact (Clear_inv s ls HI)|]. auto.
  - exists s, ls. rewrite (bind_ok _ _ _ _ _ (Size_run s)). auto.
Qed.

Lemma run_ops_ref os (s : LRU) ls :
  Inv s ls ->
  exists s' ls', run_ops zero os s = Some (tt, s') /\ Inv s' ls' /\ limit s' = limit s /\
    view s' ls' = LRUSpec.run zero (limit s) os (view s ls).
Proof.
  revert s ls. induction os as [|o os IH]; intros s ls HI.
  - exists s, ls. auto.
  - destruct (run_op_ref s ls o HI) as (s1 & ls1 & Hrun1 & HI1 & Hlim1 & Hv1).
    destruct (IH s1 ls1 HI1) as (s2 & ls2 & Hrun2 & HI2 & Hlim2 & Hv2).
    exists s2, ls2. simpl. rewrite (bind_ok _ _ _ _ _ Hrun1). split; [exact Hrun2|].
    split; [exact HI2|]. split; [congruence|]. rewrite Hv2, Hlim1, Hv1. reflexivity.
Qed.
Lemma view_lookup_Some (s : LRU) ls k v :
  Inv s ls -> LRUSpec.lookup_key k (view s ls) = Some v ->
  exists l e, mp s !! k = Some l /\ mem s !! l = Some e /\ value e = v.
Proof.
  intros HI Hv. destruct (mp s !! k) as [l|] eqn:Hk.
  - destruct (view_present s ls k l HI Hk) as (a & b & e & _ & He & _ & _ & Hlk & _).
    exists l, e. split; [reflexivity|]. split; [exact He|]. congruence.
  - rewrite (view_absent s ls k HI Hk) in Hv. discriminate.
Qed.

Lemma view_lookup_None (s : LRU) ls k :
  Inv s ls -> LRUSpec.lookup_key k (view s ls) = None -> mp s !! k = None.
Proof.
  intros HI Hv. destruct (mp s !! k) as [l|] eqn:Hk; [|reflexivity].
  destruct (view_present s ls k l HI Hk) as (a & b & e & _ & _ & _ & _ & Hlk & _).
  congruence.
Qed.

Lemma copy_loop_spec (s : LRU) kes r :
  NoDup kes.*1 -> (forall k l, (k, l) ∈ kes -> is_Some (mem s !! l)) ->
  exists r', copy_loop kes r s = Some (r', s) /\
    (forall k l, (k, l) ∈ kes -> r' !! k = value <$> mem s !! l) /\
    (forall k, k ∉ kes.*1 -> r' !! k = r !! k).
Proof.
  revert r. induction kes as [|[k0 l0] kes IH]; intros r Hnd Hin.
  - exists r. split; [reflexivity|]. split; [|auto].
    intros k l Hkl. apply not_elem_of_nil in Hkl. contradiction.
  - simpl in Hnd. apply NoDup_cons in Hnd as [Hk0 Hnd].
    destruct (Hin k0 l0 ltac:(left)) as [e0 He0].
    destruct (IH (<[k0 := value e0]> r) Hnd) as (r' & Hrun & Hr1 & Hr2).
    { intros k l Hkl. apply (Hin k l). right. exact Hkl. }
    exists r'. split.
    { simpl. rewrite (bind_ok _ _ _ _ _ (load_ok s l0 e0 He0)). exact Hrun. }
    split.
    + intros k l Hkl. apply elem_of_cons in Hkl as [Heq|Hkl].
      * injection Heq as Ek El. subst k l.
        rewrite (Hr2 k0 Hk0), lookup_insert_eq, He0. reflexivity.
      * apply Hr1. exact Hkl.
    + intros k Hk. simpl in Hk. apply not_elem_of_cons in Hk as [Hne Hk].
      rewrite (Hr2 k Hk). apply lookup_insert_ne. congruence.
Qed.

Lemma Copy_spec (s : LRU) ls :
  Inv s ls ->
  exists r, Copy s = Some (r, s) /\
    forall k, r !! k = mp s !! k ≫= fun l => value <$> mem s !! l.
Proof.
  intros HI.
  destruct (copy_loop_spec s (map_to_list (mp s)) ∅) as (r & Hrun & Hr1 & Hr2).
  - apply NoDup_fst_map_to_list.
  - intros k l Hkl. apply elem_of_map_to_list in Hkl.
    apply (inv_mp _ _ HI) in Hkl as [Hl _]. exact (Inv_lookup s ls l HI Hl).
  - exists r. split.
    { unfold Copy. rewrite (bind_ok get_mp _ s (mp s) s ltac:(reflexivity)). exact Hrun. }
    intros k. destruct (mp s !! k) as [l|] eqn:Hk; simpl.
    + apply Hr1. apply elem_of_map_to_list. exact Hk.
    + rewrite Hr2; [apply lookup_empty|].
      intros Hin. apply list_elem_of_fmap in Hin as ([k' l] & Heq & Hin).
      simpl in Heq. subst k'. apply elem_of_map_to_list in Hin. congruence.
Qed.

(** [e.insertAfter(entity)] on an entity [l] of a linked segment links a
    detached entity [x] right after [l], whatever the position of [l];
    only the links change, and the fields of the cache ([mp], [head],
    [tail]) are left as they are, so linking after the tail leaves
    [tail] on [l]. *)
Theorem insertAfter_spec (s : LRU) a l b x ex :
  NoDup (a ++ l :: b) -> seg (mem s) None (a ++ l :: b) None ->
  x ∉ a ++ l :: b -> mem s !! x = Some ex ->
  exists h', insertAfter l x s =
    Some (tt, mkLRU h' (next_loc s) (mp s) (entities_head s) (entities_tail s) (limit s)) /\
    seg h' None (a ++ l :: x :: b) None /\
    (forall y, y ∉ x :: a ++ l :: b -> h' !! y = mem s !! y) /\
    (forall y, key <$> h' !! y = key <$> mem s !! y) /\
    (forall y, value <$> h' !! y = value <$> mem s !! y).
Proof.
  intros Hnd Hs Hx Hex. apply seg_app in Hs as [Ha Hlb].
  destruct Hlb as (e & He & Hp & Hn & Hb).
  apply NoDup_app in Hnd as (Hnda & Hdisj & Hndb).
  apply NoDup_cons in Hndb as [Hlb Hndb].
  assert (Hla : l ∉ a) by (intros Hl; exact (Hdisj l Hl ltac:(left))).
  assert (Hxl : x <> l) by (intros ->; apply Hx; set_solver).
  assert (Hxa : x ∉ a) by set_solver.
  assert (Hxb : x ∉ b) by set_solver.
  destruct b as [|m b'].
  - eexists. split.
    { unfold insertAfter. repeat ustep. rewrite Hn. simpl. repeat ustep. reflexivity. }
    split; [|split; [|split]].
    + apply seg_app. split.
      { simpl in Ha |- *. do 3 (apply seg_insert_notin; [assumption|]). exact Ha. }
      simpl. eexists. split; [map_simpl; reflexivity|]. simpl.
      split; [exact Hp|]. split; [reflexivity|].
      eexists. split; [map_simpl; reflexivity|]. simpl. auto.
    + intros y Hy. rewrite !lookup_insert_ne by set_solver. reflexivity.
    + data_tac.
    + data_tac.
  - simpl in Hb. destruct Hb as (em & Hem & Hmp & Hmn & Hb').
    assert (m <> l) by (intros ->; apply Hlb; left).
    assert (m <> x) by (intros ->; apply Hxb; left).
    assert (m ∉ a) by (intros Hm; apply (Hdisj m Hm); right; left).
    assert (m ∉ b') by (apply NoDup_cons in Hndb; tauto).
    assert (l ∉ b') by set_solver.
    assert (x ∉ b') by set_solver.
    eexists. split.
    { unfold insertAfter. repeat ustep. rewrite Hn. simpl. repeat ustep. reflexivity. }
    split; [|split; [|split]].
    + apply seg_app. split.
      { simpl in Ha |- *. do 4 (apply seg_insert_notin; [assumption|]). exact Ha. }
      simpl. eexists. split; [map_simpl; reflexivity|]. simpl.
      split; [exact Hp|]. split; [reflexivity|].
      eexists. split; [map_simpl; reflexivity|]. simpl.
      split; [reflexivity|]. split; [reflexivity|].
      eexists. split; [map_simpl; reflexivity|]. simpl.
      split; [reflexivity|]. split; [exact Hmn|].
      do 4 (apply seg_insert_notin; [assumption|]). exact Hb'.
    + intros y Hy. rewrite !lookup_insert_ne by set_solver. reflexivity.
    + data_tac.
    + data_tac.
Qed.

(** [e.insertBefore(entity)] on an entity [l] of a linked segment links
    a detached entity [x] right before [l], whatever the position of
    [l]; only the links change, and the fields of the cache are left as
    they are, so linking before the head leaves [head] on [l] ([setHead]
    sets it afterwards). *)
Theorem insertBefore_spec (s : LRU) a l b x ex :
  NoDup (a ++ l :: b) -> seg (mem s) None (a ++ l :: b) None ->
  x ∉ a ++ l :: b -> mem s !! x = Some ex ->
  exists h', insertBefore l x s =
    Some (tt, mkLRU h' (next_loc s) (mp s) (entities_head s) (entities_tail s) (limit s)) /\
    seg h' None (a ++ x :: l :: b) None /\
    (forall y, y ∉ x :: a ++ l :: b -> h' !! y = mem s !! y) /\
    (forall y, key <$> h' !! y = key <$> mem s !! y) /\
    (forall y, value <$> h' !! y = value <$> mem s !! y).
Proof.
  intros Hnd Hs Hx Hex. apply seg_app in Hs as [Ha Hlb].
  destruct Hlb as (e & He & Hp & Hn & Hb).
  apply NoDup_app in Hnd as (Hnda & Hdisj & Hndb).
  apply NoDup_cons in Hndb as [Hlb Hndb].
  assert (Hla : l ∉ a) by (intros Hl; exact (Hdisj l Hl ltac:(left))).
  assert (Hxl : x <> l) by (intros ->; apply Hx; set_solver).
  assert (Hxa : x ∉ a) by set_solver.
  assert (Hxb : x ∉ b) by set_solver.
  destruct (last a) as [q|] eqn:Hlast.
  - destruct (exists_last (l := a)) as [a' [q' ->]];
      [intros ->; discriminate|].
    rewrite last_snoc in Hlast. injection Hlast as ->.
    apply seg_app in Ha as [Ha' Hq]. simpl in Hq.
    destruct Hq as (eq & Heq & Hqp & Hqn & _).
    unfold last_or in Hp. rewrite last_snoc in Hp. simpl in Hp.
    assert (q <> l) by (intros ->; apply Hla, elem_of_app; right; left).
    assert (q <> x) by (intros ->; apply Hxa, elem_of_app; right; left).
    assert (Hqa' : q ∉ a') by (apply NoDup_app in Hnda as (_ & Hd & _);
      intros Hq; exact (Hd q Hq ltac:(left))).
    assert (l ∉ a') by set_solver.
    assert (x ∉ a') by set_solver.
    eexists. split.
    { unfold insertBefore. repeat ustep. rewrite Hp. simpl. repeat ustep. reflexivity. }
    split; [|split; [|split]].
    + rewrite <- app_assoc. simpl. apply seg_app. split.
      { simpl in Ha' |- *. do 4 (apply seg_insert_notin; [assumption|]). exact Ha'. }
      eexists. split; [map_simpl; reflexivity|]. simpl.
      split; [exact Hqp|]. split; [reflexivity|].
      eexists. split; [map_simpl; reflexivity|]. simpl.
      split; [reflexivity|]. split; [reflexivity|].
      eexists. split; [map_simpl; reflexivity|]. simpl.
      split; [reflexivity|]. split; [exact Hn|].
      assert (q ∉ b) by (intros Hq; apply (Hdisj q); [set_solver | right; exact Hq]).
      do 4 (apply seg_insert_notin; [assumption|]). exact Hb.
    + intros y Hy. rewrite !lookup_insert_ne by set_solver. reflexivity.
    + data_tac.
    + data_tac.
  - apply last_None in Hlast as ->. simpl in *. unfold last_or in Hp. simpl in Hp.
    eexists. split.
    { unfold insertBefore. repeat ustep. rewrite Hp. simpl. repeat ustep. reflexivity. }
    split; [|split; [|split]].
    + eexists. split; [map_simpl; reflexivity|]. simpl.
      split; [reflexivity|]. split; [reflexivity|].
      eexists. split; [map_simpl; reflexivity|]. simpl.
      split; [reflexivity|]. split; [exact Hn|].
      do 3 (apply seg_insert_notin; [assumption|]). exact Hb.
    + intros y Hy. rewrite !lookup_insert_ne by set_solver. reflexivity.
    + data_tac.
    + data_tac.
Qed.
End LRUProofs.

(** ** Facts about the reference model *)

Section SpecLemmas.
Context {K : Type} `{EqDecision K} {V : Type}.
Implicit Types (L : list (K * V)) (ps : list (K * V)).

Lemma lookup_key_None k L : LRUSpec.lookup_key k L = None <-> k ∉ L.*1.
Proof.
  induction L as [|[k' v'] L IH]; simpl.
  - split; [intros _; apply not_elem_of_nil|reflexivity].
  - rewrite not_elem_of_cons. case_decide as Hkk.
    + split; [discriminate|]. intros [Hn _]. contradiction.
    + rewrite IH. tauto.
Qed.

Lemma lookup_key_Some_in k v L :
  NoDup L.*1 -> (k, v) ∈ L -> LRUSpec.lookup_key k L = Some v.
Proof.
  induction L as [|[k' v'] L IH]; simpl; intros Hnd Hin.
  - apply not_elem_of_nil in Hin. contradiction.
  - apply NoDup_cons in Hnd as [Hn Hnd]. apply elem_of_cons in Hin as [Hin|Hin].
    + injection Hin as -> ->. rewrite decide_True; reflexivity.
    + case_decide as Hkk; [subst k'|exact (IH Hnd Hin)].
      exfalso. apply Hn. apply (list_elem_of_fmap_2 fst L (k, v) Hin).
Qed.

Lemma removelast_take (l : list (K * V)) : removelast l = take (pred (length l)) l.
Proof.
  induction l as [|x l IH]; [reflexivity|].
  destruct l as [|y l]; [reflexivity|].
  change (removelast (x :: y :: l)) with (x :: removelast (y :: l)).
  rewrite IH. reflexivity.
Qed.

Lemma put_fresh lim k v L :
  LRUSpec.lookup_key k L = None -> (length L <= Z.to_nat lim)%nat ->
  LRUSpec.put lim k v L = take (Z.to_nat lim) ((k, v) :: L).
Proof.
  intros Hk Hl. unfold LRUSpec.put. rewrite Hk.
  destruct (Z.gtb_spec (Z.of_nat (S (length L))) lim) as [Hgt|Hle].
  - rewrite removelast_take. f_equal. cbn [length pred]. lia.
  - rewrite take_ge; [reflexivity|]. cbn [length]. lia.
Qed.

Lemma take_app_take n (A B : list (K * V)) :
  take n (A ++ take n B) = take n (A ++ B).
Proof. rewrite !take_app, take_take. f_equal. f_equal. lia. Qed.

Lemma run_puts_fresh (zero : V) lim ps L :
  NoDup (ps.*1 ++ L.*1) -> (length L <= Z.to_nat lim)%nat ->
  LRUSpec.run zero lim ((fun p => OPut p.1 p.2) <$> ps) L =
    take (Z.to_nat lim) (reverse ps ++ L).
Proof.
  revert L. induction ps as [|[k v] ps IH]; intros L Hnd Hl.
  - simpl. symmetry. apply take_ge. exact Hl.
  - cbn [fmap list_fmap]. unfold LRUSpec.run. cbn [fold_left]. simpl LRUSpec.step.
    cbn [fst snd] in *. rewrite fmap_cons in Hnd. cbn [fst] in Hnd.
    apply NoDup_cons in Hnd as [Hn Hnd].
    rewrite put_fresh.
    2:{ apply lookup_key_None. intros Hin. apply Hn. apply elem_of_app. right. exact Hin. }
    2:{ exact Hl. }
    fold (LRUSpec.run zero lim ((fun p => OPut p.1 p.2) <$> ps) (take (Z.to_nat lim) ((k, v) :: L))).
    rewrite IH.
    + rewrite reverse_cons, <- app_assoc. apply take_app_take.
    + apply (sublist_NoDup _ (ps.*1 ++ ((k, v) :: L).*1)).
      * rewrite fmap_cons. cbn [fst]. apply NoDup_app.
        apply NoDup_app in Hnd as (Hd1 & Hd2 & Hd3).
        split; [exact Hd1|]. split.
        -- intros x Hx. rewrite not_elem_of_cons. split; [|exact (Hd2 x Hx)].
           intros ->. apply Hn. apply elem_of_app. left. exact Hx.
        -- apply NoDup_cons. split; [|exact Hd3]. intros Hin. apply Hn.
           apply elem_of_app. right. exact Hin.
      * rewrite fmap_take. apply sublist_app; [reflexivity|apply sublist_take].
    + rewrite length_take. lia.
Qed.

Lemma lookup_key_put_self lim k v L :
  LRUSpec.lookup_key k (LRUSpec.put lim k v L) = Some v \/
  LRUSpec.lookup_key k (LRUSpec.put lim k v L) = None.
Proof.
  unfold LRUSpec.put. destruct (LRUSpec.lookup_key k L).
  - left. simpl. rewrite decide_True; reflexivity.
  - destruct (_ >? _)%Z.
    + destruct L as [|x L]; [right; reflexivity|].
      left. change (removelast ((k, v) :: x :: L)) with ((k, v) :: removelast (x :: L)).
      simpl. rewrite decide_True; reflexivity.
    + left. simpl. rewrite decide_True; reflexivity.
Qed.
End SpecLemmas.

(** ** The claims about the cache *)

Section LRUClaims.
Context {K : Type} `{Countable K} {V : Type} (zero : V).

Lemma reachable_inv lim os (s : LRU (K:=K) (V:=V)) :
  run_ops zero os (NewLRU lim) = Some (tt, s) ->
  exists ls, Inv s ls /\ limit s = lim /\ (Z.of_nat (length ls) <= Z.max 0 lim)%Z.
Proof.
  intros Hrun.
  destruct (run_ops_inv zero os (NewLRU lim) [] (NewLRU_inv lim) ltac:(simpl; lia))
    as (s' & ls & Hrun' & HI & Hlim & Hb).
  rewrite Hrun in Hrun'. injection Hrun' as <-. exists ls. auto.
Qed.

Lemma walk_head (s : LRU (K:=K) (V:=V)) ls :
  Inv s ls -> walk next (mem s) (entities_head s) (size (mem s)) = Some ls.
Proof.
  intros HI. rewrite (inv_head _ _ HI).
  replace (head ls) with (first_or ls None) by (destruct ls; reflexivity).
  apply (walk_seg prev next (mem s) None ls (size (mem s)) (inv_seg _ _ HI)).
  apply length_le_size; [exact (inv_nodup _ _ HI)|]. intros l Hl. exact (Inv_lookup s ls l HI Hl).
Qed.

(** C7: [Clear] leaves an empty cache with the same limit: [Size]
    returns 0 there, [Get] misses on every key returning the zero value
    and leaving the cache as it is, and a second [Clear] changes
    nothing. *)
Theorem Clear_idempotent (s : LRU (K:=K) (V:=V)) :
  exists s', Clear s = Some (tt, s') /\ Size s' = Some (0%Z, s') /\
    (forall k, Get zero k s' = Some ((false, zero), s')) /\
    limit s' = limit s /\ Clear s' = Some (tt, s').
Proof.
  exists (mkLRU (mem s) (next_loc s) ∅ None None (limit s)).
  split; [apply Clear_run|]. split.
  { rewrite Size_run. simpl. rewrite map_size_empty. reflexivity. }
  split; [intros k; apply Get_absent_spec; apply lookup_empty|].
  split; [reflexivity|]. exact (Clear_run (mkLRU (mem s) (next_loc s) ∅ None None (limit s))).
Qed.

(** C1: after any sequence of calls on [NewLRU lim], the order list
    walked from the head along [next] lists the entities [ls] (ending
    at the tail), [Size] returns their number, which is also the
    number of keys of the index, and this number is at most
    [max 0 lim]. *)
Theorem reachable_size_bound lim (os : list (op (K:=K) (V:=V))) :
  exists (s : LRU (K:=K) (V:=V)) ls, run_ops zero os (NewLRU lim) = Some (tt, s) /\ Inv s ls /\
    walk next (mem s) (entities_head s) (size (mem s)) = Some ls /\
    last ls = entities_tail s /\
    Size s = Some (Z.of_nat (length ls), s) /\
    length ls = size (mp s) /\
    (Z.of_nat (size (mp s)) <= Z.max 0 lim)%Z.
Proof.
  destruct (run_ops_inv zero os (NewLRU lim) [] (NewLRU_inv lim) ltac:(simpl; lia))
    as (s & ls & Hrun & HI & Hlim & Hb).
  exists s, ls. split; [exact Hrun|]. split; [exact HI|].
  split; [exact (walk_head s ls HI)|].
  split; [symmetry; exact (inv_tail _ _ HI)|].
  rewrite Size_run, (inv_size _ _ HI). split; [reflexivity|]. split; [reflexivity|].
  simpl in Hb. exact Hb.
Qed.

(** C10: on [NewLRU lim] with [lim <= 0], after any sequence of calls
    the cache is empty: no key in the index, an empty order list,
    [Size] returns 0 and [Get] misses on every key.  A [Put] or
    [PutIfAbsent] of any key then creates the entity (k, v) and
    returns (true, v), but evicts it at once, leaving the index
    empty again. *)
Theorem nonpositive_limit_empty lim (os : list (op (K:=K) (V:=V))) (Hlim : (lim <= 0)%Z) :
  exists s, run_ops zero os (NewLRU lim) = Some (tt, s) /\
    mp s = ∅ /\ entities_head s = None /\ entities_tail s = None /\
    Size s = Some (0%Z, s) /\
    (forall k, Get zero k s = Some ((false, zero), s)) /\
    (forall k v, exists s', Put k v s = Some (tt, s') /\
       PutIfAbsent k v s = Some ((true, v), s') /\
       (fun e => (key e, value e)) <$> mem s' !! next_loc s = Some (k, v) /\
       mp s' = ∅ /\ entities_head s' = None /\ entities_tail s' = None).
Proof.
  destruct (run_ops_inv zero os (NewLRU lim) [] (NewLRU_inv lim) ltac:(simpl; lia))
    as (s & ls & Hrun & HI & Hl & Hb).
  simpl in Hb.
  assert (ls = []) as ->.
  { destruct ls; [reflexivity|]. cbn [length] in Hb. lia. }
  assert (Hmp : mp s = ∅).
  { apply map_size_empty_iff. rewrite (inv_size _ _ HI). reflexivity. }
  exists s. split; [exact Hrun|]. split; [exact Hmp|].
  split; [exact (inv_head _ _ HI)|]. split; [exact (inv_tail _ _ HI)|].
  split; [rewrite Size_run, Hmp, map_size_empty; reflexivity|].
  split; [intros k; apply Get_absent_spec; rewrite Hmp; apply lookup_empty|].
  intros k v.
  assert (Hk : mp s !! k = None) by (rewrite Hmp; apply lookup_empty).
  destruct (PutIfAbsent_absent_spec s [] k v HI Hk) as (s' & HPut & HPIA).
  destruct (Put_absent_spec s [] k v HI Hk) as (s'' & HPut' & _ & Hkv & Hcase).
  rewrite HPut in HPut'. injection HPut' as <-.
  exists s'. split; [exact HPut|]. split; [exact HPIA|]. split; [exact Hkv|].
  destruct Hcase as [(Hle & _)|(_ & t & kt & _ & _ & HI' & _ & _)].
  - cbn [length] in Hle. simpl in Hl. lia.
  - cbn [removelast] in HI'. split.
    + apply map_size_empty_iff. rewrite (inv_size _ _ HI'). reflexivity.
    + split; [exact (inv_head _ _ HI')|exact (inv_tail _ _ HI')].
Qed.
Lemma Put_absent_size (s : LRU (K:=K) (V:=V)) ls k v :
  Inv s ls -> mp s !! k = None ->
  exists s', Put k v s = Some (tt, s') /\
    (fun e => (key e, value e)) <$> mem s' !! next_loc s = Some (k, v) /\
    ( ((Z.of_nat (S (size (mp s))) <= limit s)%Z /\ Inv s' (next_loc s :: ls) /\
         mp s' = <[k := next_loc s]> (mp s) /\ size (mp s') = S (size (mp s)))
    \/ ((limit s < Z.of_nat (S (size (mp s))))%Z /\
         exists t kt, last (next_loc s :: ls) = Some t /\
           (entities_tail s = Some t \/ (entities_tail s = None /\ t = next_loc s)) /\
           key <$> mem s' !! t = Some kt /\
           Inv s' (removelast (next_loc s :: ls)) /\
           mp s' = delete kt (<[k := next_loc s]> (mp s)) /\
           size (mp s') = size (mp s)) ).
Proof.
  intros HI Hk.
  destruct (Put_absent_spec s ls k v HI Hk) as (s' & Hrun & _ & Hkv & Hcase).
  exists s'. split; [exact Hrun|]. split; [exact Hkv|].
  rewrite (inv_size _ _ HI).
  destruct Hcase as [(Hle & HI' & Hmp & _)|(Hlt & t & kt & Ht & Hkt & HI' & Hmp & _)].
  - left. split; [exact Hle|]. split; [exact HI'|]. split; [exact Hmp|].
    rewrite Hmp, map_size_insert_None by exact Hk. rewrite (inv_size _ _ HI). reflexivity.
  - right. split; [exact Hlt|]. exists t, kt. split; [exact Ht|].
    split.
    { rewrite (inv_tail _ _ HI). rewrite last_cons in Ht.
      destruct (last ls) as [x|]; injection Ht as <-; auto. }
    split; [exact Hkt|]. split; [exact HI'|]. split; [exact Hmp|].
    rewrite (inv_size _ _ HI'). apply length_removelast_cons.
Qed.

Lemma run_view lim (os : list (op (K:=K) (V:=V))) :
  exists (s : LRU (K:=K) (V:=V)) ls, run_ops zero os (NewLRU lim) = Some (tt, s) /\
    Inv s ls /\ view s ls = LRUSpec.run zero lim os [].
Proof.
  destruct (run_ops_ref zero os (NewLRU lim) [] (NewLRU_inv lim))
    as (s & ls & Hrun & HI & _ & Hv).
  exists s, ls. auto.
Qed.

(** C2: in every state reached from [NewLRU lim], [Put k v] on an
    absent key stores a new entity (k, v) at [next_loc s] and puts it
    at the head of the order list.  Either the size stays within the
    limit, and the index gains [k] (size + 1); or it exceeds it, and
    the current tail [t] (the new entity if the list was empty) is
    taken out of the list and its key out of the index.  On a present
    key at [l], the entity [l] gets the value [v] in place, moves to
    the head, and the index is unchanged. *)
Theorem Put_reachable lim (os : list (op (K:=K) (V:=V))) k v :
  exists (s : LRU (K:=K) (V:=V)) ls, run_ops zero os (NewLRU lim) = Some (tt, s) /\ Inv s ls /\
    (mp s !! k = None ->
     exists s', Put k v s = Some (tt, s') /\
       (fun e => (key e, value e)) <$> mem s' !! next_loc s = Some (k, v) /\
       ( ((Z.of_nat (S (size (mp s))) <= limit s)%Z /\ Inv s' (next_loc s :: ls) /\
            mp s' = <[k := next_loc s]> (mp s) /\ size (mp s') = S (size (mp s)))
       \/ ((limit s < Z.of_nat (S (size (mp s))))%Z /\
            exists t kt, last (next_loc s :: ls) = Some t /\
              (entities_tail s = Some t \/ (entities_tail s = None /\ t = next_loc s)) /\
              key <$> mem s' !! t = Some kt /\
              Inv s' (removelast (next_loc s :: ls)) /\
              mp s' = delete kt (<[k := next_loc s]> (mp s)) /\
              size (mp s') = size (mp s)) )) /\
    (forall l, mp s !! k = Some l ->
     exists a b s', ls = a ++ l :: b /\ Put k v s = Some (tt, s') /\
       Inv s' (l :: a ++ b) /\ mp s' = mp s /\
       key <$> mem s' !! l = Some k /\ value <$> mem s' !! l = Some v /\
       (forall x, x <> l -> value <$> mem s' !! x = value <$> mem s !! x)).
Proof.
  destruct (run_ops_inv zero os (NewLRU lim) [] (NewLRU_inv lim) ltac:(simpl; lia))
    as (s & ls & Hrun & HI & _ & _).
  exists s, ls. split; [exact Hrun|]. split; [exact HI|]. split.
  - intros Hk. exact (Put_absent_size s ls k v HI Hk).
  - intros l Hk.
    destruct (Put_present_spec s ls k v l HI Hk)
      as (a & b & e & s' & Hls & _ & _ & HPut & HI' & Hmp & _ & _ & Hk' & Hv' & _ & Hvo & _).
    exists a, b, s'. auto 10.
Qed.

(** C6: in every state reached from [NewLRU lim], [Evict k] on an
    absent key returns (false, zero) and leaves the cache as it is; on
    a key present at [l], wherever [l] is in the order list, it
    returns (true, v) with the entity's value, takes [l] out of the
    list and [k] out of the index. *)
Theorem Evict_reachable lim (os : list (op (K:=K) (V:=V))) k :
  exists (s : LRU (K:=K) (V:=V)) ls, run_ops zero os (NewLRU lim) = Some (tt, s) /\ Inv s ls /\
    (mp s !! k = None -> Evict zero k s = Some ((false, zero), s)) /\
    (forall l, mp s !! k = Some l ->
     exists a b e s', ls = a ++ l :: b /\ mem s !! l = Some e /\ key e = k /\
       Evict zero k s = Some ((true, value e), s') /\ Inv s' (a ++ b) /\
       mp s' = delete k (mp s) /\ size (mp s') = pred (size (mp s))).
Proof.
  destruct (run_ops_inv zero os (NewLRU lim) [] (NewLRU_inv lim) ltac:(simpl; lia))
    as (s & ls & Hrun & HI & _ & _).
  exists s, ls. split; [exact Hrun|]. split; [exact HI|]. split.
  - intros Hk. exact (Evict_absent_spec zero s k Hk).
  - intros l Hk.
    destruct (Evict_present_spec zero s ls k l HI Hk)
      as (a & b & e & s' & Hls & He & Hke & HEv & HI' & Hmp & _).
    exists a, b, e, s'. do 6 (split; [assumption|]).
    rewrite (inv_size _ _ HI'), (inv_size _ _ HI), Hls, !length_app. cbn [length]. lia.
Qed.
Ltac spec_eval :=
  repeat (simpl; first
    [ rewrite decide_True by (first [reflexivity | congruence])
    | rewrite decide_False by (first [congruence | intros Hn; apply Hn; reflexivity])
    | rewrite filter_cons_True by (simpl; congruence)
    | rewrite filter_cons_False by (simpl; intros Hn; apply Hn; reflexivity)
    | rewrite filter_nil ]);
  simpl.

Lemma spec_puts3 (k1 k2 k3 : K) v1 v2 v3 :
  k1 <> k2 -> k1 <> k3 -> k2 <> k3 ->
  LRUSpec.run zero 3 [OPut k1 v1; OPut k2 v2; OPut k3 v3] [] = [(k3, v3); (k2, v2); (k1, v1)].
Proof.
  intros. unfold LRUSpec.run, LRUSpec.step, LRUSpec.put. spec_eval. reflexivity.
Qed.

Lemma spec_put4 (k1 k2 k3 k4 : K) (v1 v2 v3 v4 : V) :
  k1 <> k4 -> k2 <> k4 -> k3 <> k4 ->
  LRUSpec.put 3 k4 v4 [(k3, v3); (k2, v2); (k1, v1)] = [(k4, v4); (k3, v3); (k2, v2)].
Proof. intros. unfold LRUSpec.put. spec_eval. reflexivity. Qed.

Lemma spec_get_then_put (k1 k2 k3 k4 : K) v1 v2 v3 v4 :
  k1 <> k2 -> k1 <> k3 -> k1 <> k4 -> k2 <> k3 -> k2 <> k4 -> k3 <> k4 ->
  LRUSpec.run zero 3 [OPut k1 v1; OPut k2 v2; OPut k3 v3; OGet k1; OPut k4 v4] [] =
    [(k4, v4); (k1, v1); (k3, v3)].
Proof.
  intros. unfold LRUSpec.run, LRUSpec.step, LRUSpec.put, LRUSpec.get, LRUSpec.remove_key.
  spec_eval. reflexivity.
Qed.
(** C5: in every state reached from [NewLRU lim], [Get k] on an absent
    key returns (false, zero) and leaves the cache as it is; on a key
    present at [l] it returns (true, v) with the entity's value and
    moves [l] to the head of the order list, the state being left as
    it is when [l] already was the head.  And a [Put k v] after which
    [k] is still in the index is followed by a [Get k] returning
    (true, v). *)
Theorem Get_reachable lim (os : list (op (K:=K) (V:=V))) k :
  exists (s : LRU (K:=K) (V:=V)) ls, run_ops zero os (NewLRU lim) = Some (tt, s) /\ Inv s ls /\
    (mp s !! k = None -> Get zero k s = Some ((false, zero), s)) /\
    (forall l, mp s !! k = Some l ->
     exists a b e s', ls = a ++ l :: b /\ mem s !! l = Some e /\ key e = k /\
       Get zero k s = Some ((true, value e), s') /\ Inv s' (l :: a ++ b) /\
       (a = [] -> s' = s) /\ mp s' = mp s) /\
    (forall v s1, Put k v s = Some (tt, s1) -> is_Some (mp s1 !! k) ->
     exists s2, Get zero k s1 = Some ((true, v), s2)).
Proof.
  destruct (run_ops_inv zero os (NewLRU lim) [] (NewLRU_inv lim) ltac:(simpl; lia))
    as (s & ls & Hrun & HI & _ & _).
  exists s, ls. split; [exact Hrun|]. split; [exact HI|]. split; [|split].
  - intros Hk. exact (Get_absent_spec zero s k Hk).
  - intros l Hk.
    destruct (Get_present_spec zero s ls k l HI Hk)
      as (a & b & e & s' & Hls & He & Hke & HGet & HI' & Hhd & Hmp & _).
    exists a, b, e, s'. auto 10.
  - intros v s1 HPut Hin.
    destruct (Put_ref s ls k v HI) as (s1' & ls1 & HPut' & HI1 & _ & _ & _ & Hv1).
    rewrite HPut in HPut'. injection HPut' as <-.
    apply (Inv_key_present s1 ls1 k HI1) in Hin. rewrite Hv1 in Hin.
    assert (Hlk : LRUSpec.lookup_key k (view s1 ls1) = Some v).
    { rewrite Hv1. destruct (lookup_key_put_self (limit s) k v (view s ls)) as [E|E];
        [exact E|rewrite E in Hin; destruct Hin; discriminate]. }
    destruct (Get_ref zero s1 ls1 k HI1) as (s2 & _ & HGet & _).
    exists s2. rewrite HGet. unfold LRUSpec.get. rewrite Hlk. reflexivity.
Qed.

(** C4: in every state reached from [NewLRU lim], [PutIfAbsent k v] on
    an absent key runs as [Put k v] does, to the same state, and
    returns (true, v); on a key present at [l] it returns (false, v0)
    with the entity's value and leaves the cache as it is (value and
    order list alike).  So after [k1], [k2], [k3] are put into
    [NewLRU 3], [PutIfAbsent k1 w] returns (false, v1), and a [Put]
    of [k4] then evicts [k1] and keeps [k2], [k3] and [k4]. *)
Theorem PutIfAbsent_reachable :
  (forall lim (os : list (op (K:=K) (V:=V))) k v,
   exists (s : LRU (K:=K) (V:=V)) ls, run_ops zero os (NewLRU lim) = Some (tt, s) /\ Inv s ls /\
     (mp s !! k = None ->
      exists s', Put k v s = Some (tt, s') /\ PutIfAbsent k v s = Some ((true, v), s')) /\
     (forall l, mp s !! k = Some l ->
      exists e, mem s !! l = Some e /\ key e = k /\
        PutIfAbsent k v s = Some ((false, value e), s))) /\
  (forall (k1 k2 k3 k4 : K) (v1 v2 v3 v4 w : V),
   k1 <> k2 -> k1 <> k3 -> k1 <> k4 -> k2 <> k3 -> k2 <> k4 -> k3 <> k4 ->
   exists (s s' : LRU (K:=K) (V:=V)),
     run_ops zero [OPut k1 v1; OPut k2 v2; OPut k3 v3] (NewLRU 3) = Some (tt, s) /\
     PutIfAbsent k1 w s = Some ((false, v1), s) /\
     Put k4 v4 s = Some (tt, s') /\
     mp s' !! k1 = None /\ is_Some (mp s' !! k2) /\ is_Some (mp s' !! k3) /\
     is_Some (mp s' !! k4)).
Proof.
  split.
  - intros lim os k v.
    destruct (run_ops_inv zero os (NewLRU lim) [] (NewLRU_inv lim) ltac:(simpl; lia))
      as (s & ls & Hrun & HI & _ & _).
    exists s, ls. split; [exact Hrun|]. split; [exact HI|]. split.
    + intros Hk. exact (PutIfAbsent_absent_spec s ls k v HI Hk).
    + intros l Hk. destruct (PutIfAbsent_present_spec s ls k v l HI Hk) as (e & He & HP).
      exists e. split; [exact He|]. split; [|exact HP].
      apply (inv_mp _ _ HI) in Hk as [_ Hkl]. rewrite He in Hkl. injection Hkl as ->. reflexivity.
  - intros k1 k2 k3 k4 v1 v2 v3 v4 w H12 H13 H14 H23 H24 H34.
    destruct (run_ops_ref zero [OPut k1 v1; OPut k2 v2; OPut k3 v3] (NewLRU 3) []
                (NewLRU_inv 3)) as (s & ls & Hrun & HI & Hlim & Hv).
    cbn [limit NewLRU] in Hlim. change (view (NewLRU 3) []) with (@nil (K * V)) in Hv.
    cbn [limit NewLRU] in Hv. rewrite spec_puts3 in Hv by assumption.
    assert (Hk1 : LRUSpec.lookup_key k1 (view s ls) = Some v1) by (rewrite Hv; spec_eval; reflexivity).
    destruct (view_lookup_Some s ls k1 v1 HI Hk1) as (l1 & e1 & Hl1 & He1 & Hv1).
    destruct (PutIfAbsent_present_spec s ls k1 w l1 HI Hl1) as (e & He & HP).
    rewrite He1 in He. injection He as <-. rewrite Hv1 in HP.
    destruct (Put_ref s ls k4 v4 HI) as (s' & ls' & HPut & HI' & _ & _ & _ & Hv').
    rewrite Hv, Hlim, spec_put4 in Hv' by assumption.
    exists s, s'. split; [exact Hrun|]. split; [exact HP|]. split; [exact HPut|].
    split; [apply (view_lookup_None s' ls' k1 HI'); rewrite Hv'; spec_eval; reflexivity|].
    split; [|split]; apply (Inv_key_present s' ls' _ HI'); rewrite Hv'; spec_eval; eexists; reflexivity.
Qed.
(** C3: in every state reached from [NewLRU lim], a [Put] of an absent
    key that takes the size past the limit takes out exactly one
    entity: the current tail [t] of the order list (the new entity if
    the list was empty), leaving the size as it was.  Putting
    [Z.to_nat lim + 1] distinct keys [k1], ... into [NewLRU lim] leaves
    [k1] out of the index and every other key in it with its value.
    And at capacity 3, after [k1], [k2], [k3] are put, a [Get k1]
    followed by a [Put] of [k4] evicts [k2] and keeps [k1]. *)
Theorem eviction_takes_tail :
  (forall lim (os : list (op (K:=K) (V:=V))) k v,
   exists (s : LRU (K:=K) (V:=V)) ls, run_ops zero os (NewLRU lim) = Some (tt, s) /\ Inv s ls /\
     (mp s !! k = None -> (limit s < Z.of_nat (S (size (mp s))))%Z ->
      exists s' t kt, Put k v s = Some (tt, s') /\
        last (next_loc s :: ls) = Some t /\
        (entities_tail s = Some t \/ (entities_tail s = None /\ t = next_loc s)) /\
        key <$> mem s' !! t = Some kt /\
        Inv s' (removelast (next_loc s :: ls)) /\
        mp s' = delete kt (<[k := next_loc s]> (mp s)) /\
        size (mp s') = size (mp s))) /\
  (forall lim (k1 : K) (v1 : V) (rest : list (K * V)),
   length rest = Z.to_nat lim -> NoDup (k1 :: rest.*1) ->
   exists (s : LRU (K:=K) (V:=V)),
     run_ops zero (OPut k1 v1 :: ((fun p => OPut p.1 p.2) <$> rest)) (NewLRU lim) = Some (tt, s) /\
     mp s !! k1 = None /\
     (forall k v, (k, v) ∈ rest ->
      exists l e, mp s !! k = Some l /\ mem s !! l = Some e /\ value e = v)) /\
  (forall (k1 k2 k3 k4 : K) (v1 v2 v3 v4 : V),
   k1 <> k2 -> k1 <> k3 -> k1 <> k4 -> k2 <> k3 -> k2 <> k4 -> k3 <> k4 ->
   exists (s : LRU (K:=K) (V:=V)),
     run_ops zero [OPut k1 v1; OPut k2 v2; OPut k3 v3; OGet k1; OPut k4 v4] (NewLRU 3) =
       Some (tt, s) /\
     mp s !! k2 = None /\ is_Some (mp s !! k1) /\ is_Some (mp s !! k3) /\
     is_Some (mp s !! k4)).
Proof.
  split; [|split].
  - intros lim os k v.
    destruct (run_ops_inv zero os (NewLRU lim) [] (NewLRU_inv lim) ltac:(simpl; lia))
      as (s & ls & Hrun & HI & _ & _).
    exists s, ls. split; [exact Hrun|]. split; [exact HI|]. intros Hk Hlt.
    destruct (Put_absent_size s ls k v HI Hk)
      as (s' & HPut & _ & [(Hle & _)|(_ & t & kt & Ht & Htl & Hkt & HI' & Hmp & Hsz)]).
    + lia.
    + exists s', t, kt. auto 10.
  - intros lim k1 v1 rest Hlen Hnd.
    destruct (run_view lim (OPut k1 v1 :: ((fun p => OPut p.1 p.2) <$> rest)))
      as (s & ls & Hrun & HI & Hv).
    change (OPut k1 v1 :: ((fun p => OPut p.1 p.2) <$> rest))
      with ((fun p : K * V => OPut p.1 p.2) <$> ((k1, v1) :: rest)) in Hv.
    rewrite run_puts_fresh in Hv.
    2:{ rewrite fmap_nil, app_nil_r. exact Hnd. }
    2:{ cbn [length]. lia. }
    rewrite reverse_cons, app_nil_r, take_app_length' in Hv
      by (rewrite length_reverse; symmetry; exact Hlen).
    apply NoDup_cons in Hnd as [Hn Hnd].
    exists s. split; [exact Hrun|]. split.
    + apply (view_lookup_None s ls k1 HI). rewrite Hv. apply lookup_key_None.
      rewrite fmap_reverse, elem_of_reverse. exact Hn.
    + intros k v Hin. apply (view_lookup_Some s ls k v HI). rewrite Hv.
      apply lookup_key_Some_in.
      * rewrite fmap_reverse, reverse_Permutation. exact Hnd.
      * apply elem_of_reverse. exact Hin.
  - intros k1 k2 k3 k4 v1 v2 v3 v4 H12 H13 H14 H23 H24 H34.
    destruct (run_view 3 [OPut k1 v1; OPut k2 v2; OPut k3 v3; OGet k1; OPut k4 v4])
      as (s & ls & Hrun & HI & Hv).
    rewrite spec_get_then_put in Hv by assumption.
    exists s. split; [exact Hrun|].
    split; [apply (view_lookup_None s ls k2 HI); rewrite Hv; spec_eval; reflexivity|].
    split; [|split]; apply (Inv_key_present s ls _ HI); rewrite Hv; spec_eval; eexists; reflexivity.
Qed.
End LRUClaims.

Lemma nonpositive_limit_empty_witness :
  (0 <= 0)%Z /\
  exists s, run_ops (K:=nat) (V:=nat) 0 [OPut 1 1; OGet 1] (NewLRU 0) = Some (tt, s) /\
    mp s = ∅ /\ Size s = Some (0%Z, s) /\ Get 0 1 s = Some ((false, 0), s).
Proof.
  split; [lia|].
  destruct (nonpositive_limit_empty (K:=nat) (V:=nat) 0 0 [OPut 1 1; OGet 1] ltac:(lia))
    as (s & Hrun & Hmp & _ & _ & Hsz & Hget & _).
  exists s. split; [exact Hrun|]. split; [exact Hmp|]. split; [exact Hsz|]. apply Hget.
Defined.

Lemma reachable_size_bound_counterexample :
  exists (s : LRU (K:=nat) (V:=nat)) n,
    run_ops 0 [OPut 1 1] (NewLRU (-1)) = Some (tt, s) /\ Size s = Some (n, s) /\
    limit s = (-1)%Z /\ ~ (n <= limit s)%Z.
Proof.
  destruct (run_ops (K:=nat) (V:=nat) 0 [OPut 1 1] (NewLRU (-1))) as [[u s]|] eqn:E;
    vm_compute in E; [|discriminate].
  injection E as <- <-.
  eexists _, 0%Z. split; [vm_compute; reflexivity|]. split; [vm_compute; reflexivity|].
  split; [reflexivity|]. simpl. lia.
Qed.

(** ** Index-based access of the companion list *)

(** ** Further properties of the cache *)

Section LRUExtras.
Context {K : Type} `{Countable K} {V : Type} (zero : V).

(** Any sequence of calls on [NewLRU lim] runs without a nil
    dereference, and the order list, read from head to tail as (key,
    value) pairs, is the list computed by the reference model
    [LRUSpec.run]. *)
Theorem run_refines_spec lim (os : list (op (K:=K) (V:=V))) :
  exists (s : LRU (K:=K) (V:=V)) ls, run_ops zero os (NewLRU lim) = Some (tt, s) /\
    Inv s ls /\ limit s = lim /\ view s ls = LRUSpec.run zero lim os [].
Proof.
  destruct (run_ops_ref zero os (NewLRU lim) [] (NewLRU_inv lim))
    as (s & ls & Hrun & HI & Hlim & Hv).
  exists s, ls. auto.
Qed.

(** In every state reached from [NewLRU lim], [Copy] leaves the cache
    as it is and returns a map with as many keys as [Size] reports,
    mapping each key to the value the reference model holds for it; a
    key it maps to [v] is a key on which [Get] returns (true, v), and a
    key it lacks is one on which [Get] misses and changes nothing. *)
Theorem Copy_reachable lim (os : list (op (K:=K) (V:=V))) :
  exists (s : LRU (K:=K) (V:=V)) ls r, run_ops zero os (NewLRU lim) = Some (tt, s) /\
    Inv s ls /\ Copy s = Some (r, s) /\ size r = size (mp s) /\
    (forall k, r !! k = LRUSpec.lookup_key k (LRUSpec.run zero lim os [])) /\
    (forall k, match r !! k with
       | None => Get zero k s = Some ((false, zero), s)
       | Some v => exists s', Get zero k s = Some ((true, v), s')
       end).
Proof.
  destruct (run_ops_ref zero os (NewLRU lim) [] (NewLRU_inv lim))
    as (s & ls & Hrun & HI & _ & Hv).
  destruct (Copy_spec s ls HI) as (r & Hcopy & Hr).
  exists s, ls, r. split; [exact Hrun|]. split; [exact HI|]. split; [exact Hcopy|].
  split; [|split].
  - rewrite <- (size_dom (D:=gset K) r), <- (size_dom (D:=gset K) (mp s)).
    f_equal. apply set_eq. intros k. rewrite !elem_of_dom, Hr.
    destruct (mp s !! k) as [l|] eqn:Hk; simpl; [|split; intros [? Hc]; discriminate].
    apply (inv_mp _ _ HI) in Hk as [Hl _].
    destruct (Inv_lookup s ls l HI Hl) as [e He]. rewrite He. simpl.
    split; intros _; eauto.
  - intros k. simpl in Hv. rewrite <- Hv, Hr.
    destruct (LRUSpec.lookup_key k (view s ls)) as [v|] eqn:Hlk.
    + destruct (view_lookup_Some s ls k v HI Hlk) as (l & e & Hk & He & <-).
      rewrite Hk. simpl. rewrite He. reflexivity.
    + rewrite (view_lookup_None s ls k HI Hlk). reflexivity.
  - intros k. rewrite Hr. destruct (mp s !! k) as [l|] eqn:Hk; simpl.
    + destruct (Get_present_spec zero s ls k l HI Hk)
        as (a & b & e & s' & _ & He & _ & HGet & _).
      rewrite He. simpl. exists s'. exact HGet.
    + exact (Get_absent_spec zero s k Hk).
Qed.

(** In every state reached from [NewLRU lim], a second [Get k] right
    after a first one returns the same result and leaves the cache as
    the first one left it. *)
Theorem Get_Get_reachable lim (os : list (op (K:=K) (V:=V))) k :
  exists (s : LRU (K:=K) (V:=V)) ls res s', run_ops zero os (NewLRU lim) = Some (tt, s) /\
    Inv s ls /\ Get zero k s = Some (res, s') /\ Get zero k s' = Some (res, s').
Proof.
  destruct (run_ops_ref zero os (NewLRU lim) [] (NewLRU_inv lim))
    as (s & ls & Hrun & HI & _ & _).
  destruct (mp s !! k) as [l|] eqn:Hk.
  - destruct (Get_present_spec zero s ls k l HI Hk)
      as (a & b & e & s' & _ & He & _ & HGet & HI' & _ & Hmp & _ & _ & _ & Hval & _).
    assert (Hk' : mp s' !! k = Some l) by (rewrite Hmp; exact Hk).
    destruct (Get_present_spec zero s' (l :: a ++ b) k l HI' Hk')
      as (a2 & b2 & e2 & s2 & Hsplit & He2 & _ & HGet2 & _ & Hfront & _).
    assert (a2 = []) as ->.
    { destruct a2 as [|y a2']; [reflexivity|]. exfalso.
      injection Hsplit as <- Hab.
      pose proof (inv_nodup _ _ HI') as Hnd. apply NoDup_cons in Hnd as [Hl _].
      apply Hl. rewrite Hab. apply elem_of_app. right. left. }
    specialize (Hfront eq_refl). subst s2.
    assert (value e2 = value e).
    { pose proof (Hval l) as Hvl. rewrite He2, He in Hvl. simpl in Hvl. congruence. }
    exists s, ls, (true, value e), s'. split; [exact Hrun|]. split; [exact HI|].
    split; [exact HGet|]. rewrite HGet2. congruence.
  - exists s, ls, (false, zero), s. split; [exact Hrun|]. split; [exact HI|].
    split; apply (Get_absent_spec zero s k Hk).
Qed.

(** In every state reached from [NewLRU lim], after [Evict k] the key is
    gone: a second [Evict k] and a [Get k] both return (false, zero) and
    leave the cache as it is. *)
Theorem Evict_then_miss lim (os : list (op (K:=K) (V:=V))) k :
  exists (s : LRU (K:=K) (V:=V)) ls res s', run_ops zero os (NewLRU lim) = Some (tt, s) /\
    Inv s ls /\ Evict zero k s = Some (res, s') /\ mp s' !! k = None /\
    Evict zero k s' = Some ((false, zero), s') /\ Get zero k s' = Some ((false, zero), s').
Proof.
  destruct (run_ops_ref zero os (NewLRU lim) [] (NewLRU_inv lim))
    as (s & ls & Hrun & HI & _ & _).
  destruct (mp s !! k) as [l|] eqn:Hk.
  - destruct (Evict_present_spec zero s ls k l HI Hk)
      as (a & b & e & s' & _ & _ & _ & HEv & _ & Hmp & _).
    assert (Hk' : mp s' !! k = None) by (rewrite Hmp; apply lookup_delete_eq).
    exists s, ls, (true, value e), s'. split; [exact Hrun|]. split; [exact HI|].
    split; [exact HEv|]. split; [exact Hk'|].
    split; [apply (Evict_absent_spec zero s' k Hk') | apply (Get_absent_spec zero s' k Hk')].
  - exists s, ls, (false, zero), s. split; [exact Hrun|]. split; [exact HI|].
    split; [apply (Evict_absent_spec zero s k Hk)|]. split; [exact Hk|].
    split; [apply (Evict_absent_spec zero s k Hk) | apply (Get_absent_spec zero s k Hk)].
Qed.
End LRUExtras.

(** A cache heap with the order list 0, 1 and a detached entity at 2. *)
Local Abbreviation lru_ex := (mkLRU
  (<[0 := mkEntity 1 10 None (Some 1)]> (<[1 := mkEntity 2 20 (Some 0) None]>
    (<[2 := mkEntity 3 30 None None]> ∅))) 3 (<[1 := 0]> (<[2 := 1]> ∅)) (Some 0) (Some 1) 2%Z).

Ltac lru_hyp_tac :=
  first
    [ apply (bool_decide_unpack _); vm_compute; reflexivity
    | simpl; repeat (eexists; split; [reflexivity|]; split; [reflexivity|]; split; [reflexivity|]);
      exact I
    | reflexivity ].

Lemma insertAfter_spec_witness :
  NoDup ([0] ++ [1]) /\ seg prev next (mem lru_ex) None ([0] ++ [1]) None /\
  (2 ∉ [0] ++ [1]) /\ mem lru_ex !! 2 = Some (mkEntity 3 30 None None) /\
  exists h', insertAfter 1 2 lru_ex =
    Some (tt, mkLRU h' (next_loc lru_ex) (mp lru_ex) (entities_head lru_ex)
                   (entities_tail lru_ex) (limit lru_ex)) /\
    seg prev next h' None ([0] ++ [1; 2]) None /\
    (forall y, y ∉ 2 :: [0] ++ [1] -> h' !! y = mem lru_ex !! y) /\
    (forall y, key <$> h' !! y = key <$> mem lru_ex !! y) /\
    (forall y, value <$> h' !! y = value <$> mem lru_ex !! y).
Proof.
  split; [lru_hyp_tac|]. split; [lru_hyp_tac|]. split; [lru_hyp_tac|].
  split; [lru_hyp_tac|].
  apply (insertAfter_spec lru_ex [0] 1 [] 2 (mkEntity 3 30 None None)); lru_hyp_tac.
Defined.

Lemma insertBefore_spec_witness :
  NoDup ([0] ++ [1]) /\ seg prev next (mem lru_ex) None ([0] ++ [1]) None /\
  (2 ∉ [0] ++ [1]) /\ mem lru_ex !! 2 = Some (mkEntity 3 30 None None) /\
  exists h', insertBefore 1 2 lru_ex =
    Some (tt, mkLRU h' (next_loc lru_ex) (mp lru_ex) (entities_head lru_ex)
                   (entities_tail lru_ex) (limit lru_ex)) /\
    seg prev next h' None ([0] ++ [2; 1]) None /\
    (forall y, y ∉ 2 :: [0] ++ [1] -> h' !! y = mem lru_ex !! y) /\
    (forall y, key <$> h' !! y = key <$> mem lru_ex !! y) /\
    (forall y, value <$> h' !! y = value <$> mem lru_ex !! y).
Proof.
  split; [lru_hyp_tac|]. split; [lru_hyp_tac|]. split; [lru_hyp_tac|].
  split; [lru_hyp_tac|].
  apply (insertBefore_spec lru_ex [0] 1 [] 2 (mkEntity 3 30 None None)); lru_hyp_tac.
Defined.

(** ** Concurrent calls: proofs *)

Section LRUConcProofs.
Context {K : Type} `{Countable K} {V : Type} (zero : V).
Local Abbreviation LRU := (@LRU K _ _ V).
Local Abbreviation M A := (@M K _ _ V A).
Local Abbreviation P A := (@P K _ _ V A).
Local Abbreviation thread := (@thread K _ _ V).
Local Abbreviation call := (@call K V).
Local Abbreviation res := (@res K _ _ V).
Local Abbreviation conf := (@conf K _ _ V).

(** [Impl p m]: run alone, the access-by-access body [p] computes what
    the sequential [m] computes. *)
Definition Impl {A} (p : P A) (m : M A) : Prop :=
  forall (k : A -> thread) (s : LRU),
    exec (p k) s = match m s with Some (a, s') => exec (k a) s' | None => None end.

Lemma Impl_act {A} (m : M A) : Impl (act m) m.
Proof. intros k s. reflexivity. Qed.

Lemma Impl_ret {A} (a : A) : Impl (pret a) (ret a).
Proof. intros k s. reflexivity. Qed.

Lemma Impl_bind {A B} (p : P A) (m : M A) (f : A -> P B) (g : A -> M B) :
  Impl p m -> (forall a, Impl (f a) (g a)) -> Impl (pbind p f) (bind m g).
Proof.
  intros Hp Hf k s. unfold pbind, bind. rewrite Hp.
  destruct (m s) as [[a s']|]; [apply Hf|reflexivity].
Qed.

Lemma Impl_bind_l {A B} (p : P A) (a0 : A) (f : A -> P B) (m : M B) :
  Impl p (ret a0) -> Impl (f a0) m -> Impl (pbind p f) m.
Proof. intros Hp Hf k s. unfold pbind. rewrite Hp. exact (Hf k s). Qed.

Lemma Impl_bind_r {A} (p : P A) (f : A -> P A) (m : M A) :
  Impl p m -> (forall a, Impl (f a) (ret a)) -> Impl (pbind p f) m.
Proof.
  intros Hp Hf k s. unfold pbind. rewrite Hp.
  destruct (m s) as [[a s']|]; [|reflexivity]. rewrite Hf. reflexivity.
Qed.

Lemma Impl_assoc {A B C} (p : P A) (f : A -> P B) (g : B -> P C) (m : M C) :
  Impl (pbind p (fun a => pbind (f a) g)) m -> Impl (pbind (pbind p f) g) m.
Proof. exact id. Qed.

Lemma Impl_lock : Impl plock (ret tt).
Proof. intros k s. reflexivity. Qed.
Lemma Impl_unlock : Impl punlock (ret tt).
Proof. intros k s. reflexivity. Qed.
Lemma Impl_rlock : Impl prlock (ret tt).
Proof. intros k s. reflexivity. Qed.
Lemma Impl_runlock : Impl prunlock (ret tt).
Proof. intros k s. reflexivity. Qed.
Lemma Impl_unlock_unit (a : unit) : Impl punlock (ret a).
Proof. destruct a. exact Impl_unlock. Qed.

Create HintDb impl.

Ltac impl_tac :=
  repeat match goal with
  | |- Impl (pbind (pbind _ _) _) _ => apply Impl_assoc
  | |- Impl (pbind plock _) _ => eapply Impl_bind_l; [apply Impl_lock|]
  | |- Impl (pbind prlock _) _ => eapply Impl_bind_l; [apply Impl_rlock|]
  | |- Impl (pbind punlock _) _ => eapply Impl_bind_l; [apply Impl_unlock|]
  | |- Impl (pbind prunlock _) _ => eapply Impl_bind_l; [apply Impl_runlock|]
  | |- Impl (pbind _ _) (bind _ _) => apply Impl_bind; [|intros ?]
  | |- Impl (pbind _ _) _ => apply Impl_bind_r; [|intros ?]
  | |- Impl (act _) _ => apply Impl_act
  | |- Impl (pret _) _ => apply Impl_ret
  | |- Impl punlock _ => apply Impl_unlock_unit
  | |- Impl (match ?x with _ => _ end) _ => destruct x
  | |- Impl _ _ => solve [eauto with impl]
  end.

Lemma Impl_get_prev l : Impl (get_prev_p l) (get_prev (K:=K) (V:=V) l).
Proof. unfold get_prev_p, get_prev. impl_tac. Qed.
Lemma Impl_get_next l : Impl (get_next_p l) (get_next (K:=K) (V:=V) l).
Proof. unfold get_next_p, get_next. impl_tac. Qed.
Lemma Impl_set_prev l p : Impl (set_prev_p l p) (set_prev (K:=K) (V:=V) l p).
Proof. unfold set_prev_p, set_prev. impl_tac. Qed.
Lemma Impl_set_next l n : Impl (set_next_p l n) (set_next (K:=K) (V:=V) l n).
Proof. unfold set_next_p, set_next. impl_tac. Qed.
Lemma Impl_set_value l v : Impl (set_value_p l v) (set_value (K:=K) (V:=V) l v).
Proof. unfold set_value_p, set_value. impl_tac. Qed.
#[local] Hint Resolve Impl_get_prev Impl_get_next Impl_set_prev Impl_set_next Impl_set_value : impl.

Lemma Impl_insertBefore e entity :
  Impl (insertBefore_p e entity) (insertBefore (K:=K) (V:=V) e entity).
Proof. unfold insertBefore_p, insertBefore. impl_tac. Qed.
#[local] Hint Resolve Impl_insertBefore : impl.
Lemma Impl_removeYourself e : Impl (removeYourself_p e) (removeYourself (K:=K) (V:=V) e).
Proof. unfold removeYourself_p, removeYourself. impl_tac. Qed.
#[local] Hint Resolve Impl_removeYourself : impl.
Lemma Impl_setHead e : Impl (setHead_p e) (setHead (K:=K) (V:=V) e).
Proof. unfold setHead_p, setHead. impl_tac. Qed.
#[local] Hint Resolve Impl_setHead : impl.
Lemma Impl_removeEntity e : Impl (removeEntity_p e) (removeEntity (K:=K) (V:=V) e).
Proof. unfold removeEntity_p, removeEntity. impl_tac. Qed.
#[local] Hint Resolve Impl_removeEntity : impl.
Lemma Impl_moveToHead e : Impl (moveToHead_p e) (moveToHead (K:=K) (V:=V) e).
Proof. unfold moveToHead_p, moveToHead. impl_tac. Qed.
Lemma Impl_clear : Impl clear_p (clear (K:=K) (V:=V)).
Proof. unfold clear_p, clear. impl_tac. Qed.
Lemma Impl_evictEntity e : Impl (evictEntity_p e) (evictEntity (K:=K) (V:=V) e).
Proof. unfold evictEntity_p, evictEntity. impl_tac. Qed.
#[local] Hint Resolve Impl_moveToHead Impl_clear Impl_evictEntity : impl.
Lemma Impl_putEntity e : Impl (putEntity_p e) (putEntity (K:=K) (V:=V) e).
Proof. unfold putEntity_p, putEntity. impl_tac. Qed.
#[local] Hint Resolve Impl_putEntity : impl.

Lemma Impl_Put_body k v : Impl (Put_body k v) (Put k v).
Proof. unfold Put_body, Put. impl_tac. Qed.
Lemma Impl_Get_body k : Impl (Get_body zero k) (Get zero k).
Proof. unfold Get_body, Get. impl_tac. Qed.
Lemma Impl_Evict_body k : Impl (Evict_body zero k) (Evict zero k).
Proof. unfold Evict_body, Evict. impl_tac. Qed.
Lemma Impl_Clear_body : Impl Clear_body (Clear (K:=K) (V:=V)).
Proof. unfold Clear_body, Clear. impl_tac. Qed.
Lemma Impl_Size_body : Impl Size_body (Size (K:=K) (V:=V)).
Proof. unfold Size_body, Size. impl_tac. Qed.
Lemma Impl_copy_loop kes r : Impl (copy_loop_p kes r) (copy_loop (K:=K) (V:=V) kes r).
Proof.
  revert r. induction kes as [|[k e] kes IH]; intros r; simpl; impl_tac.
Qed.
#[local] Hint Resolve Impl_copy_loop : impl.
Lemma Impl_Copy_body : Impl Copy_body (Copy (K:=K) (V:=V)).
Proof. unfold Copy_body, Copy. impl_tac. Qed.
Lemma Impl_String_body : Impl String_body (String_fields (K:=K) (V:=V)).
Proof. unfold String_body, String_fields. impl_tac. Qed.
#[local] Hint Resolve Impl_Put_body Impl_Get_body Impl_Evict_body Impl_Clear_body
  Impl_Size_body Impl_Copy_body Impl_String_body : impl.

Lemma Impl_Put k v : Impl (Put_p k v) (Put k v).
Proof. unfold Put_p. impl_tac. Qed.
Lemma Impl_PutIfAbsent k v : Impl (PutIfAbsent_p k v) (PutIfAbsent k v).
Proof. unfold PutIfAbsent_p, PutIfAbsent_body, PutIfAbsent. impl_tac. Qed.
Lemma Impl_Get k : Impl (Get_p zero k) (Get zero k).
Proof. unfold Get_p. impl_tac. Qed.
Lemma Impl_Evict k : Impl (Evict_p zero k) (Evict zero k).
Proof. unfold Evict_p. impl_tac. Qed.
Lemma Impl_Clear : Impl Clear_p (Clear (K:=K) (V:=V)).
Proof. unfold Clear_p. impl_tac. Qed.
Lemma Impl_Size : Impl Size_p (Size (K:=K) (V:=V)).
Proof. unfold Size_p. impl_tac. Qed.
Lemma Impl_Copy : Impl Copy_p (Copy (K:=K) (V:=V)).
Proof. unfold Copy_p. impl_tac. Qed.
Lemma Impl_String : Impl String_p (String_fields (K:=K) (V:=V)).
Proof. unfold String_p. impl_tac. Qed.

Lemma exec_Impl {A} (p : P A) (m : M A) (g : A -> res) s :
  Impl p m -> exec (p (fun a => TDone (g a))) s = bind m (fun a => ret (g a)) s.
Proof. intros Hi. rewrite Hi. unfold bind. destruct (m s) as [[a s']|]; reflexivity. Qed.

(** A goroutine run alone performs its call. *)
Lemma exec_call (c : call) s : exec (call_thread zero c) s = call_M zero c s.
Proof.
  destruct c as [k v|k v|k|k| | | |]; simpl.
  - exact (exec_Impl _ _ (fun _ => RUnit) s (Impl_Put k v)).
  - exact (exec_Impl _ _ RBoolV s (Impl_PutIfAbsent k v)).
  - exact (exec_Impl _ _ RBoolV s (Impl_Get k)).
  - exact (exec_Impl _ _ RBoolV s (Impl_Evict k)).
  - exact (exec_Impl _ _ (fun _ => RUnit) s Impl_Clear).
  - exact (exec_Impl _ _ RInt s Impl_Size).
  - exact (exec_Impl _ _ RMap s Impl_Copy).
  - exact (exec_Impl _ _ (fun p => RLimitSize p.1 p.2) s Impl_String).
Qed.

(** The accesses of the critical sections. *)
Lemma prim_ok_get_mp ro : prim_ok ro (get_mp (K:=K) (V:=V)).
Proof. intros s x s' E. unfold get_mp in E. inversion E; subst. split; [reflexivity|tauto]. Qed.
Lemma prim_ok_get_limit ro : prim_ok ro (get_limit (K:=K) (V:=V)).
Proof. intros s x s' E. unfold get_limit in E. inversion E; subst. split; [reflexivity|tauto]. Qed.
Lemma prim_ok_get_head ro : prim_ok ro (get_head (K:=K) (V:=V)).
Proof. intros s x s' E. unfold get_head in E. inversion E; subst. split; [reflexivity|tauto]. Qed.
Lemma prim_ok_get_tail ro : prim_ok ro (get_tail (K:=K) (V:=V)).
Proof. intros s x s' E. unfold get_tail in E. inversion E; subst. split; [reflexivity|tauto]. Qed.
Lemma prim_ok_load ro l : prim_ok ro (load (K:=K) (V:=V) l).
Proof.
  intros s x s' E. unfold load in E. destruct (mem s !! l); inversion E; subst.
  split; [reflexivity|tauto].
Qed.
Lemma prim_ok_set_mp m : prim_ok false (set_mp (K:=K) (V:=V) m).
Proof. intros s x s' E. unfold set_mp in E. inversion E; subst. split; [discriminate|tauto]. Qed.
Lemma prim_ok_set_head o : prim_ok false (set_head (K:=K) (V:=V) o).
Proof. intros s x s' E. unfold set_head in E. inversion E; subst. split; [discriminate|tauto]. Qed.
Lemma prim_ok_set_tail o : prim_ok false (set_tail (K:=K) (V:=V) o).
Proof. intros s x s' E. unfold set_tail in E. inversion E; subst. split; [discriminate|tauto]. Qed.
Lemma prim_ok_store l e : prim_ok false (store (K:=K) (V:=V) l e).
Proof.
  intros s x s' E. unfold store in E. destruct (mem s !! l); inversion E; subst.
  split; [discriminate|]. intros l' Hl'. simpl. rewrite lookup_insert_is_Some'. auto.
Qed.
Lemma prim_ok_alloc e : prim_ok false (alloc (K:=K) (V:=V) e).
Proof.
  intros s x s' E. unfold alloc in E. inversion E; subst.
  split; [discriminate|]. intros l' Hl'. simpl. rewrite lookup_insert_is_Some'. auto.
Qed.
Lemma prim_ok_panic {X} ro : prim_ok ro (panic (K:=K) (V:=V) (A:=X)).
Proof. intros s x s' E. discriminate. Qed.

Create HintDb prims.
#[local] Hint Resolve prim_ok_get_mp prim_ok_get_limit prim_ok_get_head prim_ok_get_tail
  prim_ok_load prim_ok_set_mp prim_ok_set_head prim_ok_set_tail prim_ok_store prim_ok_alloc
  prim_ok_panic : prims.

(** [BodyOK ro p]: [p] runs accesses satisfying [prim_ok ro] and no
    operation on [mu] before it returns. *)
Definition BodyOK {A} (ro : bool) (p : P A) : Prop :=
  forall (E : thread -> Prop) (k : A -> thread),
    (forall a, seg_t ro E (k a)) -> seg_t ro E (p k).

Lemma BodyOK_ret {A} ro (a : A) : BodyOK ro (pret a).
Proof. intros E k Hk. apply Hk. Qed.

Lemma BodyOK_act {A} ro (m : M A) : prim_ok ro m -> BodyOK ro (act m).
Proof. intros Hm E k Hk. cbn [act seg_t]. right. split; assumption. Qed.

Lemma BodyOK_bind {A B} ro (p : P A) (f : A -> P B) :
  BodyOK ro p -> (forall a, BodyOK ro (f a)) -> BodyOK ro (pbind p f).
Proof. intros Hp Hf E k Hk. unfold pbind. apply Hp. intros a. apply Hf. exact Hk. Qed.

Lemma BodyOK_assoc {A B C} ro (p : P A) (f : A -> P B) (g : B -> P C) :
  BodyOK ro (pbind p (fun a => pbind (f a) g)) -> BodyOK ro (pbind (pbind p f) g).
Proof. exact id. Qed.

Create HintDb bodyok.

Ltac body_tac :=
  repeat match goal with
  | |- BodyOK _ (pbind (pbind _ _) _) => apply BodyOK_assoc
  | |- BodyOK _ (pbind _ _) => apply BodyOK_bind; [|intros ?]
  | |- BodyOK _ (act _) => apply BodyOK_act
  | |- BodyOK _ (pret _) => apply BodyOK_ret
  | |- BodyOK _ (match ?x with _ => _ end) => destruct x
  | |- prim_ok _ _ => solve [eauto with prims]
  | |- BodyOK _ _ => solve [eauto with bodyok]
  end.

Lemma BodyOK_get_prev ro l : BodyOK ro (get_prev_p (K:=K) (V:=V) l).
Proof. unfold get_prev_p. body_tac. Qed.
Lemma BodyOK_get_next ro l : BodyOK ro (get_next_p (K:=K) (V:=V) l).
Proof. unfold get_next_p. body_tac. Qed.
Lemma BodyOK_set_prev l p : BodyOK false (set_prev_p (K:=K) (V:=V) l p).
Proof. unfold set_prev_p. body_tac. Qed.
Lemma BodyOK_set_next l n : BodyOK false (set_next_p (K:=K) (V:=V) l n).
Proof. unfold set_next_p. body_tac. Qed.
Lemma BodyOK_set_value l v : BodyOK false (set_value_p (K:=K) (V:=V) l v).
Proof. unfold set_value_p. body_tac. Qed.
#[local] Hint Resolve BodyOK_get_prev BodyOK_get_next BodyOK_set_prev BodyOK_set_next
  BodyOK_set_value : bodyok.
Lemma BodyOK_insertBefore e entity : BodyOK false (insertBefore_p (K:=K) (V:=V) e entity).
Proof. unfold insertBefore_p. body_tac. Qed.
#[local] Hint Resolve BodyOK_insertBefore : bodyok.
Lemma BodyOK_removeYourself e : BodyOK false (removeYourself_p (K:=K) (V:=V) e).
Proof. unfold removeYourself_p. body_tac. Qed.
#[local] Hint Resolve BodyOK_removeYourself : bodyok.
Lemma BodyOK_setHead e : BodyOK false (setHead_p (K:=K) (V:=V) e).
Proof. unfold setHead_p. body_tac. Qed.
Lemma BodyOK_removeEntity e : BodyOK false (removeEntity_p (K:=K) (V:=V) e).
Proof. unfold removeEntity_p. body_tac. Qed.
#[local] Hint Resolve BodyOK_setHead BodyOK_removeEntity : bodyok.
Lemma BodyOK_moveToHead e : BodyOK false (moveToHead_p (K:=K) (V:=V) e).
Proof. unfold moveToHead_p. body_tac. Qed.
Lemma BodyOK_clear : BodyOK false (clear_p (K:=K) (V:=V)).
Proof. unfold clear_p. body_tac. Qed.
Lemma BodyOK_evictEntity e : BodyOK false (evictEntity_p (K:=K) (V:=V) e).
Proof. unfold evictEntity_p. body_tac. Qed.
#[local] Hint Resolve BodyOK_moveToHead BodyOK_clear BodyOK_evictEntity : bodyok.
Lemma BodyOK_putEntity e : BodyOK false (putEntity_p (K:=K) (V:=V) e).
Proof. unfold putEntity_p. body_tac. Qed.
#[local] Hint Resolve BodyOK_putEntity : bodyok.

Lemma BodyOK_Put_body k v : BodyOK false (Put_body k v).
Proof. unfold Put_body. body_tac. Qed.
Lemma BodyOK_PutIfAbsent_body k v : BodyOK false (PutIfAbsent_body k v).
Proof. unfold PutIfAbsent_body. body_tac. Qed.
Lemma BodyOK_Get_body k : BodyOK false (Get_body zero k).
Proof. unfold Get_body. body_tac. Qed.
Lemma BodyOK_Evict_body k : BodyOK false (Evict_body zero k).
Proof. unfold Evict_body. body_tac. Qed.
Lemma BodyOK_Clear_body : BodyOK false (Clear_body (K:=K) (V:=V)).
Proof. unfold Clear_body. body_tac. Qed.

(** The readers' critical sections leave the cache as it is. *)
Lemma BodyOK_Size_body : BodyOK true (Size_body (K:=K) (V:=V)).
Proof. unfold Size_body. body_tac. Qed.
Lemma BodyOK_copy_loop kes r : BodyOK true (copy_loop_p (K:=K) (V:=V) kes r).
Proof. revert r. induction kes as [|[k e] kes IH]; intros r; simpl; body_tac. Qed.
#[local] Hint Resolve BodyOK_copy_loop : bodyok.
Lemma BodyOK_Copy_body : BodyOK true (Copy_body (K:=K) (V:=V)).
Proof. unfold Copy_body. body_tac. Qed.
Lemma BodyOK_String_body : BodyOK true (String_body (K:=K) (V:=V)).
Proof. unfold String_body. body_tac. Qed.

(** The goroutine of each call: the lock it takes and its critical
    section. *)
Lemma call_thread_shape (c : call) :
  exists k0,
    (is_reader c = false /\ call_thread zero c = TLock k0 /\ seg_t false (wend c) k0) \/
    (is_reader c = true /\ call_thread zero c = TRLock k0 /\ seg_t true rend k0).
Proof.
  destruct c as [k v|k v|k|k| | | |].
  - eexists. left. split; [reflexivity|]. split; [reflexivity|].
    apply BodyOK_Put_body. intros a. left. eexists. reflexivity.
  - eexists. left. split; [reflexivity|]. split; [reflexivity|].
    apply BodyOK_PutIfAbsent_body. intros a. left. eexists _, _. reflexivity.
  - eexists. left. split; [reflexivity|]. split; [reflexivity|].
    apply BodyOK_Get_body. intros a. left. eexists. reflexivity.
  - eexists. left. split; [reflexivity|]. split; [reflexivity|].
    apply BodyOK_Evict_body. intros a. left. eexists. reflexivity.
  - eexists. left. split; [reflexivity|]. split; [reflexivity|].
    apply BodyOK_Clear_body. intros a. left. eexists. reflexivity.
  - eexists. right. split; [reflexivity|]. split; [reflexivity|].
    apply BodyOK_Size_body. intros a. left. eexists. reflexivity.
  - eexists. right. split; [reflexivity|]. split; [reflexivity|].
    apply BodyOK_Copy_body. intros a. left. eexists. reflexivity.
  - eexists. right. split; [reflexivity|]. split; [reflexivity|].
    apply BodyOK_String_body. intros a. left. eexists. reflexivity.
Qed.

(** Run alone on a well-formed cache, a call does not panic and leaves a
    well-formed cache; the readers leave it as it is. *)
Lemma call_M_inv (c : call) (s : LRU) ls :
  Inv s ls ->
  exists r s' ls', call_M zero c s = Some (r, s') /\ Inv s' ls' /\
    (is_reader c = true -> s' = s).
Proof.
  intros HI.
  assert (Hfin : forall (r : res) s' ls', Inv s' ls' -> s' = s \/ is_reader c = false ->
            Some (r, s') = Some (r, s') /\ Inv s' ls' /\ (is_reader c = true -> s' = s)).
  { intros r s' ls' HI' [->|Hr]; split; auto. rewrite Hr. split; [assumption|discriminate]. }
  destruct c as [k v|k v|k|k| | | |]; simpl.
  - destruct (Put_ref s ls k v HI) as (s' & ls' & Hrun & HI' & _).
    exists RUnit, s', ls'. rewrite (bind_ok _ _ _ _ _ Hrun). apply Hfin; auto.
  - destruct (PutIfAbsent_ref s ls k v HI) as (s' & ls' & Hrun & HI' & _).
    eexists _, s', ls'. rewrite (bind_ok _ _ _ _ _ Hrun). apply Hfin; auto.
  - destruct (Get_ref zero s ls k HI) as (s' & ls' & Hrun & HI' & _).
    eexists _, s', ls'. rewrite (bind_ok _ _ _ _ _ Hrun). apply Hfin; auto.
  - destruct (Evict_ref zero s ls k HI) as (s' & ls' & Hrun & HI' & _).
    eexists _, s', ls'. rewrite (bind_ok _ _ _ _ _ Hrun). apply Hfin; auto.
  - eexists RUnit, _, []. rewrite (bind_ok _ _ _ _ _ (Clear_run s)).
    apply Hfin; [exact (Clear_inv s ls HI)|auto].
  - eexists _, s, ls. rewrite (bind_ok _ _ _ _ _ (Size_run s)). apply Hfin; auto.
  - destruct (Copy_spec s ls HI) as (r & Hrun & _).
    eexists _, s, ls. rewrite (bind_ok _ _ _ _ _ Hrun). apply Hfin; auto.
  - eexists _, s, ls. apply Hfin; auto.
Qed.

Lemma run_calls_snoc (l : list call) c s rs s1 r s2 :
  run_calls zero l s = Some (rs, s1) -> call_M zero c s1 = Some (r, s2) ->
  run_calls zero (l ++ [c]) s = Some (rs ++ [r], s2).
Proof.
  revert s rs. induction l as [|c0 l IH]; intros s rs Hl Hc; simpl in *.
  - unfold ret in Hl. injection Hl as <- <-.
    rewrite (bind_ok _ _ _ _ _ Hc). reflexivity.
  - unfold bind in Hl |- *. destruct (call_M zero c0 s) as [[r0 s0]|]; [|discriminate].
    destruct (run_calls zero l s0) as [[rs0 s3]|] eqn:E; [|discriminate].
    unfold ret in Hl. injection Hl as <- <-.
    rewrite (IH s0 rs0 E Hc). reflexivity.
Qed.

(** *** The invariant of an interleaved run

    Each goroutine is in a phase: not started, holding [mu] for writing,
    holding it for reading, past the [Unlock] of [PutIfAbsent] (only its
    read of [entity.value] left), or done.  The calls that took [mu] are
    listed in the order they took it, with the result of running them
    one after another: this serial run reaches the cache [sL]. *)
Inductive phase : Type := PNS | PW | PR | PPost | PDone.

Definition isW (p : phase) : bool := match p with PW => true | _ => false end.
Definition isR (p : phase) : bool := match p with PR => true | _ => false end.

Fixpoint cnt (f : phase -> bool) (l : list phase) : nat :=
  match l with [] => 0 | p :: l => (if f p then 1 else 0) + cnt f l end.

Definition phase_ok (s sL : LRU) (L : list (nat * (call * res))) (i : nat) (c : call)
    (t : thread) (p : phase) : Prop :=
  match p with
  | PNS => t = call_thread zero c /\ i ∉ L.*1
  | PW => is_reader c = false /\ seg_t false (wend c) t /\
          exists r, (i, (c, r)) ∈ L /\ exec t s = Some (r, sL)
  | PR => is_reader c = true /\ seg_t true rend t /\
          exists r, (i, (c, r)) ∈ L /\ exec t s = Some (r, s)
  | PPost => is_pia c = true /\ i ∈ L.*1 /\
          exists l b, is_Some (mem s !! l) /\
            t = TPrim (load l) (fun e => TDone (RBoolV (b, value e)))
  | PDone => i ∈ L.*1 /\ exists r, t = TDone r /\ (is_pia c = false -> (i, (c, r)) ∈ L)
  end.

Record INV (s0 : LRU) (cs : list call) (C : conf) (ph : list phase)
    (L : list (nat * (call * res))) (sL : LRU) (ls : list loc) : Prop := {
  ci_len_ph : length ph = length cs;
  ci_len_ths : length (ths C) = length cs;
  ci_serial : run_calls zero (L.*2).*1 s0 = Some ((L.*2).*2, sL);
  ci_inv : Inv sL ls;
  ci_nodup : NoDup L.*1;
  ci_calls : forall i cr, (i, cr) ∈ L -> cs !! i = Some cr.1;
  ci_lock : lk C = mkLock (negb (cnt isW ph =? 0)) (cnt isR ph);
  ci_one_writer : cnt isW ph <= 1;
  ci_excl : cnt isW ph = 1 -> cnt isR ph = 0;
  ci_free : cnt isW ph = 0 -> cst C = sL;
  ci_phases : forall i c t p, cs !! i = Some c -> ths C !! i = Some t -> ph !! i = Some p ->
    phase_ok (cst C) sL L i c t p
}.

Lemma cnt_insert f l j p p' :
  l !! j = Some p ->
  cnt f (<[j := p']> l) + (if f p then 1 else 0) = cnt f l + (if f p' then 1 else 0).
Proof.
  revert j. induction l as [|q l IH]; intros [|j] Hj; simpl in *; try discriminate.
  - injection Hj as ->. lia.
  - specialize (IH j Hj). lia.
Qed.

Lemma cnt_pos f l j p : l !! j = Some p -> f p = true -> 1 <= cnt f l.
Proof.
  revert j. induction l as [|q l IH]; intros [|j] Hj Hf; simpl in *; try discriminate.
  - injection Hj as ->. rewrite Hf. lia.
  - specialize (IH j Hj Hf). lia.
Qed.

Lemma cnt_zero f l j p : cnt f l = 0 -> l !! j = Some p -> f p = false.
Proof.
  intros H0 Hj. destruct (f p) eqn:Hf; [|reflexivity].
  pose proof (cnt_pos f l j p Hj Hf). lia.
Qed.

Lemma cnt_unique f l i j p q :
  cnt f l <= 1 -> l !! i = Some p -> l !! j = Some q -> f p = true -> f q = true -> i = j.
Proof.
  revert i j. induction l as [|x l IH]; intros [|i] [|j] Hc Hi Hj Hp Hq; simpl in *;
    try discriminate; try reflexivity.
  - injection Hi as ->. rewrite Hp in Hc. pose proof (cnt_pos f l j q Hj Hq). lia.
  - injection Hj as ->. rewrite Hq in Hc. pose proof (cnt_pos f l i p Hi Hp). lia.
  - f_equal. apply (IH i j); auto. destruct (f x); lia.
Qed.

Lemma cnt_exists f l : 1 <= cnt f l -> exists j p, l !! j = Some p /\ f p = true.
Proof.
  induction l as [|q l IH]; simpl; intros Hc; [lia|].
  destruct (f q) eqn:Hf.
  - exists 0, q. auto.
  - destruct (IH ltac:(lia)) as (j & p & Hj & Hp). exists (S j), p. auto.
Qed.

Lemma cnt_replicate f n p : f p = false -> cnt f (replicate n p) = 0.
Proof. intros Hf. induction n as [|n IH]; simpl; [reflexivity|]. rewrite Hf, IH. reflexivity. Qed.

Lemma wend_shape (c : call) t : wend c t -> exists k, t = TUnlock k.
Proof.
  intros Hw. destruct c; simpl in Hw;
    repeat match goal with H : exists _, _ |- _ => destruct H end; subst; eauto.
Qed.

Lemma wend_cases (c : call) k :
  wend c (TUnlock k) ->
  (is_pia c = false /\ exists r, k = TDone r) \/
  (is_pia c = true /\ exists l b, k = TPrim (load l) (fun e => TDone (RBoolV (b, value e)))).
Proof.
  destruct c; simpl; intros Hw;
    try (left; split; [reflexivity|]; destruct Hw as [r Hr]; injection Hr as ->; eauto).
  right. split; [reflexivity|]. destruct Hw as (l & b & Hr). injection Hr as ->. eauto.
Qed.

Lemma elem_of_fst_mono (L L' : list (nat * (call * res))) i :
  (forall x, x ∈ L -> x ∈ L') -> i ∈ L.*1 -> i ∈ L'.*1.
Proof.
  intros Hs Hi. apply list_elem_of_fmap in Hi as (x & -> & Hx).
  apply list_elem_of_fmap. eauto.
Qed.

Lemma phase_ok_frame s s' sL sL' L L' i c t p :
  (isW p = true -> s' = s /\ sL' = sL) -> (isR p = true -> s' = s) ->
  (forall l, is_Some (mem s !! l) -> is_Some (mem s' !! l)) ->
  (forall x, x ∈ L -> x ∈ L') -> (i ∉ L.*1 -> i ∉ L'.*1) ->
  phase_ok s sL L i c t p -> phase_ok s' sL' L' i c t p.
Proof.
  intros HW HR Hm HL Hn Hp. destruct p; simpl in *.
  - destruct Hp as [-> Hi]. auto.
  - destruct (HW eq_refl) as [-> ->]. destruct Hp as (Hr & Hs & r & Hin & He).
    split; [exact Hr|]. split; [exact Hs|]. eauto.
  - rewrite (HR eq_refl). destruct Hp as (Hr & Hs & r & Hin & He).
    split; [exact Hr|]. split; [exact Hs|]. eauto.
  - destruct Hp as (Hpia & Hi & l & b & Hl & ->). split; [exact Hpia|].
    split; [exact (elem_of_fst_mono L L' i HL Hi)|]. eauto.
  - destruct Hp as (Hi & r & -> & Hr). split; [exact (elem_of_fst_mono L L' i HL Hi)|].
    eauto.
Qed.

Lemma INV_upd s0 cs C ph L sL ls j p' s' l' t' L' sL' ls' :
  INV s0 cs C ph L sL ls -> j < length cs ->
  (forall i c t p, i <> j -> cs !! i = Some c -> ths C !! i = Some t -> ph !! i = Some p ->
     phase_ok (cst C) sL L i c t p -> phase_ok s' sL' L' i c t p) ->
  (forall c, cs !! j = Some c -> phase_ok s' sL' L' j c t' p') ->
  run_calls zero (L'.*2).*1 s0 = Some ((L'.*2).*2, sL') -> Inv sL' ls' ->
  NoDup L'.*1 -> (forall i cr, (i, cr) ∈ L' -> cs !! i = Some cr.1) ->
  l' = mkLock (negb (cnt isW (<[j := p']> ph) =? 0)) (cnt isR (<[j := p']> ph)) ->
  cnt isW (<[j := p']> ph) <= 1 ->
  (cnt isW (<[j := p']> ph) = 1 -> cnt isR (<[j := p']> ph) = 0) ->
  (cnt isW (<[j := p']> ph) = 0 -> s' = sL') ->
  INV s0 cs (mkConf s' l' (<[j := t']> (ths C))) (<[j := p']> ph) L' sL' ls'.
Proof.
  intros HI Hj Hoth Hme Hser Hinv Hnd Hcalls Hl H1 H2 H3.
  destruct HI as [Hlp Hlt _ _ _ _ _ _ _ _ Hph].
  constructor; simpl; auto.
  - rewrite length_insert. exact Hlp.
  - rewrite length_insert. exact Hlt.
  - intros i c t p Hc Ht Hp. destruct (decide (i = j)) as [->|Hne].
    + rewrite list_lookup_insert_eq in Ht by lia. injection Ht as <-.
      rewrite list_lookup_insert_eq in Hp by lia. injection Hp as <-. auto.
    + rewrite list_lookup_insert_ne in Ht by congruence.
      rewrite list_lookup_insert_ne in Hp by congruence.
      eapply Hoth; eauto.
Qed.

Lemma NoDup_snoc_fst (L : list (nat * (call * res))) x :
  NoDup L.*1 -> x.1 ∉ L.*1 -> NoDup (L ++ [x]).*1.
Proof.
  intros Hnd Hx. rewrite fmap_app. simpl. apply NoDup_app. split; [exact Hnd|].
  split; [|apply NoDup_singleton]. intros y Hy Hy'. apply list_elem_of_singleton in Hy'.
  subst. contradiction.
Qed.

Lemma in_snoc_fst (L : list (nat * (call * res))) x i :
  i ∉ L.*1 -> i <> x.1 -> i ∉ (L ++ [x]).*1.
Proof.
  intros Hi Hx. rewrite fmap_app. simpl. rewrite elem_of_app, list_elem_of_singleton. tauto.
Qed.

Ltac cnt_facts j p p' Hp :=
  pose proof (cnt_insert isW _ j p p' Hp);
  pose proof (cnt_insert isR _ j p p' Hp); simpl in *.

(** Every step keeps the invariant. *)
Lemma INV_step s0 cs C C' ph L sL ls :
  INV s0 cs C ph L sL ls -> step C C' -> exists ph' L' sL' ls', INV s0 cs C' ph' L' sL' ls'.
Proof.
  intros HI Hst. destruct Hst as [C j t s' l' t' Ht Hnext].
  pose proof HI as HI0.
  destruct HI as [Hlp Hlt Hser Hinv Hnd Hcalls Hlk Hw1 Hex Hfree Hph].
  assert (Hj : j < length cs) by (rewrite <- Hlt; eapply lookup_lt_Some; eauto).
  destruct (lookup_lt_is_Some_2 cs j Hj) as [c Hc].
  destruct (lookup_lt_is_Some_2 ph j ltac:(lia)) as [p Hp].
  pose proof (Hph j c t p Hc Ht Hp) as Hpo.
  assert (Hsame : forall c', cs !! j = Some c' -> c' = c) by congruence.
  destruct p; simpl in Hpo.
  - (* a goroutine takes [mu] *)
    destruct Hpo as [-> HnL].
    destruct (call_thread_shape c) as (k0 & [(Hrd & Hct & Hseg) | (Hrd & Hct & Hseg)]);
      rewrite Hct in Hnext; simpl in Hnext; rewrite Hlk in Hnext; simpl in Hnext.
    + destruct (cnt isW ph) as [|nw] eqn:EW; simpl in Hnext; [|discriminate].
      destruct (cnt isR ph) as [|nr] eqn:ER; simpl in Hnext; [|discriminate].
      injection Hnext as <- <- <-.
      pose proof (Hfree eq_refl) as Hs.
      destruct (call_M_inv c sL ls Hinv) as (r & s1 & ls1 & Hrun & Hinv1 & _).
      exists (<[j := PW]> ph), (L ++ [(j, (c, r))]), s1, ls1.
      cnt_facts j PNS PW Hp.
      apply (INV_upd _ _ _ _ _ _ _ _ _ _ _ _ _ _ _ HI0 Hj).
      * intros i ci ti pi Hne Hci Hti Hpi. apply phase_ok_frame.
        -- intros Hw. rewrite (cnt_zero isW ph i pi EW Hpi) in Hw. discriminate.
        -- intros Hr. rewrite (cnt_zero isR ph i pi ER Hpi) in Hr. discriminate.
        -- auto.
        -- intros x Hx. apply elem_of_app. auto.
        -- intros Hi. apply in_snoc_fst; auto.
      * intros c' Hc'. rewrite (Hsame c' Hc'). simpl. split; [exact Hrd|].
        split; [exact Hseg|]. exists r. split; [apply elem_of_app; right; apply list_elem_of_singleton; reflexivity|].
        change (exec k0 (cst C)) with (exec (TLock k0) (cst C)). rewrite <- Hct, exec_call, Hs.
        exact Hrun.
      * rewrite !fmap_app. simpl. exact (run_calls_snoc _ _ _ _ _ _ _ Hser Hrun).
      * exact Hinv1.
      * apply NoDup_snoc_fst; auto.
      * intros i cr Hin. apply elem_of_app in Hin as [Hin|Hin]; [auto|].
        apply list_elem_of_singleton in Hin. injection Hin as -> ->. exact Hc.
      * f_equal; [|lia]. replace (cnt isW (<[j:=PW]> ph)) with 1 by lia. reflexivity.
      * lia.
      * lia.
      * lia.
    + destruct (cnt isW ph) as [|nw] eqn:EW; simpl in Hnext; [|discriminate].
      injection Hnext as <- <- <-.
      pose proof (Hfree eq_refl) as Hs.
      destruct (call_M_inv c sL ls Hinv) as (r & s1 & ls1 & Hrun & Hinv1 & Hro).
      rewrite (Hro Hrd) in Hrun.
      exists (<[j := PR]> ph), (L ++ [(j, (c, r))]), sL, ls.
      cnt_facts j PNS PR Hp.
      apply (INV_upd _ _ _ _ _ _ _ _ _ _ _ _ _ _ _ HI0 Hj).
      * intros i ci ti pi Hne Hci Hti Hpi. apply phase_ok_frame.
        -- intros Hw. rewrite (cnt_zero isW ph i pi EW Hpi) in Hw. discriminate.
        -- auto.
        -- auto.
        -- intros x Hx. apply elem_of_app. auto.
        -- intros Hi. apply in_snoc_fst; auto.
      * intros c' Hc'. rewrite (Hsame c' Hc'). simpl. split; [exact Hrd|].
        split; [exact Hseg|]. exists r. split; [apply elem_of_app; right; apply list_elem_of_singleton; reflexivity|].
        change (exec k0 (cst C)) with (exec (TRLock k0) (cst C)). rewrite <- Hct, exec_call, Hs.
        exact Hrun.
      * rewrite !fmap_app. simpl. exact (run_calls_snoc _ _ _ _ _ _ _ Hser Hrun).
      * exact Hinv.
      * apply NoDup_snoc_fst; auto.
      * intros i cr Hin. apply elem_of_app in Hin as [Hin|Hin]; [auto|].
        apply list_elem_of_singleton in Hin. injection Hin as -> ->. exact Hc.
      * f_equal; [|lia]. replace (cnt isW (<[j:=PR]> ph)) with 0 by lia. reflexivity.
      * lia.
      * lia.
      * intros _. exact Hs.
  - (* the writer *)
    destruct Hpo as (Hrd & Hseg & r & HinL & Hexec).
    assert (EW : cnt isW ph = 1) by (pose proof (cnt_pos isW ph j PW Hp eq_refl); lia).
    pose proof (Hex EW) as ER.
    assert (Hoth : forall i pi, i <> j -> ph !! i = Some pi -> isW pi = false /\ isR pi = false).
    { intros i pi Hne Hpi. split.
      - destruct (isW pi) eqn:E; [|reflexivity].
        exfalso. apply Hne. exact (cnt_unique isW ph i j pi PW ltac:(lia) Hpi Hp E eq_refl).
      - exact (cnt_zero isR ph i pi ER Hpi). }
    destruct t as [r0|X m k|k|k|k|k]; simpl in Hnext.
    + discriminate.
    + destruct (m (cst C)) as [[x s1]|] eqn:Em; [|discriminate]. injection Hnext as <- <- <-.
      destruct Hseg as [Hw|[Hok Hk]]; [destruct (wend_shape c _ Hw) as [? ?]; discriminate|].
      simpl in Hexec. rewrite Em in Hexec.
      exists (<[j := PW]> ph), L, sL, ls.
      cnt_facts j PW PW Hp.
      apply (INV_upd _ _ _ _ _ _ _ _ _ _ _ _ _ _ _ HI0 Hj); auto.
      * intros i ci ti pi Hne Hci Hti Hpi. destruct (Hoth i pi Hne Hpi) as [HW HR].
        apply phase_ok_frame; auto.
        -- rewrite HW. discriminate.
        -- rewrite HR. discriminate.
        -- intros l0. apply (proj2 (Hok _ _ _ Em)).
      * intros c' Hc'. rewrite (Hsame c' Hc'). simpl. split; [exact Hrd|].
        split; [apply Hk|]. exists r. auto.
      * rewrite Hlk. f_equal; [do 2 f_equal; lia|lia].
      * lia.
      * lia.
      * lia.
    + destruct Hseg as [Hw|[]]. destruct (wend_shape c _ Hw) as [? ?]; discriminate.
    + rewrite Hlk, EW in Hnext. simpl in Hnext. injection Hnext as <- <- <-.
      destruct Hseg as [Hw|[]].
      destruct (wend_cases c k Hw) as [(Hpia & r' & ->) | (Hpia & l0 & b & ->)].
      * simpl in Hexec. injection Hexec as -> Hs.
        exists (<[j := PDone]> ph), L, sL, ls.
        cnt_facts j PW PDone Hp.
        apply (INV_upd _ _ _ _ _ _ _ _ _ _ _ _ _ _ _ HI0 Hj); auto.
        -- intros c' Hc'. rewrite (Hsame c' Hc'). simpl.
           split; [apply list_elem_of_fmap; exists (j, (c, r)); auto|]. eauto.
        -- f_equal; [|lia]. replace (cnt isW (<[j:=PDone]> ph)) with 0 by lia. reflexivity.
        -- lia.
        -- lia.
      * simpl in Hexec. unfold load in Hexec.
        destruct (mem (cst C) !! l0) as [e|] eqn:He; [|discriminate].
        injection Hexec as _ Hs.
        exists (<[j := PPost]> ph), L, sL, ls.
        cnt_facts j PW PPost Hp.
        apply (INV_upd _ _ _ _ _ _ _ _ _ _ _ _ _ _ _ HI0 Hj); auto.
        -- intros c' Hc'. rewrite (Hsame c' Hc'). simpl. split; [exact Hpia|].
           split; [apply list_elem_of_fmap; exists (j, (c, r)); auto|].
           exists l0, b. split; [rewrite He; eauto|reflexivity].
        -- f_equal; [|lia]. replace (cnt isW (<[j:=PPost]> ph)) with 0 by lia. reflexivity.
        -- lia.
        -- lia.
    + destruct Hseg as [Hw|[]]. destruct (wend_shape c _ Hw) as [? ?]; discriminate.
    + destruct Hseg as [Hw|[]]. destruct (wend_shape c _ Hw) as [? ?]; discriminate.
  - (* a reader *)
    destruct Hpo as (Hrd & Hseg & r & HinL & Hexec).
    pose proof (cnt_pos isR ph j PR Hp eq_refl) as HR1.
    assert (EW : cnt isW ph = 0) by (destruct (cnt isW ph) as [|[|]] eqn:E; [reflexivity|specialize (Hex eq_refl); lia|lia]).
    assert (Hoth : forall i pi, ph !! i = Some pi -> isW pi = false).
    { intros i pi Hpi. exact (cnt_zero isW ph i pi EW Hpi). }
    destruct t as [r0|X m k|k|k|k|k]; simpl in Hnext.
    + discriminate.
    + destruct (m (cst C)) as [[x s1]|] eqn:Em; [|discriminate]. injection Hnext as <- <- <-.
      destruct Hseg as [Hw|[Hok Hk]]; [destruct Hw as [? ?]; discriminate|].
      pose proof (proj1 (Hok _ _ _ Em) eq_refl) as ->.
      simpl in Hexec. rewrite Em in Hexec.
      exists (<[j := PR]> ph), L, sL, ls.
      cnt_facts j PR PR Hp.
      apply (INV_upd _ _ _ _ _ _ _ _ _ _ _ _ _ _ _ HI0 Hj); auto.
      * intros c' Hc'. rewrite (Hsame c' Hc'). simpl. split; [exact Hrd|].
        split; [apply Hk|]. exists r. auto.
      * rewrite Hlk. f_equal; [do 2 f_equal; lia|lia].
      * lia.
      * lia.
    + destruct Hseg as [Hw|[]]. destruct Hw as [? ?]; discriminate.
    + destruct Hseg as [Hw|[]]. destruct Hw as [? ?]; discriminate.
    + destruct Hseg as [Hw|[]]. destruct Hw as [? ?]; discriminate.
    + rewrite Hlk in Hnext. simpl in Hnext.
      destruct (cnt isR ph) as [|nr] eqn:ER; [lia|]. injection Hnext as <- <- <-.
      destruct Hseg as [Hw|[]]. destruct Hw as [r' Hr']. injection Hr' as ->.
      simpl in Hexec. injection Hexec as ->.
      exists (<[j := PDone]> ph), L, sL, ls.
      cnt_facts j PR PDone Hp.
      apply (INV_upd _ _ _ _ _ _ _ _ _ _ _ _ _ _ _ HI0 Hj); auto.
      * intros c' Hc'. rewrite (Hsame c' Hc'). simpl.
        split; [apply list_elem_of_fmap; exists (j, (c, r)); auto|]. eauto.
      * f_equal; [do 2 f_equal; lia|lia].
      * lia.
      * lia.
  - (* the read of [entity.value] after [Unlock] in [PutIfAbsent] *)
    destruct Hpo as (Hpia & HiL & l0 & b & [e0 He0] & ->).
    simpl in Hnext. unfold load in Hnext. rewrite He0 in Hnext. injection Hnext as <- <- <-.
    exists (<[j := PDone]> ph), L, sL, ls.
    cnt_facts j PPost PDone Hp.
    apply (INV_upd _ _ _ _ _ _ _ _ _ _ _ _ _ _ _ HI0 Hj); auto.
    + intros c' Hc'. rewrite (Hsame c' Hc'). simpl. split; [exact HiL|].
      eexists. split; [reflexivity|]. rewrite Hpia. discriminate.
    + rewrite Hlk. f_equal; [|lia]. replace (cnt isW (<[j:=PDone]> ph)) with (cnt isW ph) by lia.
      reflexivity.
    + lia.
    + intros E1. pose proof (Hex ltac:(lia)). lia.
    + intros E0. apply Hfree. lia.
  - destruct Hpo as (_ & r & -> & _). discriminate.
Qed.

Lemma lookup_map_threads (cs : list call) i :
  map (call_thread zero) cs !! i = call_thread zero <$> cs !! i.
Proof. revert i. induction cs as [|c cs IH]; intros [|i]; simpl; auto. Qed.

Lemma INV_init s0 ls0 cs :
  Inv s0 ls0 -> INV s0 cs (init zero s0 cs) (replicate (length cs) PNS) [] s0 ls0.
Proof.
  intros HI. constructor; simpl.
  - apply length_replicate.
  - apply length_map.
  - reflexivity.
  - exact HI.
  - constructor.
  - intros i cr Hin. apply elem_of_nil in Hin. contradiction.
  - rewrite !cnt_replicate by reflexivity. reflexivity.
  - rewrite cnt_replicate by reflexivity. lia.
  - rewrite cnt_replicate by reflexivity. discriminate.
  - reflexivity.
  - intros i c t p Hc Ht Hp. apply lookup_replicate in Hp as [-> _]. simpl.
    rewrite lookup_map_threads, Hc in Ht. injection Ht as <-.
    split; [reflexivity|]. apply not_elem_of_nil.
Qed.

Lemma reach_INV s0 ls0 cs C :
  Inv s0 ls0 -> rtc step (init zero s0 cs) C -> exists ph L sL ls, INV s0 cs C ph L sL ls.
Proof.
  intros HI Hr. revert C Hr. apply rtc_ind_r.
  - eexists _, _, _, _. apply INV_init. exact HI.
  - intros C1 C2 _ Hst (ph & L & sL & ls & HI1). eapply INV_step; eauto.
Qed.

Lemma run_sched_sound sch (C C' : conf) : run_sched sch C = Some C' -> rtc step C C'.
Proof.
  revert C. induction sch as [|i sch IH]; intros C E; simpl in E.
  - injection E as ->. apply rtc_refl.
  - unfold step_fn in E. destruct (ths C !! i) as [t|] eqn:Ht; [|discriminate].
    destruct (tnext (cst C) (lk C) t) as [[[s' l'] t']|] eqn:En; [|discriminate].
    eapply rtc_l; [eapply step_at; eauto|]. apply IH. exact E.
Qed.

(** The next access of a goroutine does not panic. *)
Definition can_step (t : thread) (s : LRU) : Prop :=
  match t with TPrim m k => is_Some (m s) | _ => True end.

Lemma exec_can_step t s x : exec t s = Some x -> can_step t s.
Proof.
  destruct t as [r|X m k|k|k|k|k]; simpl; intros E; auto.
  destruct (m s) as [y|] eqn:Em; [eexists; reflexivity|discriminate].
Qed.

Lemma INV_phase s0 cs C ph L sL ls i t :
  INV s0 cs C ph L sL ls -> ths C !! i = Some t ->
  exists c p, cs !! i = Some c /\ ph !! i = Some p /\ phase_ok (cst C) sL L i c t p.
Proof.
  intros HI Ht. pose proof HI as [Hlp Hlt _ _ _ _ _ _ _ _ Hph].
  assert (Hi : i < length cs) by (rewrite <- Hlt; eapply lookup_lt_Some; eauto).
  destruct (lookup_lt_is_Some_2 cs i Hi) as [c Hc].
  destruct (lookup_lt_is_Some_2 ph i ltac:(lia)) as [p Hp].
  exists c, p. eauto.
Qed.

Lemma INV_can_step s0 cs C ph L sL ls i t :
  INV s0 cs C ph L sL ls -> ths C !! i = Some t -> can_step t (cst C).
Proof.
  intros HI Ht. destruct (INV_phase _ _ _ _ _ _ _ _ _ HI Ht) as (c & p & Hc & Hp & Hpo).
  destruct p; simpl in Hpo.
  - destruct Hpo as [-> _].
    destruct (call_thread_shape c) as (k0 & [(_ & -> & _) | (_ & -> & _)]); exact I.
  - destruct Hpo as (_ & _ & r & _ & E). exact (exec_can_step _ _ _ E).
  - destruct Hpo as (_ & _ & r & _ & E). exact (exec_can_step _ _ _ E).
  - destruct Hpo as (_ & _ & l & b & [e He] & ->). simpl. unfold load. rewrite He. eauto.
  - destruct Hpo as (_ & r & -> & _). exact I.
Qed.

Lemma step_of_tnext (C : conf) i t :
  ths C !! i = Some t -> is_Some (tnext (cst C) (lk C) t) -> exists C', step C C'.
Proof. intros Ht [[[s' l'] t'] E]. eexists. eapply step_at; eauto. Qed.

Lemma tnext_prim s l X (m : M X) k : is_Some (m s) -> is_Some (tnext s l (TPrim m k)).
Proof. intros [[x s'] E]. simpl. rewrite E. eauto. Qed.

Lemma INV_thread s0 cs C ph L sL ls i :
  INV s0 cs C ph L sL ls -> i < length cs -> exists t, ths C !! i = Some t.
Proof.
  intros HI Hi. pose proof (ci_len_ths _ _ _ _ _ _ _ HI) as Hlt.
  apply lookup_lt_is_Some_2. lia.
Qed.

(** No deadlock: while a goroutine is not done, some goroutine can step. *)
Lemma INV_progress s0 cs C ph L sL ls i t :
  INV s0 cs C ph L sL ls -> ths C !! i = Some t -> is_done t = false -> exists C', step C C'.
Proof.
  intros HI Ht Hnd. pose proof HI as [Hlp Hlt _ _ _ _ Hlk Hw1 Hex _ _].
  destruct (Nat.eq_dec (cnt isW ph) 0) as [EW|EW].
  - destruct (Nat.eq_dec (cnt isR ph) 0) as [ER|ER].
    + destruct (INV_phase _ _ _ _ _ _ _ _ _ HI Ht) as (c & p & Hc & Hp & Hpo).
      pose proof (INV_can_step _ _ _ _ _ _ _ _ _ HI Ht) as Hcs.
      destruct p; simpl in Hpo.
      * destruct Hpo as [-> _]. apply (step_of_tnext C i _ Ht).
        destruct (call_thread_shape c) as (k0 & [(_ & -> & _) | (_ & -> & _)]);
          simpl; rewrite Hlk, EW, ER; simpl; eauto.
      * pose proof (cnt_zero isW ph i PW EW Hp). discriminate.
      * pose proof (cnt_zero isR ph i PR ER Hp). discriminate.
      * destruct Hpo as (_ & _ & l & b & _ & ->). apply (step_of_tnext C i _ Ht).
        apply tnext_prim. exact Hcs.
      * destruct Hpo as (_ & r & -> & _). discriminate.
    + destruct (cnt_exists isR ph ltac:(lia)) as (j & p & Hp & HR).
      destruct p; try discriminate.
      assert (Hj : j < length cs) by (rewrite <- Hlp; eapply lookup_lt_Some; eauto).
      destruct (INV_thread _ _ _ _ _ _ _ j HI Hj) as [tj Htj].
      destruct (INV_phase _ _ _ _ _ _ _ _ _ HI Htj) as (c & p & Hc & Hp' & Hpo).
      rewrite Hp in Hp'. injection Hp' as <-. simpl in Hpo.
      destruct Hpo as (_ & Hseg & _).
      pose proof (INV_can_step _ _ _ _ _ _ _ _ _ HI Htj) as Hcs.
      apply (step_of_tnext C j _ Htj).
      destruct tj as [r|X m k|k|k|k|k]; destruct Hseg as [Hw|Hs];
        try (destruct Hw as [? ?]; discriminate); try contradiction.
      * apply tnext_prim. exact Hcs.
      * simpl. rewrite Hlk. simpl. destruct (cnt isR ph); [lia|eauto].
  - destruct (cnt_exists isW ph ltac:(lia)) as (j & p & Hp & HW).
    destruct p; try discriminate.
    assert (Hj : j < length cs) by (rewrite <- Hlp; eapply lookup_lt_Some; eauto).
    destruct (INV_thread _ _ _ _ _ _ _ j HI Hj) as [tj Htj].
    destruct (INV_phase _ _ _ _ _ _ _ _ _ HI Htj) as (c & p & Hc & Hp' & Hpo).
    rewrite Hp in Hp'. injection Hp' as <-. simpl in Hpo.
    destruct Hpo as (_ & Hseg & _).
    pose proof (INV_can_step _ _ _ _ _ _ _ _ _ HI Htj) as Hcs.
    apply (step_of_tnext C j _ Htj).
    destruct tj as [r|X m k|k|k|k|k]; destruct Hseg as [Hw|Hs];
      try (destruct (wend_shape c _ Hw) as [? ?]; discriminate); try contradiction.
    + apply tnext_prim. exact Hcs.
    + simpl. rewrite Hlk. destruct (cnt isW ph) as [|]; [lia|]. simpl. eauto.
Qed.

Lemma NoDup_fst_eq {A} (L : list (nat * A)) i a b :
  NoDup L.*1 -> (i, a) ∈ L -> (i, b) ∈ L -> a = b.
Proof.
  intros Hnd Ha Hb.
  apply list_elem_of_lookup in Ha as [k1 Hk1]. apply list_elem_of_lookup in Hb as [k2 Hk2].
  assert (k1 = k2) as <-.
  { eapply NoDup_lookup; [exact Hnd| |].
    - rewrite list_lookup_fmap, Hk1. reflexivity.
    - rewrite list_lookup_fmap, Hk2. reflexivity. }
  rewrite Hk1 in Hk2. congruence.
Qed.

Lemma perm_indexed {A} (L : list (nat * A)) (l : list A) :
  NoDup L.*1 -> (forall i a, (i, a) ∈ L <-> l !! i = Some a) -> L.*2 ≡ₚ l.
Proof.
  intros Hnd Hiff.
  assert (HZ : L ≡ₚ zip (seq 0 (length l)) l).
  { apply NoDup_Permutation.
    - exact (NoDup_fmap_1 fst L Hnd).
    - apply (NoDup_fmap_1 fst). rewrite fst_zip by (rewrite length_seq; lia). apply NoDup_seq.
    - intros [i a]. rewrite Hiff, list_elem_of_lookup. split.
      + intros Ha. exists i. rewrite lookup_zip_with.
        assert (Hi : seq 0 (length l) !! i = Some i).
        { apply lookup_seq. split; [lia|]. eapply lookup_lt_Some; eauto. }
        rewrite Hi, Ha. reflexivity.
      + intros [k Hk]. rewrite lookup_zip_with in Hk.
        destruct (seq 0 (length l) !! k) as [i'|] eqn:E1; simpl in Hk; [|discriminate].
        destruct (l !! k) as [a'|] eqn:E2; simpl in Hk; [|discriminate].
        injection Hk as -> ->. apply lookup_seq in E1 as [-> _]. exact E2. }
  rewrite HZ. rewrite snd_zip by (rewrite length_seq; lia). reflexivity.
Qed.

(** When every goroutine is done and none ran [PutIfAbsent], the calls
    ran as in some serial order. *)
Lemma INV_serial s0 cs C ph L sL ls rs :
  INV s0 cs C ph L sL ls -> Forall (fun c => is_pia c = false) cs -> ths C = map TDone rs ->
  exists L', L' ≡ₚ zip cs rs /\ run_calls zero L'.*1 s0 = Some (L'.*2, cst C).
Proof.
  intros HI Hnp Hths. pose proof HI as [Hlp Hlt Hser _ Hnd Hcalls _ Hw1 _ Hfree _].
  assert (Hlen : length rs = length cs) by (rewrite <- Hlt, Hths, length_map; reflexivity).
  assert (Hdone : forall i c r p, cs !! i = Some c -> rs !! i = Some r -> ph !! i = Some p ->
            p = PDone /\ (i, (c, r)) ∈ L).
  { intros i c r p Hc Hr Hp.
    assert (Ht : ths C !! i = Some (TDone r)).
    { rewrite Hths. clear -Hr. revert i Hr. induction rs as [|r0 rs IH]; intros [|i] Hr;
        simpl in *; try discriminate; auto. congruence. }
    destruct (INV_phase _ _ _ _ _ _ _ _ _ HI Ht) as (c' & p' & Hc' & Hp' & Hpo).
    rewrite Hc in Hc'. injection Hc' as <-. rewrite Hp in Hp'. injection Hp' as <-.
    destruct p; simpl in Hpo.
    - destruct Hpo as [Hct _].
      destruct (call_thread_shape c) as (k0 & [(_ & Hk & _) | (_ & Hk & _)]); congruence.
    - destruct Hpo as (_ & [Hw|[]] & _). destruct (wend_shape c _ Hw) as [? ?]. discriminate.
    - destruct Hpo as (_ & [[? Hw]|[]] & _). discriminate.
    - destruct Hpo as (_ & _ & l & b & _ & Hw). discriminate.
    - destruct Hpo as (_ & r' & Hr' & Hin). injection Hr' as <-. split; [reflexivity|].
      apply Hin. rewrite Forall_lookup in Hnp. exact (Hnp i c Hc). }
  assert (EW : cnt isW ph = 0).
  { destruct (Nat.eq_dec (cnt isW ph) 0) as [E|E]; [exact E|].
    destruct (cnt_exists isW ph ltac:(lia)) as (j & p & Hp & HW).
    assert (Hj : j < length cs) by (rewrite <- Hlp; eapply lookup_lt_Some; eauto).
    destruct (lookup_lt_is_Some_2 cs j Hj) as [c Hc].
    destruct (lookup_lt_is_Some_2 rs j ltac:(lia)) as [r Hr].
    destruct (Hdone j c r p Hc Hr Hp) as [-> _]. discriminate. }
  exists L.*2. split.
  - apply perm_indexed; [exact Hnd|]. intros i [c r]. split.
    + intros Hin. pose proof (Hcalls i (c, r) Hin) as Hc. simpl in Hc.
      assert (Hi : i < length cs) by (eapply lookup_lt_Some; eauto).
      destruct (lookup_lt_is_Some_2 rs i ltac:(lia)) as [r' Hr'].
      destruct (lookup_lt_is_Some_2 ph i ltac:(lia)) as [p Hp].
      destruct (Hdone i c r' p Hc Hr' Hp) as [_ Hin'].
      pose proof (NoDup_fst_eq L i _ _ Hnd Hin Hin') as E. injection E as ->.
      rewrite lookup_zip_with, Hc, Hr'. reflexivity.
    + intros Hz. rewrite lookup_zip_with in Hz.
      destruct (cs !! i) as [c'|] eqn:Hc; simpl in Hz; [|discriminate].
      destruct (rs !! i) as [r'|] eqn:Hr; simpl in Hz; [|discriminate].
      injection Hz as -> ->.
      assert (Hi : i < length cs) by (eapply lookup_lt_Some; eauto).
      destruct (lookup_lt_is_Some_2 ph i ltac:(lia)) as [p Hp].
      exact (proj2 (Hdone i c r p Hc Hr Hp)).
  - rewrite (Hfree EW). exact Hser.
Qed.

End LRUConcProofs.


(** Example run of [LRU_concurrent_calls]: [Size] holds the read lock
    first, then [Put(1, 5)] and [Get(1)] each hold the write lock; the
    results are those of a serial run. *)
Definition witness_calls : list (call (K:=nat) (V:=nat)) := [CPut 1 5; CGet 1; CSize].

Definition witness_sched : list nat := [2; 2; 2] ++ repeat 0 14 ++ repeat 1 5.

Definition witness_conf : conf (K:=nat) (V:=nat) :=
  match run_sched witness_sched (init 0 (NewLRU 2) witness_calls) with
  | Some C => C
  | None => init 0 (NewLRU 2) witness_calls
  end.


Module CollectionsProofs.
Import Collections.

Section ListProofs.
Context {T : Type} (zero : T).
Local Abbreviation CL := (ConcurrentLinkedList (T:=T)).

Lemma seek_spec (c : CL) p ls n :
  seg prev next (items c) p ls None -> n < length ls ->
  exists l, ls !! n = Some l /\ seek n (first_or ls None) c = Some (Some l, c).
Proof.
  revert p n. induction ls as [|x r IH]; intros p n Hs Hn; simpl in *; [lia|].
  destruct Hs as (e & He & _ & Hnx & Hs).
  destruct n as [|n'].
  - exists x. split; reflexivity.
  - destruct (IH (Some x) n' Hs ltac:(lia)) as (l & Hl & Hseek).
    exists l. split; [exact Hl|].
    cbn [seek]. unfold bind, load. rewrite He, Hnx. exact Hseek.
Qed.

Lemma getByIndex_out (c : CL) index :
  (index < 0 \/ size c <= index)%Z ->
  getByIndex index c = Some ((None, Some ErrIndexOutOfRange), c).
Proof.
  intros Hout. unfold getByIndex, bind, get_size.
  replace ((0 <=? index) && (index <? size c))%Z with false; [reflexivity|].
  symmetry. apply andb_false_iff.
  destruct Hout; [left; apply Z.leb_gt | right; apply Z.ltb_ge]; lia.
Qed.

Lemma getByIndex_in (c : CL) ls index :
  ListInv c ls -> (0 <= index < size c)%Z ->
  exists l, ls !! Z.to_nat index = Some l /\
    getByIndex index c = Some ((Some l, None), c).
Proof.
  intros HI Hin.
  destruct (seek_spec c None ls (Z.to_nat index) (linv_seg _ _ HI))
    as (l & Hl & Hseek).
  { pose proof (linv_size _ _ HI). lia. }
  exists l. split; [exact Hl|].
  unfold getByIndex, bind, get_size, get_first.
  replace ((0 <=? index) && (index <? size c))%Z with true
    by (symmetry; apply andb_true_iff; split; [apply Z.leb_le | apply Z.ltb_lt]; lia).
  rewrite (linv_first _ _ HI).
  replace (head ls) with (first_or ls None) by (destruct ls; reflexivity).
  rewrite Hseek. reflexivity.
Qed.
Lemma lbind_ok {A B} (m : M A) (f : A -> M B) (c : CL) a c' :
  m c = Some (a, c') -> bind m f c = f a c'.
Proof. intros E. unfold bind. rewrite E. reflexivity. Qed.

Lemma lload_ok (c : CL) l it : items c !! l = Some it -> load l c = Some (it, c).
Proof. intros E. unfold load. rewrite E. reflexivity. Qed.

Lemma lset_next_ok (c : CL) l n it :
  items c !! l = Some it ->
  set_next l n c =
    Some (tt, mkList (<[l := mkItem (prev it) n (value it)]> (items c)) (first c) (last c) (size c)).
Proof. intros E. unfold set_next, bind, load, store. rewrite E. simpl. rewrite E. reflexivity. Qed.

Lemma lset_prev_ok (c : CL) l p it :
  items c !! l = Some it ->
  set_prev l p c =
    Some (tt, mkList (<[l := mkItem p (next it) (value it)]> (items c)) (first c) (last c) (size c)).
Proof. intros E. unfold set_prev, bind, load, store. rewrite E. simpl. rewrite E. reflexivity. Qed.

Ltac lk := simpl; repeat first [rewrite lookup_insert_eq | rewrite lookup_insert_ne by congruence];
  first [eassumption | reflexivity].

Lemma lbind_assoc {A B C} (m : M A) (g : A -> M B) (f : B -> M C) (c : CL) :
  bind (bind m g) f c = bind m (fun a => bind (g a) f) c.
Proof. unfold bind. destruct (m c) as [[a c']|]; reflexivity. Qed.

Ltac lstep :=
  repeat rewrite lbind_assoc; cbv beta zeta;
  lazymatch goal with
  | |- bind ?m ?f ?c = _ =>
      erewrite (lbind_ok m f c)
        by first [ eapply lload_ok; lk | eapply lset_next_ok; lk
                 | eapply lset_prev_ok; lk | reflexivity ];
      cbv beta
  end.

Lemma removeYourself_ok (c : CL) l it :
  items c !! l = Some it ->
  (forall q, prev it = Some q -> q <> l /\ is_Some (items c !! q)) ->
  (forall m, next it = Some m -> m <> l /\ is_Some (items c !! m)) ->
  exists h', removeYourself l c = Some (tt, mkList h' (first c) (last c) (size c)) /\
    h' !! l = Some it.
Proof.
  intros Hl Hq Hm. destruct c as [h f la sz]; simpl in *.
  destruct (prev it) as [q|] eqn:Hp; destruct (next it) as [m|] eqn:Hn.
  - destruct (Hq q eq_refl) as [Hql [iq Hiq]]. destruct (Hm m eq_refl) as [Hml [im Him]].
    destruct (decide (m = q)) as [->|Hmq].
    + eexists. split.
      unfold removeYourself. lstep. rewrite Hp. lstep. lstep. lstep. simpl. rewrite Hn.
      lstep. simpl. rewrite Hp. eapply lset_prev_ok. lk.
      lk.
    + eexists. split.
      unfold removeYourself. lstep. rewrite Hp. lstep. lstep. lstep. simpl. rewrite Hn.
      lstep. simpl. rewrite Hp. eapply lset_prev_ok. lk.
      lk.
  - destruct (Hq q eq_refl) as [Hql [iq Hiq]].
    eexists. split.
    unfold removeYourself. lstep. rewrite Hp. lstep. lstep. lstep. simpl. rewrite Hn.
    reflexivity. lk.
  - destruct (Hm m eq_refl) as [Hml [im Him]].
    eexists. split.
    unfold removeYourself. lstep. rewrite Hp. lstep. lstep. simpl. rewrite Hn.
    lstep. simpl. rewrite Hp. eapply lset_prev_ok. lk.
    lk.
  - exists h. split; [|exact Hl].
    unfold removeYourself. lstep. rewrite Hp. lstep. lstep. simpl. rewrite Hn. reflexivity.
Qed.

Lemma removeItem_ok (c : CL) l it :
  items c !! l = Some it ->
  (forall q, prev it = Some q -> q <> l /\ is_Some (items c !! q)) ->
  (forall m, next it = Some m -> m <> l /\ is_Some (items c !! m)) ->
  exists c', removeItem l c = Some (value it, c') /\ size c' = (size c - 1)%Z.
Proof.
  intros Hl Hq Hm.
  destruct (removeYourself_ok c l it Hl Hq Hm) as (h' & Hrun & Hl').
  assert (Hgf : forall (c0 : CL) (f : option loc -> M T), bind get_first f c0 = f (first c0) c0)
    by reflexivity.
  assert (Hgl : forall (c0 : CL) (f : option loc -> M T), bind get_last f c0 = f (last c0) c0)
    by reflexivity.
  assert (Hgs : forall (c0 : CL) (f : Z -> M T), bind get_size f c0 = f (size c0) c0)
    by reflexivity.
  destruct (decide (first c = Some l)) as [Hf|Hf]; destruct (decide (last c = Some l)) as [Hla|Hla].
  all: eexists; split;
    [ unfold removeItem; lstep; rewrite (lbind_ok _ _ _ _ _ Hrun); rewrite Hgf; simpl;
      first [rewrite decide_True by exact Hf | rewrite decide_False by exact Hf];
      repeat lstep; rewrite ?Hgl; simpl;
      first [rewrite decide_True by exact Hla | rewrite decide_False by exact Hla];
      repeat lstep; rewrite ?Hgs; simpl; reflexivity
    | reflexivity ].
Qed.
Lemma values_lookup (c : CL) ls i l it :
  ls !! i = Some l -> items c !! l = Some it ->
  (forall x, x ∈ ls -> is_Some (items c !! x)) ->
  values c ls !! i = Some (value it).
Proof.
  revert i. induction ls as [|x r IH]; intros i Hi Hl Hall; [discriminate|].
  destruct (Hall x ltac:(left)) as [ix Hix].
  unfold values. simpl. rewrite Hix. simpl.
  destruct i as [|i]; simpl in Hi.
  - injection Hi as ->. rewrite Hix in Hl. injection Hl as ->. reflexivity.
  - apply IH; [exact Hi|exact Hl|]. intros y Hy. apply Hall. right. exact Hy.
Qed.

Lemma Get_Remove_out (c : CL) index :
  (index < 0 \/ size c <= index)%Z ->
  Get zero index c = Some ((zero, Some ErrIndexOutOfRange), c) /\
  Remove zero index c = Some ((zero, Some ErrIndexOutOfRange), c).
Proof.
  intros Hout. unfold Get, Remove.
  rewrite !(lbind_ok _ _ _ _ _ (getByIndex_out c index Hout)). split; reflexivity.
Qed.

Lemma Get_Remove_in (c : CL) ls index :
  ListInv c ls -> (0 <= index < size c)%Z ->
  exists v, values c ls !! Z.to_nat index = Some v /\
    Get zero index c = Some ((v, None), c) /\
    exists c', Remove zero index c = Some ((v, None), c') /\ size c' = (size c - 1)%Z.
Proof.
  intros HI Hin.
  destruct (getByIndex_in c ls index HI Hin) as (l & Hl & Hrun).
  pose proof (linv_seg _ _ HI) as Hseg.
  assert (Hall : forall x, x ∈ ls -> is_Some (items c !! x))
    by (intros x Hx; exact (seg_lookup _ _ _ _ _ _ _ Hseg Hx)).
  destruct (Hall l ltac:(eapply list_elem_of_lookup_2; exact Hl)) as [it Hit].
  exists (value it). split; [exact (values_lookup c ls _ l it Hl Hit Hall)|].
  split.
  { unfold Get. rewrite (lbind_ok _ _ _ _ _ Hrun). lstep. reflexivity. }
  apply list_elem_of_split_length in Hl as (a & b & -> & _).
  pose proof (linv_nodup _ _ HI) as Hnd.
  apply NoDup_app in Hnd as (_ & Hdisj & Hnb). apply NoDup_cons in Hnb as [Hlb _].
  apply seg_app in Hseg as [Ha Hlb'].
  destruct Hlb' as (it' & Hit' & Hp & Hn & Hb). rewrite Hit in Hit'. injection Hit' as <-.
  destruct (removeItem_ok c l it Hit) as (c' & Hrem & Hsz).
  - intros q Hq. rewrite Hp, last_or_None in Hq. apply last_Some_elem_of in Hq.
    split; [intros ->; exact (Hdisj l Hq ltac:(left))|].
    apply Hall. apply elem_of_app. left. exact Hq.
  - intros m Hm. rewrite Hn, first_or_None in Hm. apply head_Some_elem_of in Hm.
    split; [intros ->; exact (Hlb Hm)|].
    apply Hall. apply elem_of_app. right. right. exact Hm.
  - exists c'. split; [|exact Hsz].
    unfold Remove. rewrite (lbind_ok _ _ _ _ _ Hrun). cbv beta iota.
    rewrite (lbind_ok _ _ _ _ _ Hrem). reflexivity.
Qed.
(** C8: [Get] and [Remove] of an index out of range (negative, or at
    least [size]) return the zero value with [ErrIndexOutOfRange] and
    leave the list as it is; for an index in range of a well-formed
    list they return the value at that position with no error, and
    [Remove] takes one node out. *)
Theorem index_out_of_range :
  (forall (c : CL) index, (index < 0 \/ size c <= index)%Z ->
     Get zero index c = Some ((zero, Some ErrIndexOutOfRange), c) /\
     Remove zero index c = Some ((zero, Some ErrIndexOutOfRange), c)) /\
  (forall (c : CL) ls index, ListInv c ls -> (0 <= index < size c)%Z ->
     exists v, values c ls !! Z.to_nat index = Some v /\
       Get zero index c = Some ((v, None), c) /\
       exists c', Remove zero index c = Some ((v, None), c') /\ size c' = (size c - 1)%Z).
Proof.
  split.
  - exact Get_Remove_out.
  - exact Get_Remove_in.
Qed.
(** ** The other methods of the list *)

Lemma lseg_insert_notin (h : gmap loc (listItem (T:=T))) p ls n l e :
  l ∉ ls -> seg prev next h p ls n -> seg prev next (<[l := e]> h) p ls n.
Proof.
  intros Hl Hs. eapply seg_frame; [exact Hs|].
  intros x Hx. apply links_agree_insert_ne. intros ->. contradiction.
Qed.

Lemma lvalue_insert (h : gmap loc (listItem (T:=T))) l e e' x :
  h !! l = Some e -> value e' = value e -> value <$> <[l := e']> h !! x = value <$> h !! x.
Proof.
  intros He Hv. destruct (decide (x = l)) as [->|Hne].
  - rewrite lookup_insert_eq, He. simpl. congruence.
  - rewrite lookup_insert_ne by congruence. reflexivity.
Qed.

Ltac lmap_simpl :=
  repeat first
    [ rewrite lookup_insert_eq
    | rewrite lookup_insert_ne by congruence
    | progress simpl ].

Ltac lvalue_tac :=
  let x := fresh "x" in
  intros x; simpl;
  repeat (erewrite lvalue_insert; [ | lmap_simpl; first [eassumption | reflexivity] | simpl; congruence ]);
  first [reflexivity | auto].

Lemma removeYourself_seg (c : CL) a l b :
  NoDup (a ++ l :: b) -> seg prev next (items c) None (a ++ l :: b) None ->
  exists h', removeYourself l c = Some (tt, mkList h' (first c) (last c) (size c)) /\
    seg prev next h' None (a ++ b) None /\ h' !! l = items c !! l /\
    (forall x, value <$> h' !! x = value <$> items c !! x).
Proof.
  intros Hnd Hs. destruct c as [h f la sz]; simpl in *.
  apply seg_app in Hs as [Ha Hlb].
  destruct Hlb as (e & He & Hp & Hn & Hb).
  apply NoDup_app in Hnd as (Hnda & Hdisj & Hndb).
  apply NoDup_cons in Hndb as [Hlb Hndb].
  assert (Hla : l ∉ a) by (intros Hl; exact (Hdisj l Hl ltac:(left))).
  destruct a as [|q a' _] using rev_ind.
  2:{ apply seg_app in Ha as [Ha' Hq]. simpl in Hq.
    destruct Hq as (eq & Heq & Hqp & Hqn & _).
    unfold last_or in Hp. rewrite last_snoc in Hp. simpl in Hp.
    assert (q <> l) by (intros ->; apply Hla, elem_of_app; right; left).
    assert (Hqa' : q ∉ a') by (apply NoDup_app in Hnda as (_ & Hd & _);
      intros Hq; exact (Hd q Hq ltac:(left))).
    assert (Hqb : q ∉ b) by (intros Hq; apply (Hdisj q); [set_solver | right; exact Hq]).
    destruct b as [|m b'].
    + eexists. split.
      { unfold removeYourself. lstep. rewrite Hp. lstep. lstep. lstep. simpl. rewrite Hn.
        reflexivity. }
      split; [|split].
      * rewrite !app_nil_r. apply seg_app. split.
        { apply lseg_insert_notin; [assumption|]. exact Ha'. }
        simpl. eexists. split; [lmap_simpl; reflexivity|]. simpl. auto.
      * lmap_simpl. reflexivity.
      * lvalue_tac.
    + simpl in Hb. destruct Hb as (em & Hem & Hmp & Hmn & Hb').
      assert (m <> l) by (intros ->; apply Hlb; left).
      assert (m <> q) by (intros ->; apply Hqb; left).
      eexists. split.
      { unfold removeYourself. lstep. rewrite Hp. lstep. lstep. lstep. simpl. rewrite Hn. simpl.
        lstep. simpl. rewrite Hp. eapply lset_prev_ok. lk. }
      split; [|split].
      * assert (m ∉ a') by (intros Hm; apply (Hdisj m); [set_solver | right; left]).
        rewrite <- app_assoc. simpl. apply seg_app. split.
        { do 2 (apply lseg_insert_notin; [assumption|]). exact Ha'. }
        simpl. eexists. split; [lmap_simpl; reflexivity|]. simpl.
        split; [exact Hqp|]. split; [reflexivity|].
        eexists. split; [lmap_simpl; reflexivity|]. simpl.
        split; [reflexivity|]. split; [exact Hmn|].
        assert (m ∉ b') by (apply NoDup_cons in Hndb; tauto).
        do 2 (apply lseg_insert_notin; [set_solver|]). exact Hb'.
      * lmap_simpl. reflexivity.
      * lvalue_tac. }
  - simpl in *. unfold last_or in Hp. simpl in Hp.
    destruct b as [|m b'].
    + exists h. split.
      { unfold removeYourself. lstep. rewrite Hp. lstep. lstep. simpl. rewrite Hn. reflexivity. }
      split; [exact I|]. split; reflexivity.
    + simpl in Hb. destruct Hb as (em & Hem & Hmp & Hmn & Hb').
      assert (m <> l) by (intros ->; apply Hlb; left).
      assert (m ∉ b') by (apply NoDup_cons in Hndb; tauto).
      eexists. split.
      { unfold removeYourself. lstep. rewrite Hp. lstep. lstep. simpl. rewrite Hn. simpl.
        lstep. simpl. rewrite Hp. eapply lset_prev_ok. lk. }
      split; [|split].
      * eexists. split; [lmap_simpl; reflexivity|]. simpl.
        split; [reflexivity|]. split; [exact Hmn|].
        apply lseg_insert_notin; [assumption|]. exact Hb'.
      * lmap_simpl. reflexivity.
      * lvalue_tac.
Qed.
Lemma head_remove (a b : list loc) l :
  l ∉ a ->
  (if decide (head (a ++ l :: b) = Some l) then first_or b None else head (a ++ l :: b))
    = head (a ++ b).
Proof.
  intros Hla. destruct a as [|x a]; simpl.
  - rewrite decide_True by reflexivity. destruct b; reflexivity.
  - rewrite decide_False; [reflexivity|]. intros E. injection E as ->. apply Hla. left.
Qed.

Lemma list_last_remove (a b : list loc) l :
  l ∉ b ->
  (if decide (list_last (a ++ l :: b) = Some l) then last_or a None
   else list_last (a ++ l :: b))
    = list_last (a ++ b).
Proof.
  intros Hlb. unfold list_last. destruct b as [|y b] using rev_ind.
  - rewrite last_snoc, decide_True by reflexivity. rewrite app_nil_r.
    unfold last_or, list_last. case_match; congruence.
  - rewrite app_comm_cons, !app_assoc, !last_snoc.
    rewrite decide_False; [reflexivity|]. intros E. injection E as ->.
    apply Hlb. apply elem_of_app. right. left.
Qed.

Lemma removeItem_inv (c : CL) a l b :
  ListInv c (a ++ l :: b) ->
  exists it c', items c !! l = Some it /\ removeItem l c = Some (value it, c') /\
    ListInv c' (a ++ b) /\ items c' !! l = Some it /\
    prev it = last_or a None /\ next it = first_or b None /\
    (forall x, value <$> items c' !! x = value <$> items c !! x).
Proof.
  intros [Hnd Hs Hf Hl Hsz].
  destruct c as [h f la sz]; simpl in *.
  pose proof Hs as Hs'. apply seg_app in Hs' as [_ (e & He & Hp & Hn & _)].
  destruct (removeYourself_seg (mkList h f la sz) a l b Hnd Hs) as (h' & Hrem & Hs2 & Hh'l & Hv).
  simpl in *.
  pose proof Hnd as Hnd'.
  apply NoDup_app in Hnd' as (Hnda & Hdisj & Hndb).
  apply NoDup_cons in Hndb as [Hlb Hndb].
  assert (Hla : l ∉ a) by (intros Hl'; exact (Hdisj l Hl' ltac:(left))).
  exists e, (mkList h' (head (a ++ b)) (list_last (a ++ b)) (sz - 1)).
  split; [exact He|]. split; [|split; [|split; [|split; [|split]]]].
  - unfold removeItem. lstep. rewrite (lbind_ok _ _ _ _ _ Hrem).
    cbv [bind get_first get_last get_size set_size set_first set_last ret load]. simpl.
    subst f la.
    rewrite <- (head_remove a b l Hla), <- (list_last_remove a b l Hlb).
    destruct (decide (head (a ++ l :: b) = Some l)); simpl; rewrite ?Hh'l, ?He; simpl;
    destruct (decide (list_last (a ++ l :: b) = Some l)); simpl; rewrite ?Hh'l, ?He; simpl;
    rewrite ?Hn, ?Hp; reflexivity.
  - split; simpl.
    + apply NoDup_app. split; [exact Hnda|]. split; [|exact Hndb].
      intros x Hx Hx'. apply (Hdisj x Hx). right. exact Hx'.
    + exact Hs2.
    + reflexivity.
    + reflexivity.
    + rewrite Hsz, !length_app. simpl. lia.
  - simpl. rewrite Hh'l. exact He.
  - exact Hp.
  - exact Hn.
  - exact Hv.
Qed.
Lemma values_app (c : CL) a b : values c (a ++ b) = values c a ++ values c b.
Proof. unfold values. apply omap_app. Qed.

Lemma values_cons_Some (c : CL) l it r :
  items c !! l = Some it -> values c (l :: r) = value it :: values c r.
Proof. intros E. unfold values. simpl. rewrite E. reflexivity. Qed.

Lemma values_ext (c c' : CL) ls :
  (forall x, value <$> items c' !! x = value <$> items c !! x) -> values c' ls = values c ls.
Proof.
  intros Hv. induction ls as [|x r IH]; [reflexivity|].
  change (values c' (x :: r)) with
    (match value <$> items c' !! x with Some y => y :: values c' r | None => values c' r end).
  change (values c (x :: r)) with
    (match value <$> items c !! x with Some y => y :: values c r | None => values c r end).
  rewrite Hv, IH. reflexivity.
Qed.

Lemma values_length (c : CL) p ls n :
  seg prev next (items c) p ls n -> length (values c ls) = length ls.
Proof.
  revert p. induction ls as [|x r IH]; intros p Hs; [reflexivity|].
  destruct Hs as (e & He & _ & _ & Hs).
  rewrite (values_cons_Some c x e r He). simpl. f_equal. exact (IH _ Hs).
Qed.

(** [Remove] of an index in range of a well-formed list returns the
    value at that index and leaves a well-formed list of the other
    nodes, whose values are the old ones without that index. *)
Theorem Remove_delete (c : CL) ls index :
  ListInv c ls -> (0 <= index < size c)%Z ->
  exists v c', values c ls !! Z.to_nat index = Some v /\
    Remove zero index c = Some ((v, None), c') /\
    ListInv c' (delete (Z.to_nat index) ls) /\
    values c' (delete (Z.to_nat index) ls) = delete (Z.to_nat index) (values c ls).
Proof.
  intros HI Hin.
  destruct (getByIndex_in c ls index HI Hin) as (l & Hl & Hrun).
  apply list_elem_of_split_length in Hl as (a & b & -> & Ha).
  destruct (removeItem_inv c a l b HI) as (it & c' & Hit & Hrem & HI' & _ & _ & _ & Hv).
  pose proof (linv_seg _ _ HI) as Hs. apply seg_app in Hs as [Hsa Hsb].
  assert (Hvals : values c (a ++ l :: b) = values c a ++ value it :: values c b)
    by (rewrite values_app, (values_cons_Some c l it b Hit); reflexivity).
  assert (Hlen : length (values c a) = length a) by exact (values_length c _ _ _ Hsa).
  exists (value it), c'. rewrite Ha, delete_middle. split; [|split; [|split]].
  - rewrite Hvals. apply list_lookup_middle. symmetry. exact Hlen.
  - unfold Remove. rewrite (lbind_ok _ _ _ _ _ Hrun). cbv beta iota.
    rewrite (lbind_ok _ _ _ _ _ Hrem). reflexivity.
  - exact HI'.
  - rewrite (values_ext c c' _ Hv), Hvals, values_app, <- Hlen, delete_middle.
    reflexivity.
Qed.

Lemma RemoveFirst_inv (c : CL) ls :
  ListInv c ls ->
  (values c ls = [] -> RemoveFirst zero c = Some ((zero, false), c)) /\
  (forall v vs, values c ls = v :: vs ->
     exists c' ls', RemoveFirst zero c = Some ((v, true), c') /\
       ListInv c' ls' /\ values c' ls' = vs).
Proof.
  intros HI. pose proof (linv_first _ _ HI) as Hf.
  destruct ls as [|l r].
  - split; [intros _; unfold RemoveFirst, bind, get_first; rewrite Hf; reflexivity|].
    intros v vs E. discriminate.
  - destruct (removeItem_inv c [] l r HI) as (it & c' & Hit & Hrem & HI' & _ & _ & _ & Hv).
    rewrite (values_cons_Some c l it r Hit). split; [discriminate|].
    intros v vs E. injection E as <- <-.
    exists c', r. split; [|split; [exact HI'|exact (values_ext c c' r Hv)]].
    unfold RemoveFirst. cbv [bind get_first]. rewrite Hf. simpl.
    cbv [bind] in Hrem. rewrite Hrem. reflexivity.
Qed.

(** [RemoveFirst] of an empty well-formed list returns the zero value
    and [false] and changes nothing; otherwise it returns the first
    value and [true] and leaves a well-formed list of the other values. *)
Theorem RemoveFirst_spec (c : CL) ls :
  ListInv c ls ->
  (values c ls = [] -> RemoveFirst zero c = Some ((zero, false), c)) /\
  (forall v vs, values c ls = v :: vs ->
     exists c' ls', RemoveFirst zero c = Some ((v, true), c') /\
       ListInv c' ls' /\ values c' ls' = vs).
Proof. exact (RemoveFirst_inv c ls). Qed.

Lemma RemoveLast_inv (c : CL) ls :
  ListInv c ls ->
  (values c ls = [] -> RemoveLast zero c = Some ((zero, false), c)) /\
  (forall vs v, values c ls = vs ++ [v] ->
     exists c' ls', RemoveLast zero c = Some ((v, true), c') /\
       ListInv c' ls' /\ values c' ls' = vs).
Proof.
  intros HI. pose proof (linv_last _ _ HI) as Hl.
  destruct ls as [|l a _] using rev_ind.
  - split; [intros _; unfold RemoveLast, bind, get_last; rewrite Hl; reflexivity|].
    intros vs v E. destruct vs; discriminate.
  - destruct (removeItem_inv c a l [] HI) as (it & c' & Hit & Hrem & HI' & _ & _ & _ & Hv).
    rewrite app_nil_r in HI'.
    rewrite values_app, (values_cons_Some c l it [] Hit). split.
    { intros E. destruct (values c a); discriminate. }
    intros vs v E. apply app_inj_tail in E as [<- <-].
    exists c', a. split; [|split; [exact HI'|exact (values_ext c c' a Hv)]].
    unfold RemoveLast. cbv [bind get_last]. rewrite Hl. unfold list_last. rewrite last_snoc.
    cbv [bind] in Hrem. rewrite Hrem. reflexivity.
Qed.

(** [RemoveLast] of an empty well-formed list returns the zero value
    and [false] and changes nothing; otherwise it returns the last value
    and [true] and leaves a well-formed list of the values before it. *)
Theorem RemoveLast_spec (c : CL) ls :
  ListInv c ls ->
  (values c ls = [] -> RemoveLast zero c = Some ((zero, false), c)) /\
  (forall vs v, values c ls = vs ++ [v] ->
     exists c' ls', RemoveLast zero c = Some ((v, true), c') /\
       ListInv c' ls' /\ values c' ls' = vs).
Proof. exact (RemoveLast_inv c ls). Qed.

(** On a well-formed list [GetFirst] and [GetLast] return the first and
    the last value with [true], or the zero value with [false] when the
    list is empty, and change nothing. *)
Theorem GetFirst_GetLast (c : CL) ls :
  ListInv c ls ->
  GetFirst zero c =
    Some (match values c ls with [] => (zero, false) | v :: _ => (v, true) end, c) /\
  GetLast zero c =
    Some (match list_last (values c ls) with None => (zero, false) | Some v => (v, true) end, c).
Proof.
  intros HI. pose proof (linv_seg _ _ HI) as Hs.
  split.
  - unfold GetFirst, bind, get_first. rewrite (linv_first _ _ HI).
    destruct ls as [|l r]; [reflexivity|].
    destruct Hs as (e & He & _).
    rewrite (values_cons_Some c l e r He). simpl. unfold load. rewrite He. reflexivity.
  - unfold GetLast, bind, get_last. rewrite (linv_last _ _ HI).
    destruct ls as [|l a _] using rev_ind; [reflexivity|].
    apply seg_app in Hs as [_ (e & He & _)].
    rewrite values_app, (values_cons_Some c l e [] He).
    replace (values c []) with (@nil T) by reflexivity.
    unfold list_last. rewrite (last_snoc (value e) (values c a)), last_snoc.
    simpl. unfold load. rewrite He. reflexivity.
Qed.


Lemma removeItem_at (c : CL) a l b :
  ListInv c (a ++ l :: b) ->
  exists it c', items c !! l = Some it /\ removeItem l c = Some (value it, c') /\
    ListInv c' (delete (length a) (a ++ l :: b)) /\
    values c' (delete (length a) (a ++ l :: b)) = delete (length a) (values c (a ++ l :: b)).
Proof.
  intros HI.
  destruct (removeItem_inv c a l b HI) as (it & c' & Hit & Hrem & HI' & _ & _ & _ & Hv).
  pose proof (linv_seg _ _ HI) as Hs. apply seg_app in Hs as [Hsa _].
  exists it, c'. rewrite delete_middle. split; [exact Hit|]. split; [exact Hrem|].
  split; [exact HI'|].
  rewrite (values_ext c c' _ Hv), !values_app, (values_cons_Some c l it b Hit).
  rewrite <- (values_length c _ _ _ Hsa), delete_middle. reflexivity.
Qed.

Lemma removeFirstOcc_loop_spec (p : T -> bool) r : forall a (c : CL) fuel,
  ListInv c (a ++ r) -> length r < fuel ->
  match list_find (fun v => p v = true) (values c r) with
  | None => removeFirstOcc_loop zero fuel p (first_or r None) (Z.of_nat (length a) - 1) c
              = Some ((zero, (-1)%Z), c)
  | Some (j, v) => exists c',
      removeFirstOcc_loop zero fuel p (first_or r None) (Z.of_nat (length a) - 1) c
        = Some ((v, Z.of_nat (length a + j)), c') /\
      ListInv c' (delete (length a + j) (a ++ r)) /\
      values c' (delete (length a + j) (a ++ r)) = delete (length a + j) (values c (a ++ r))
  end.
Proof.
  induction r as [|l r IH]; intros a c fuel HI Hf; [destruct fuel; reflexivity|].
  destruct fuel as [|f]; [simpl in Hf; lia|].
  pose proof (linv_seg _ _ HI) as Hs. apply seg_app in Hs as [_ (e & He & _ & Hn & _)].
  rewrite (values_cons_Some c l e r He). simpl list_find.
  cbn [removeFirstOcc_loop first_or].
  rewrite (lbind_ok _ _ _ _ _ (lload_ok c l e He)). cbv beta.
  destruct (p (value e)) eqn:Ep.
  - rewrite decide_True by reflexivity.
    destruct (removeItem_at c a l r HI) as (it & c' & Hit & Hrem & HI' & Hv).
    rewrite He in Hit. injection Hit as <-.
    exists c'. rewrite Nat.add_0_r. split; [|split; assumption].
    rewrite (lbind_ok _ _ _ _ _ Hrem). unfold ret. do 3 f_equal. lia.
  - rewrite decide_False by congruence.
    rewrite (lbind_ok _ _ _ _ _ (lload_ok c l e He)). rewrite Hn.
    assert (HI2 : ListInv c ((a ++ [l]) ++ r)) by (rewrite <- app_assoc; exact HI).
    specialize (IH (a ++ [l]) c f HI2 ltac:(simpl in Hf; lia)).
    rewrite length_app in IH. simpl in IH. rewrite <- app_assoc in IH.
    replace (Z.of_nat (length a) - 1 + 1)%Z with (Z.of_nat (length a + 1) - 1)%Z by lia.
    destruct (list_find (fun v => p v = true) (values c r)) as [[j v]|]; simpl.
    + destruct IH as (c' & Hrun & HI' & Hv). exists c'.
      replace (length a + S j) with (length a + 1 + j) by lia. auto.
    + exact IH.
Qed.

(** On a well-formed list, [RemoveFirstOccurrence p] removes the first
    node whose value satisfies [p] and returns that value with its
    index, leaving a well-formed list of the other values; when no
    value satisfies [p] it returns the zero value and -1 and changes
    nothing. *)
Theorem RemoveFirstOccurrence_spec (c : CL) ls (p : T -> bool) :
  ListInv c ls ->
  match list_find (fun v => p v = true) (values c ls) with
  | None => RemoveFirstOccurrence zero p c = Some ((zero, (-1)%Z), c)
  | Some (i, v) => exists c',
      RemoveFirstOccurrence zero p c = Some ((v, Z.of_nat i), c') /\
      ListInv c' (delete i ls) /\ values c' (delete i ls) = delete i (values c ls)
  end.
Proof.
  intros HI.
  assert (Hf : length ls < S (stdpp.base.size (items c))).
  { pose proof (linv_seg _ _ HI) as Hs.
    pose proof (length_le_size (items c) ls (linv_nodup _ _ HI)
      (fun x Hx => seg_lookup _ _ _ _ _ _ _ Hs Hx)). lia. }
  pose proof (removeFirstOcc_loop_spec p ls [] c _ HI Hf) as Hloop.
  unfold RemoveFirstOccurrence. cbv [bind get_first loop_fuel].
  rewrite (linv_first _ _ HI).
  replace (head ls) with (first_or ls None) by (destruct ls; reflexivity).
  exact Hloop.
Qed.
Lemma fuel_bound (c : CL) ls : ListInv c ls -> length ls < S (stdpp.base.size (items c)).
Proof.
  intros HI. pose proof (linv_seg _ _ HI) as Hs.
  pose proof (length_le_size (items c) ls (linv_nodup _ _ HI)
    (fun x Hx => seg_lookup _ _ _ _ _ _ _ Hs Hx)). lia.
Qed.

Lemma list_last_last_or (ls : list loc) : list_last ls = last_or ls None.
Proof. unfold last_or, list_last. case_match; congruence. Qed.

Lemma removeLastOcc_loop_spec (p : T -> bool) r : forall b (c : CL) fuel,
  ListInv c (r ++ b) -> length r < fuel ->
  match list_find (fun v => p v = true) (rev (values c r)) with
  | None => removeLastOcc_loop zero fuel p (last_or r None) (Z.of_nat (length r)) c
              = Some ((zero, (-1)%Z), c)
  | Some (j, v) => exists c',
      removeLastOcc_loop zero fuel p (last_or r None) (Z.of_nat (length r)) c
        = Some ((v, Z.of_nat (length r - S j)), c') /\
      ListInv c' (delete (length r - S j) (r ++ b)) /\
      values c' (delete (length r - S j) (r ++ b)) = delete (length r - S j) (values c (r ++ b))
  end.
Proof.
  induction r as [|l r IH] using rev_ind; intros b c fuel HI Hf;
    [destruct fuel; reflexivity|].
  rewrite <- app_assoc in HI. simpl in HI.
  rewrite length_app in Hf. simpl in Hf.
  destruct fuel as [|f]; [lia|].
  pose proof (linv_seg _ _ HI) as Hs. apply seg_app in Hs as [_ (e & He & Hp & _ & _)].
  rewrite values_app, (values_cons_Some c l e [] He).
  replace (values c []) with (@nil T) by reflexivity.
  rewrite rev_app_distr. simpl list_find.
  replace (last_or (r ++ [l]) None) with (Some l)
    by (unfold last_or; rewrite last_snoc; reflexivity).
  rewrite length_app. simpl length.
  rewrite <- app_assoc. simpl app.
  cbn [removeLastOcc_loop].
  rewrite (lbind_ok _ _ _ _ _ (lload_ok c l e He)). cbv beta.
  destruct (p (value e)) eqn:Ep.
  - rewrite decide_True by reflexivity.
    destruct (removeItem_at c r l b HI) as (it & c' & Hit & Hrem & HI' & Hv).
    rewrite He in Hit. injection Hit as <-.
    exists c'. replace (length r + 1 - 1) with (length r) by lia.
    split; [|split; assumption].
    rewrite (lbind_ok _ _ _ _ _ Hrem). unfold ret. do 3 f_equal. lia.
  - rewrite decide_False by congruence.
    rewrite (lbind_ok _ _ _ _ _ (lload_ok c l e He)). rewrite Hp.
    specialize (IH (l :: b) c f HI ltac:(lia)).
    replace (Z.of_nat (length r + 1) - 1)%Z with (Z.of_nat (length r)) by lia.
    destruct (list_find (fun v => p v = true) (rev (values c r))) as [[j v]|]; simpl.
    + destruct IH as (c' & Hrun & HI' & Hv). exists c'.
      replace (length r + 1 - S (S j)) with (length r - S j) by lia. auto.
    + exact IH.
Qed.

(** On a well-formed list, [RemoveLastOccurrence p] removes the last
    node whose value satisfies [p] and returns that value with its
    index, leaving a well-formed list of the other values; when no
    value satisfies [p] it returns the zero value and -1 and changes
    nothing. *)
Theorem RemoveLastOccurrence_spec (c : CL) ls (p : T -> bool) :
  ListInv c ls ->
  match list_find (fun v => p v = true) (rev (values c ls)) with
  | None => RemoveLastOccurrence zero p c = Some ((zero, (-1)%Z), c)
  | Some (j, v) => exists c',
      RemoveLastOccurrence zero p c = Some ((v, Z.of_nat (length ls - S j)), c') /\
      ListInv c' (delete (length ls - S j) ls) /\
      values c' (delete (length ls - S j) ls) = delete (length ls - S j) (values c ls)
  end.
Proof.
  intros HI.
  assert (HI0 : ListInv c (ls ++ [])) by (rewrite app_nil_r; exact HI).
  pose proof (removeLastOcc_loop_spec p ls [] c _ HI0 (fuel_bound c ls HI)) as Hloop.
  rewrite app_nil_r in Hloop.
  unfold RemoveLastOccurrence. cbv [bind get_size get_last loop_fuel].
  rewrite (linv_size _ _ HI), (linv_last _ _ HI), list_last_last_or.
  exact Hloop.
Qed.
Lemma removeAll_loop_spec (p : T -> bool) r : forall a (c : CL) fuel z,
  ListInv c (a ++ r) -> length r < fuel ->
  exists c' r', removeAll_loop fuel p (first_or r None) z c
      = Some ((z + Z.of_nat (length (filter (fun v => p v = true) (values c r))))%Z, c') /\
    ListInv c' (a ++ r') /\
    values c' (a ++ r') = values c a ++ filter (fun v => p v = false) (values c r).
Proof.
  induction r as [|l r IH]; intros a c fuel z HI Hf.
  - exists c, []. rewrite !app_nil_r in *. split; [|split; [exact HI|reflexivity]].
    destruct fuel; simpl; rewrite Z.add_0_r; reflexivity.
  - destruct fuel as [|f]; [simpl in Hf; lia|].
    pose proof (linv_seg _ _ HI) as Hs. apply seg_app in Hs as [_ (e & He & _ & Hn & _)].
    rewrite (values_cons_Some c l e r He).
    cbn [removeAll_loop first_or].
    rewrite (lbind_ok _ _ _ _ _ (lload_ok c l e He)). cbv beta.
    destruct (p (value e)) eqn:Ep.
    + destruct (removeItem_inv c a l r HI)
        as (it & c1 & Hit & Hrem & HI1 & Hl1 & _ & Hn1 & Hv).
      rewrite He in Hit. injection Hit as <-.
      destruct (IH a c1 f (z + 1)%Z HI1 ltac:(simpl in Hf; lia)) as (c' & r' & Hrun & HI' & Hvals).
      rewrite (values_ext c c1 r Hv) in Hrun, Hvals. rewrite (values_ext c c1 a Hv) in Hvals.
      exists c', r'. split; [|split; [exact HI'|]].
      * rewrite (lbind_ok _ _ _ _ _ Hrem), (lbind_ok _ _ _ _ _ (lload_ok c1 l e Hl1)), Hn1, Hrun.
        rewrite filter_cons_True by exact Ep. simpl length.
        do 2 f_equal. rewrite Nat2Z.inj_succ. lia.
      * rewrite Hvals, filter_cons_False by congruence. reflexivity.
    + rewrite (lbind_ok _ _ _ _ _ (lload_ok c l e He)), Hn.
      assert (HI2 : ListInv c ((a ++ [l]) ++ r)) by (rewrite <- app_assoc; exact HI).
      destruct (IH (a ++ [l]) c f z HI2 ltac:(simpl in Hf; lia)) as (c' & r' & Hrun & HI' & Hvals).
      exists c', (l :: r'). rewrite <- app_assoc in HI', Hvals. simpl in HI', Hvals.
      split; [|split; [exact HI'|]].
      * rewrite Hrun, filter_cons_False by congruence. reflexivity.
      * rewrite Hvals, values_app, (values_cons_Some c l e [] He), filter_cons_True by exact Ep.
        rewrite <- app_assoc. reflexivity.
Qed.

(** On a well-formed list, [RemoveAll p] removes every node whose value
    satisfies [p], returns how many there were, and leaves a
    well-formed list of the other values in their order. *)
Theorem RemoveAll_spec (c : CL) ls (p : T -> bool) :
  ListInv c ls ->
  exists c' ls', RemoveAll p c
      = Some (Z.of_nat (length (filter (fun v => p v = true) (values c ls))), c') /\
    ListInv c' ls' /\ values c' ls' = filter (fun v => p v = false) (values c ls).
Proof.
  intros HI.
  destruct (removeAll_loop_spec p ls [] c _ 0%Z HI (fuel_bound c ls HI))
    as (c' & ls' & Hrun & HI' & Hvals).
  exists c', ls'. split; [|split; [exact HI'|exact Hvals]].
  unfold RemoveAll. cbv [bind get_first loop_fuel].
  rewrite (linv_first _ _ HI).
  replace (head ls) with (first_or ls None) by (destruct ls; reflexivity).
  exact Hrun.
Qed.
Lemma list_last_snoc (a : list loc) q : list_last (a ++ [q]) = Some q.
Proof. apply last_snoc. Qed.

Lemma values_ext_in (c c' : CL) ls :
  (forall x, x ∈ ls -> value <$> items c' !! x = value <$> items c !! x) ->
  values c' ls = values c ls.
Proof.
  intros Hv. induction ls as [|x r IH]; [reflexivity|].
  change (values c' (x :: r)) with
    (match value <$> items c' !! x with Some y => y :: values c' r | None => values c' r end).
  change (values c (x :: r)) with
    (match value <$> items c !! x with Some y => y :: values c r | None => values c r end).
  rewrite (Hv x ltac:(left)), IH; [reflexivity|].
  intros y Hy. apply Hv. right. exact Hy.
Qed.

Lemma alloc_spec (c : CL) it :
  exists l, items c !! l = None /\
    alloc it c = Some (l, mkList (<[l := it]> (items c)) (first c) (last c) (size c)).
Proof.
  exists (fresh (dom (items c))). split; [|reflexivity].
  apply not_elem_of_dom. apply is_fresh.
Qed.

Lemma AddLast_inv (c : CL) ls v :
  ListInv c ls ->
  exists l c', AddLast v c = Some (tt, c') /\ (l ∉ ls) /\
    ListInv c' (ls ++ [l]) /\ values c' (ls ++ [l]) = values c ls ++ [v].
Proof.
  intros [Hnd Hs Hf Hla Hsz].
  destruct (alloc_spec c (mkItem None None v)) as (l & Hl & Hal).
  destruct c as [h f la sz]; simpl in *. subst f la sz.
  assert (Hnl : l ∉ ls).
  { intros Hin. destruct (seg_lookup _ _ _ _ _ _ _ Hs Hin) as [x Hx]. congruence. }
  exists l. destruct ls as [|q a _] using rev_ind.
  - eexists. split.
    { unfold AddLast, addLastInner. rewrite (lbind_ok _ _ _ _ _ Hal). reflexivity. }
    split; [exact Hnl|]. split.
    + split; simpl.
      * apply NoDup_singleton.
      * eexists. split; [lmap_simpl; reflexivity|]. simpl. auto.
      * reflexivity.
      * reflexivity.
      * reflexivity.
    + unfold values. simpl. lmap_simpl. reflexivity.
  - apply seg_app in Hs as [Ha Hq]. simpl in Hq.
    destruct Hq as (eq & Heq & Hqp & Hqn & _).
    assert (Hql : q <> l) by (intros ->; apply Hnl; set_solver).
    assert (Hla : l ∉ a) by (intros Hin; apply Hnl; set_solver).
    assert (Hqa : q ∉ a) by (apply NoDup_app in Hnd as (_ & Hd & _);
      intros Hin; exact (Hd q Hin ltac:(left))).
    eexists. split.
    { unfold AddLast, addLastInner. rewrite (lbind_ok _ _ _ _ _ Hal).
      lstep. simpl. rewrite list_last_snoc. unfold append.
      lstep. lstep. lstep. lstep. lstep. lstep. reflexivity. }
    split; [exact Hnl|]. split.
    + split; simpl.
      * rewrite <- app_assoc. apply NoDup_app. split; [apply NoDup_app in Hnd; tauto|].
        split; [|apply NoDup_cons; split; [set_solver|apply NoDup_singleton]].
        intros x Hx Hx'. set_solver.
      * rewrite <- app_assoc. simpl. apply seg_app. split.
        { do 4 (apply lseg_insert_notin; [assumption|]). exact Ha. }
        simpl. eexists. split; [lmap_simpl; reflexivity|]. simpl.
        split; [exact Hqp|]. split; [reflexivity|].
        eexists. split; [lmap_simpl; reflexivity|]. simpl.
        split; [reflexivity|]. split; [rewrite Hqn; reflexivity|]. exact I.
      * destruct a; reflexivity.
      * symmetry. apply list_last_snoc.
      * rewrite !length_app. simpl. lia.
    + rewrite !values_app. f_equal; [f_equal|].
      * apply values_ext_in. intros x Hx. simpl.
        assert (x <> l) by (intros ->; contradiction).
        assert (x <> q) by (intros ->; contradiction).
        lmap_simpl. reflexivity.
      * unfold values. simpl. lmap_simpl. rewrite Heq. reflexivity.
      * unfold values. simpl. lmap_simpl. reflexivity.
Qed.
Lemma AddFirst_inv (c : CL) ls v :
  ListInv c ls ->
  exists l c', AddFirst v c = Some (tt, c') /\ (l ∉ ls) /\
    ListInv c' (l :: ls) /\ values c' (l :: ls) = v :: values c ls.
Proof.
  intros [Hnd Hs Hf Hla Hsz].
  destruct (alloc_spec c (mkItem None None v)) as (l & Hl & Hal).
  destruct c as [h f la sz]; simpl in *. subst f la sz.
  assert (Hnl : l ∉ ls).
  { intros Hin. destruct (seg_lookup _ _ _ _ _ _ _ Hs Hin) as [x Hx]. congruence. }
  exists l. destruct ls as [|q b].
  - eexists. split.
    { unfold AddFirst. rewrite (lbind_ok _ _ _ _ _ Hal). reflexivity. }
    split; [exact Hnl|]. split.
    + split; simpl.
      * apply NoDup_singleton.
      * eexists. split; [lmap_simpl; reflexivity|]. simpl. auto.
      * reflexivity.
      * reflexivity.
      * reflexivity.
    + unfold values. simpl. lmap_simpl. reflexivity.
  - destruct Hs as (eq & Heq & Hqp & Hqn & Hb).
    assert (Hql : q <> l) by (intros ->; apply Hnl; left).
    assert (Hlb : l ∉ b) by (intros Hin; apply Hnl; right; exact Hin).
    assert (Hqb : q ∉ b) by (apply NoDup_cons in Hnd; tauto).
    eexists. split.
    { unfold AddFirst. rewrite (lbind_ok _ _ _ _ _ Hal).
      lstep. simpl. unfold insert.
      lstep. lstep. lstep. lstep. lstep. lstep. reflexivity. }
    split; [exact Hnl|]. split.
    + split; simpl.
      * apply NoDup_cons. split; [exact Hnl|exact Hnd].
      * eexists. split; [lmap_simpl; reflexivity|]. simpl.
        split; [exact Hqp|]. split; [reflexivity|].
        eexists. split; [lmap_simpl; reflexivity|]. simpl.
        split; [reflexivity|]. split; [exact Hqn|].
        repeat (apply lseg_insert_notin; [assumption|]). exact Hb.
      * reflexivity.
      * reflexivity.
      * lia.
    + refine (eq_trans (values_cons_Some _ l _ (q :: b) _) _); [simpl; lmap_simpl; reflexivity|].
      f_equal. apply values_ext_in. intros x Hx. cbn [items].
      assert (x <> l) by (intros ->; apply Hnl; exact Hx).
      destruct (decide (x = q)) as [->|Hxq].
      * rewrite lookup_insert_eq, Heq. reflexivity.
      * rewrite !lookup_insert_ne by congruence. reflexivity.
Qed.

(** On a well-formed list, [AddFirst v] links a new node before the
    first one, and the list stays well-formed with [v] put in front of
    its values. *)
Theorem AddFirst_spec (c : CL) ls v :
  ListInv c ls ->
  exists l c', AddFirst v c = Some (tt, c') /\ (l ∉ ls) /\
    ListInv c' (l :: ls) /\ values c' (l :: ls) = v :: values c ls.
Proof. exact (AddFirst_inv c ls v). Qed.
Lemma toArray_loop_spec r : forall a (c : CL) fuel result,
  ListInv c (a ++ r) -> length r < fuel -> length a + length r <= length result ->
  toArray_loop fuel (length a) (first_or r None) result c
    = Some (take (length a) result ++ values c r ++ drop (length a + length r) result, c).
Proof.
  induction r as [|l r IH]; intros a c fuel result HI Hf Hr.
  - destruct fuel; simpl; rewrite Nat.add_0_r, take_drop; reflexivity.
  - destruct fuel as [|f]; [simpl in Hf; lia|].
    simpl in Hf, Hr.
    pose proof (linv_seg _ _ HI) as Hs. apply seg_app in Hs as [_ (e & He & _ & Hn & _)].
    cbn [toArray_loop first_or].
    rewrite (lbind_ok _ _ _ _ _ (lload_ok c l e He)).
    rewrite decide_True by lia. rewrite Hn.
    assert (HI2 : ListInv c ((a ++ [l]) ++ r)) by (rewrite <- app_assoc; exact HI).
    replace (S (length a)) with (length (a ++ [l])) by (rewrite length_app; simpl; lia).
    rewrite (IH (a ++ [l]) c f _ HI2 ltac:(lia)) by (rewrite length_app, length_insert; simpl; lia).
    rewrite (values_cons_Some c l e r He), length_app. simpl length.
    replace (length a + 1) with (S (length a)) by lia.
    rewrite (take_S_r _ _ (value e)) by (apply list_lookup_insert_eq; lia).
    rewrite take_insert_ge by lia. rewrite drop_insert_lt by lia.
    rewrite <- app_assoc. simpl.
    replace (S (length a + length r)) with (length a + S (length r)) by lia.
    reflexivity.
Qed.

Lemma ToArray_inv (c : CL) ls :
  ListInv c ls -> ToArray zero c = Some (values c ls, c).
Proof.
  intros HI.
  pose proof (toArray_loop_spec ls [] c _ (replicate (length ls) zero)
    HI (fuel_bound c ls HI)) as Hloop.
  rewrite length_replicate in Hloop. simpl in Hloop.
  specialize (Hloop ltac:(lia)). rewrite drop_ge, app_nil_r in Hloop by (rewrite length_replicate; lia).
  unfold ToArray. cbv [bind get_size get_first loop_fuel].
  rewrite (linv_size _ _ HI).
  replace (Z.of_nat (length ls) <? 0)%Z with false by (symmetry; apply Z.ltb_ge; lia).
  cbv beta iota. rewrite (linv_first _ _ HI), Nat2Z.id.
  replace (head ls) with (first_or ls None) by (destruct ls; reflexivity).
  exact Hloop.
Qed.

Lemma addAll_spec (vs : list T) : forall (c : CL) ls,
  ListInv c ls ->
  exists ls' c', addAll vs c = Some (tt, c') /\ ListInv c' (ls ++ ls') /\
    values c' (ls ++ ls') = values c ls ++ vs.
Proof.
  induction vs as [|v vs IH]; intros c ls HI.
  - exists [], c. rewrite !app_nil_r. split; [reflexivity|]. split; [exact HI|reflexivity].
  - destruct (AddLast_inv c ls v HI) as (l & c1 & Hrun & _ & HI1 & Hv1).
    destruct (IH c1 (ls ++ [l]) HI1) as (ls' & c' & Hrun' & HI' & Hv').
    exists (l :: ls'), c'. rewrite <- app_assoc in HI', Hv'. simpl in HI', Hv'.
    split; [|split; [exact HI'|]].
    + cbn [addAll]. rewrite <- lbind_assoc.
      change (bind (alloc (mkItem None None v)) addLastInner) with (AddLast v).
      rewrite (lbind_ok _ _ _ _ _ Hrun). exact Hrun'.
    + rewrite Hv', Hv1, <- app_assoc. reflexivity.
Qed.

Lemma NewItems_inv (vs : list T) :
  exists c ls, NewConcurrentLinkedListItems vs = Some c /\ ListInv c ls /\
    values c ls = vs /\ Size c = Some (Z.of_nat (length vs), c).
Proof.
  assert (HI0 : ListInv (NewConcurrentLinkedList (T:=T)) []).
  { split; simpl; try reflexivity. apply NoDup_nil_2. }
  destruct (addAll_spec vs _ [] HI0) as (ls & c & Hrun & HI & Hv).
  simpl in HI, Hv.
  exists c, ls. unfold NewConcurrentLinkedListItems. rewrite Hrun.
  split; [reflexivity|]. split; [exact HI|]. split; [exact Hv|].
  unfold Size, get_size. rewrite (linv_size _ _ HI).
  rewrite <- Hv, (values_length c None ls None (linv_seg _ _ HI)). reflexivity.
Qed.
(** On a well-formed list, [AddLast v] links a new node after the last
    one, and the list stays well-formed with [v] appended to its
    values. *)
Theorem AddLast_spec (c : CL) ls v :
  ListInv c ls ->
  exists l c', AddLast v c = Some (tt, c') /\ (l ∉ ls) /\
    ListInv c' (ls ++ [l]) /\ values c' (ls ++ [l]) = values c ls ++ [v].
Proof. exact (AddLast_inv c ls v). Qed.

(** On a well-formed list, [ToArray] returns the values of the nodes
    in order and changes nothing. *)
Theorem ToArray_values (c : CL) ls :
  ListInv c ls -> ToArray zero c = Some (values c ls, c).
Proof. exact (ToArray_inv c ls). Qed.

(** [NewConcurrentLinkedListItems vs] builds a well-formed list whose
    values are [vs] in order and whose size is their number. *)
Theorem NewConcurrentLinkedListItems_spec (vs : list T) :
  exists c ls, NewConcurrentLinkedListItems vs = Some c /\ ListInv c ls /\
    values c ls = vs /\ Size c = Some (Z.of_nat (length vs), c).
Proof. exact (NewItems_inv vs). Qed.

(** Building a list with [NewConcurrentLinkedListItems vs] and reading it
    back with [ToArray] gives [vs]. *)
Theorem NewItems_ToArray (vs : list T) :
  exists c, NewConcurrentLinkedListItems vs = Some c /\ ToArray zero c = Some (vs, c).
Proof.
  destruct (NewItems_inv vs) as (c & ls & Hnew & HI & Hv & _).
  exists c. split; [exact Hnew|]. rewrite <- Hv. exact (ToArray_inv c ls HI).
Qed.

(** On a well-formed list, [AddFirst v] followed by [RemoveFirst]
    returns (v, true) and leaves a well-formed list with the values it
    had before. *)
Theorem AddFirst_RemoveFirst (c : CL) ls v :
  ListInv c ls ->
  exists c1 c2 ls2, AddFirst v c = Some (tt, c1) /\
    RemoveFirst zero c1 = Some ((v, true), c2) /\
    ListInv c2 ls2 /\ values c2 ls2 = values c ls.
Proof.
  intros HI. destruct (AddFirst_inv c ls v HI) as (l & c1 & Hadd & _ & HI1 & Hv1).
  destruct (RemoveFirst_inv c1 (l :: ls) HI1) as [_ Hrem].
  destruct (Hrem v (values c ls) Hv1) as (c2 & ls2 & Hrun & HI2 & Hv2).
  exists c1, c2, ls2. auto.
Qed.

(** On a well-formed list, [AddLast v] followed by [RemoveLast] returns
    (v, true) and leaves a well-formed list with the values it had
    before. *)
Theorem AddLast_RemoveLast (c : CL) ls v :
  ListInv c ls ->
  exists c1 c2 ls2, AddLast v c = Some (tt, c1) /\
    RemoveLast zero c1 = Some ((v, true), c2) /\
    ListInv c2 ls2 /\ values c2 ls2 = values c ls.
Proof.
  intros HI. destruct (AddLast_inv c ls v HI) as (l & c1 & Hadd & _ & HI1 & Hv1).
  destruct (RemoveLast_inv c1 (ls ++ [l]) HI1) as [_ Hrem].
  destruct (Hrem (values c ls) v Hv1) as (c2 & ls2 & Hrun & HI2 & Hv2).
  exists c1, c2, ls2. auto.
Qed.

Lemma values_lookup_all (c : CL) ls k :
  (forall x, x ∈ ls -> is_Some (items c !! x)) ->
  values c ls !! k = ls !! k ≫= fun l => value <$> items c !! l.
Proof.
  revert k. induction ls as [|x r IH]; intros k Hall; [reflexivity|].
  destruct (Hall x ltac:(left)) as [ix Hix].
  unfold values. simpl. rewrite Hix. simpl.
  destruct k as [|k]; simpl; [rewrite Hix; reflexivity|].
  apply IH. intros y Hy. apply Hall. right. exact Hy.
Qed.

Lemma swap_heap (c : CL) l1 l2 it1 it2 :
  items c !! l1 = Some it1 -> items c !! l2 = Some it2 ->
  exists h', swapListItems l1 l2 c = Some (tt, mkList h' (first c) (last c) (size c)) /\
    (forall x, links_agree prev next (items c) h' x) /\
    (forall x, value <$> h' !! x =
       if decide (x = l2) then Some (value it1)
       else if decide (x = l1) then Some (value it2) else value <$> items c !! x).
Proof.
  intros H1 H2. destruct c as [h f la sz]; simpl in *.
  destruct (decide (l1 = l2)) as [<-|Hne].
  - rewrite H1 in H2. injection H2 as <-.
    eexists. split.
    { unfold swapListItems, set_value, bind, load, store. simpl.
      repeat (simpl; first [rewrite lookup_insert_eq | rewrite H1]). reflexivity. }
    split.
    + intros x e He. destruct (decide (x = l1)) as [->|Hx].
      * rewrite H1 in He. injection He as <-. eexists.
        rewrite lookup_insert_eq. simpl. auto.
      * exists e. rewrite !lookup_insert_ne by congruence. auto.
    + intros x. destruct (decide (x = l1)) as [->|Hx].
      * rewrite lookup_insert_eq. reflexivity.
      * rewrite !lookup_insert_ne by congruence. reflexivity.
  - eexists. split.
    { unfold swapListItems, set_value, bind, load, store. simpl.
      repeat (simpl; first [rewrite lookup_insert_eq | rewrite H1 | rewrite H2
                           | rewrite lookup_insert_ne by congruence]).
      reflexivity. }
    split.
    + intros x e He. destruct (decide (x = l2)) as [->|Hx2];
        [|destruct (decide (x = l1)) as [->|Hx1]].
      * rewrite H2 in He. injection He as <-. eexists.
        rewrite lookup_insert_eq. simpl. auto.
      * rewrite H1 in He. injection He as <-. eexists.
        rewrite lookup_insert_ne, lookup_insert_eq by congruence. simpl. auto.
      * exists e. rewrite !lookup_insert_ne by congruence. auto.
    + intros x. destruct (decide (x = l2)) as [->|Hx2];
        [|destruct (decide (x = l1)) as [->|Hx1]].
      * rewrite lookup_insert_eq. reflexivity.
      * rewrite lookup_insert_ne, lookup_insert_eq by congruence. reflexivity.
      * rewrite !lookup_insert_ne by congruence. reflexivity.
Qed.

(** On a well-formed list, [swapListItems] on the nodes at positions [i]
    and [j] exchanges their values: the list stays well-formed, and its
    values are the previous ones with positions [i] and [j] swapped. *)
Theorem swapListItems_spec (c : CL) ls i j l1 l2 :
  ListInv c ls -> ls !! i = Some l1 -> ls !! j = Some l2 ->
  exists v1 v2 c', values c ls !! i = Some v1 /\ values c ls !! j = Some v2 /\
    swapListItems l1 l2 c = Some (tt, c') /\ ListInv c' ls /\
    values c' ls = <[i := v2]> (<[j := v1]> (values c ls)).
Proof.
  intros HI Hi Hj. pose proof (linv_seg _ _ HI) as Hseg.
  pose proof (linv_nodup _ _ HI) as Hnd.
  assert (Hall : forall x, x ∈ ls -> is_Some (items c !! x))
    by (intros x Hx; exact (seg_lookup _ _ _ _ _ _ _ Hseg Hx)).
  destruct (Hall l1 ltac:(eapply list_elem_of_lookup_2; exact Hi)) as [it1 H1].
  destruct (Hall l2 ltac:(eapply list_elem_of_lookup_2; exact Hj)) as [it2 H2].
  destruct (swap_heap c l1 l2 it1 it2 H1 H2) as (h' & Hrun & Hlinks & Hval).
  set (c' := mkList h' (first c) (last c) (size c)).
  assert (Hall' : forall x, x ∈ ls -> is_Some (h' !! x)).
  { intros x Hx. destruct (Hall x Hx) as [e He]. destruct (Hlinks x e He) as (e' & He' & _).
    eauto. }
  exists (value it1), (value it2), c'.
  split; [exact (values_lookup c ls i l1 it1 Hi H1 Hall)|].
  split; [exact (values_lookup c ls j l2 it2 Hj H2 Hall)|].
  split; [exact Hrun|].
  split.
  - destruct HI as [Hnd' Hs Hf Hla Hsz]. split; simpl; try assumption.
    eapply seg_frame; [exact Hs|]. intros x _. apply Hlinks.
  - assert (Hlen : length (values c ls) = length ls).
    { apply (values_length c None ls None Hseg). }
    apply list_eq. intros k.
    rewrite (values_lookup_all c' ls k Hall'). cbn [items c'].
    destruct (decide (k = i)) as [->|Hki].
    + rewrite list_lookup_insert_eq
        by (rewrite length_insert, Hlen; eapply lookup_lt_Some; exact Hi).
      rewrite Hi. simpl. rewrite Hval.
      destruct (decide (l1 = l2)) as [<-|Hne].
      * rewrite H1 in H2. injection H2 as ->. reflexivity.
      * rewrite decide_True by reflexivity. reflexivity.
    + rewrite list_lookup_insert_ne by congruence.
      destruct (decide (k = j)) as [->|Hkj].
      * rewrite list_lookup_insert_eq
          by (rewrite Hlen; eapply lookup_lt_Some; exact Hj).
        rewrite Hj. simpl. rewrite Hval, decide_True by reflexivity. reflexivity.
      * rewrite list_lookup_insert_ne by congruence.
        rewrite (values_lookup_all c ls k Hall).
        destruct (ls !! k) as [x|] eqn:Hk; simpl; [|reflexivity].
        assert (x <> l1) by (intros ->; apply Hki; exact (NoDup_lookup ls k i l1 Hnd Hk Hi)).
        assert (x <> l2) by (intros ->; apply Hkj; exact (NoDup_lookup ls k j l2 Hnd Hk Hj)).
        rewrite Hval, !decide_False by assumption. reflexivity.
Qed.
End ListProofs.

Lemma index_out_of_range_witness :
  ListInv (mkList (<[0 := mkItem None (Some 1) 10]> (<[1 := mkItem (Some 0) None 20]> ∅))
             (Some 0) (Some 1) 2) [0; 1] /\
  Get 0 1%Z (mkList (<[0 := mkItem None (Some 1) 10]> (<[1 := mkItem (Some 0) None 20]> ∅))
               (Some 0) (Some 1) 2) =
    Some ((20, None), mkList (<[0 := mkItem None (Some 1) 10]> (<[1 := mkItem (Some 0) None 20]> ∅))
                       (Some 0) (Some 1) 2) /\
  Get 0 2%Z (mkList (<[0 := mkItem None (Some 1) 10]> (<[1 := mkItem (Some 0) None 20]> ∅))
               (Some 0) (Some 1) 2) =
    Some ((0, Some ErrIndexOutOfRange),
          mkList (<[0 := mkItem None (Some 1) 10]> (<[1 := mkItem (Some 0) None 20]> ∅))
            (Some 0) (Some 1) 2).
Proof.
  assert (HI : ListInv (mkList (<[0 := mkItem None (Some 1) 10]> (<[1 := mkItem (Some 0) None 20]> ∅))
                 (Some 0) (Some 1) 2) [0; 1]).
  { constructor.
    - apply NoDup_cons. split; [|apply NoDup_singleton].
      rewrite elem_of_cons. intros [Hx|Hx]; [discriminate|apply not_elem_of_nil in Hx; exact Hx].
    - simpl. eexists. split; [reflexivity|]. split; [reflexivity|]. split; [reflexivity|].
      eexists. split; [reflexivity|]. split; [reflexivity|]. split; reflexivity.
    - reflexivity.
    - reflexivity.
    - reflexivity. }
  split; [exact HI|]. split.
  - edestruct (proj2 (index_out_of_range 0) _ _ 1%Z HI) as (v & Hv & HGet & _);
      [simpl; lia|].
    vm_compute in Hv. injection Hv as <-. exact HGet.
  - refine (proj1 (proj1 (index_out_of_range 0) _ 2%Z _)). right. simpl. lia.
Defined.
(** A well-formed list of three nodes, at locations 0, 1 and 2, holding
    10, 20 and 10. *)
Local Abbreviation ex3 :=
  (mkList (<[0 := mkItem None (Some 1) 10]> (<[1 := mkItem (Some 0) (Some 2) 20]>
             (<[2 := mkItem (Some 1) None 10]> ∅))) (Some 0) (Some 2) 3%Z).

Ltac linv_tac :=
  constructor;
  [ apply (bool_decide_unpack _); vm_compute; reflexivity
  | simpl; repeat (eexists; split; [reflexivity|]; split; [reflexivity|]; split; [reflexivity|]);
    exact I
  | reflexivity | reflexivity | reflexivity ].

Lemma Remove_delete_witness :
  ListInv ex3 [0; 1; 2] /\ (0 <= 1 < size ex3)%Z /\
  exists v c', values ex3 [0; 1; 2] !! Z.to_nat 1 = Some v /\
    Remove 0 1%Z ex3 = Some ((v, None), c') /\
    ListInv c' (delete (Z.to_nat 1) [0; 1; 2]) /\
    values c' (delete (Z.to_nat 1) [0; 1; 2]) = delete (Z.to_nat 1) (values ex3 [0; 1; 2]).
Proof.
  split; [linv_tac|]. split; [simpl; lia|].
  apply (Remove_delete 0 ex3 [0; 1; 2] 1%Z); [linv_tac | simpl; lia].
Defined.

Lemma RemoveFirst_spec_witness :
  ListInv ex3 [0; 1; 2] /\
  (values ex3 [0; 1; 2] = [] -> RemoveFirst 0 ex3 = Some ((0, false), ex3)) /\
  (forall v vs, values ex3 [0; 1; 2] = v :: vs ->
     exists c' ls', RemoveFirst 0 ex3 = Some ((v, true), c') /\
       ListInv c' ls' /\ values c' ls' = vs).
Proof. split; [linv_tac|]. apply (RemoveFirst_spec 0 ex3 [0; 1; 2]). linv_tac. Defined.

Lemma RemoveLast_spec_witness :
  ListInv ex3 [0; 1; 2] /\
  (values ex3 [0; 1; 2] = [] -> RemoveLast 0 ex3 = Some ((0, false), ex3)) /\
  (forall vs v, values ex3 [0; 1; 2] = vs ++ [v] ->
     exists c' ls', RemoveLast 0 ex3 = Some ((v, true), c') /\
       ListInv c' ls' /\ values c' ls' = vs).
Proof. split; [linv_tac|]. apply (RemoveLast_spec 0 ex3 [0; 1; 2]). linv_tac. Defined.

Lemma GetFirst_GetLast_witness :
  ListInv ex3 [0; 1; 2] /\
  GetFirst 0 ex3 =
    Some (match values ex3 [0; 1; 2] with [] => (0, false) | v :: _ => (v, true) end, ex3) /\
  GetLast 0 ex3 =
    Some (match list_last (values ex3 [0; 1; 2]) with
          | None => (0, false) | Some v => (v, true) end, ex3).
Proof. split; [linv_tac|]. apply (GetFirst_GetLast 0 ex3 [0; 1; 2]). linv_tac. Defined.

Lemma RemoveFirstOccurrence_spec_witness :
  ListInv ex3 [0; 1; 2] /\
  match list_find (fun v => Nat.eqb 10 v = true) (values ex3 [0; 1; 2]) with
  | None => RemoveFirstOccurrence 0 (Nat.eqb 10) ex3 = Some ((0, (-1)%Z), ex3)
  | Some (i, v) => exists c',
      RemoveFirstOccurrence 0 (Nat.eqb 10) ex3 = Some ((v, Z.of_nat i), c') /\
      ListInv c' (delete i [0; 1; 2]) /\
      values c' (delete i [0; 1; 2]) = delete i (values ex3 [0; 1; 2])
  end.
Proof.
  split; [linv_tac|]. apply (RemoveFirstOccurrence_spec 0 ex3 [0; 1; 2] (Nat.eqb 10)). linv_tac.
Defined.

Lemma RemoveLastOccurrence_spec_witness :
  ListInv ex3 [0; 1; 2] /\
  match list_find (fun v => Nat.eqb 10 v = true) (rev (values ex3 [0; 1; 2])) with
  | None => RemoveLastOccurrence 0 (Nat.eqb 10) ex3 = Some ((0, (-1)%Z), ex3)
  | Some (j, v) => exists c',
      RemoveLastOccurrence 0 (Nat.eqb 10) ex3 = Some ((v, Z.of_nat (length [0; 1; 2] - S j)), c') /\
      ListInv c' (delete (length [0; 1; 2] - S j) [0; 1; 2]) /\
      values c' (delete (length [0; 1; 2] - S j) [0; 1; 2])
        = delete (length [0; 1; 2] - S j) (values ex3 [0; 1; 2])
  end.
Proof.
  split; [linv_tac|]. apply (RemoveLastOccurrence_spec 0 ex3 [0; 1; 2] (Nat.eqb 10)). linv_tac.
Defined.

Lemma RemoveAll_spec_witness :
  ListInv ex3 [0; 1; 2] /\
  exists c' ls', RemoveAll (Nat.eqb 10) ex3
      = Some (Z.of_nat (length (filter (fun v => Nat.eqb 10 v = true) (values ex3 [0; 1; 2]))), c') /\
    ListInv c' ls' /\ values c' ls' = filter (fun v => Nat.eqb 10 v = false) (values ex3 [0; 1; 2]).
Proof. split; [linv_tac|]. apply (RemoveAll_spec ex3 [0; 1; 2] (Nat.eqb 10)). linv_tac. Defined.

Lemma AddFirst_spec_witness :
  ListInv ex3 [0; 1; 2] /\
  exists l c', AddFirst 5 ex3 = Some (tt, c') /\ (l ∉ [0; 1; 2]) /\
    ListInv c' (l :: [0; 1; 2]) /\ values c' (l :: [0; 1; 2]) = 5 :: values ex3 [0; 1; 2].
Proof. split; [linv_tac|]. apply (AddFirst_spec ex3 [0; 1; 2] 5). linv_tac. Defined.

Lemma AddLast_spec_witness :
  ListInv ex3 [0; 1; 2] /\
  exists l c', AddLast 5 ex3 = Some (tt, c') /\ (l ∉ [0; 1; 2]) /\
    ListInv c' ([0; 1; 2] ++ [l]) /\ values c' ([0; 1; 2] ++ [l]) = values ex3 [0; 1; 2] ++ [5].
Proof. split; [linv_tac|]. apply (AddLast_spec ex3 [0; 1; 2] 5). linv_tac. Defined.

Lemma ToArray_values_witness :
  ListInv ex3 [0; 1; 2] /\ ToArray 0 ex3 = Some (values ex3 [0; 1; 2], ex3).
Proof. split; [linv_tac|]. apply (ToArray_values 0 ex3 [0; 1; 2]). linv_tac. Defined.


Lemma AddFirst_RemoveFirst_witness :
  ListInv ex3 [0; 1; 2] /\
  exists c1 c2 ls2, AddFirst 5 ex3 = Some (tt, c1) /\
    RemoveFirst 0 c1 = Some ((5, true), c2) /\
    ListInv c2 ls2 /\ values c2 ls2 = values ex3 [0; 1; 2].
Proof. split; [linv_tac|]. apply (AddFirst_RemoveFirst 0 ex3 [0; 1; 2] 5). linv_tac. Defined.

Lemma AddLast_RemoveLast_witness :
  ListInv ex3 [0; 1; 2] /\
  exists c1 c2 ls2, AddLast 5 ex3 = Some (tt, c1) /\
    RemoveLast 0 c1 = Some ((5, true), c2) /\
    ListInv c2 ls2 /\ values c2 ls2 = values ex3 [0; 1; 2].
Proof. split; [linv_tac|]. apply (AddLast_RemoveLast 0 ex3 [0; 1; 2] 5). linv_tac. Defined.

Lemma swapListItems_spec_witness :
  ListInv ex3 [0; 1; 2] /\ [0; 1; 2] !! 0 = Some 0 /\ [0; 1; 2] !! 1 = Some 1 /\
  exists v1 v2 c', values ex3 [0; 1; 2] !! 0 = Some v1 /\ values ex3 [0; 1; 2] !! 1 = Some v2 /\
    swapListItems 0 1 ex3 = Some (tt, c') /\ ListInv c' [0; 1; 2] /\
    values c' [0; 1; 2] = <[0 := v2]> (<[1 := v1]> (values ex3 [0; 1; 2])).
Proof.
  split; [linv_tac|]. split; [reflexivity|]. split; [reflexivity|].
  apply (swapListItems_spec ex3 [0; 1; 2] 0 1 0 1); [linv_tac | reflexivity | reflexivity].
Defined.
End CollectionsProofs.
